(** * Drawflow: the flow-graph store and its mutation operations

    A shallow embedding of the data side of the [Drawflow] class
    (drawflow.js): the module / node / port / connection store held in
    [this.drawflow], the operations that mutate it, the connection
    elements of the canvas that some of those operations read back, and
    the curve synthesiser [createCurvature].

    Conventions of the embedding.
    - A JavaScript object used as a map is an association list kept in
      the property order of the language (array-index keys first, in
      ascending order, then the other keys in creation order).
    - A method of the class is a function [editor -> outcome A]: it
      returns a value and the new editor, or throws and leaves the editor
      as it was at the point of the throw.
    - Identifiers that the callers pass as "string|number" are values of
      [jsid]; integral numbers are [Z], other numbers are [Q].  A number
      of the language is a double: the integers are numbers up to
      2^53 - 1 in absolute value ([max_safe]), and the arithmetic of
      the counter is rounded from there on ([js_succ]).  The values
      that [parseInt] and [Number] read from a text are the integers
      that the text writes; [standard_keys] describes the stores on
      whose keys these are numbers of the language.
    - Of the DOM only the class lists of the [.connection] elements are
      kept, since [removeConnectionNodeId] reads the store keys back from
      them.  Node and port elements, SVG paths and reroute circles are
      rendering only and are left out; [updateConnectionNodes] writes
      nothing but path attributes and is left out with them.  The
      canvas is taken to hold the elements of the nodes of the active
      module, as [addNode] and [load] leave it.  The construction of a
      node element can throw; of its steps [Object.entries(data)] is
      kept, and [renders] and [drawable] describe the arguments and
      the stores for which the other steps do not throw.
    - [dispatch] is recorded as a log of the dispatched events. *)

From Stdlib Require Import List String Ascii ZArith QArith Qabs Lia Bool Arith
  Permutation DecimalString DecimalNat.
Import ListNotations.
Open Scope string_scope.
Open Scope Z_scope.
Open Scope list_scope.

(** String concatenation, the [+] of the language on strings. *)
Infix "+++" := String.append (at level 60, right associativity).

Set Implicit Arguments.

(* ------------------------------------------------------------------ *)
(** ** JavaScript primitives *)

Module JS.

(** Values that the code uses as node identifiers: numbers (the
    sequential counter) or strings (object keys, uuids, DOM ids). *)
Inductive jsid := IdNum (z : Z) | IdStr (s : string).

(** [Number.prototype.toString] on an integral number. *)
Definition nat_to_string (n : nat) : string :=
  NilZero.string_of_uint (Nat.to_uint n).

Definition Z_to_string (z : Z) : string :=
  if z <? 0 then String "-" (nat_to_string (Z.abs_nat z))
  else nat_to_string (Z.abs_nat z).

(** [id.toString()], also the conversion of an identifier to a property
    key and its conversion in a string concatenation. *)
Definition toString (v : jsid) : string :=
  match v with
  | IdNum z => Z_to_string z
  | IdStr s => s
  end.

Definition digit_of (c : ascii) : option nat :=
  let n := nat_of_ascii c in
  if ((48 <=? n) && (n <=? 57))%nat then Some (n - 48)%nat else None.

(** Value of the longest prefix of decimal digits, from accumulator
    [acc]. *)
Fixpoint digits_prefix (s : string) (acc : nat) : nat :=
  match s with
  | EmptyString => acc
  | String c r =>
      match digit_of c with
      | Some d => digits_prefix r (10 * acc + d)
      | None => acc
      end
  end.

Definition starts_with_digit (s : string) : bool :=
  match s with
  | String c _ => match digit_of c with Some _ => true | None => false end
  | EmptyString => false
  end.

Fixpoint all_digits (s : string) : bool :=
  match s with
  | EmptyString => true
  | String c r => match digit_of c with Some _ => all_digits r | None => false end
  end.

Definition is_space (c : ascii) : bool :=
  let n := nat_of_ascii c in
  ((n =? 32) || ((9 <=? n) && (n <=? 13)))%nat.

Fixpoint skip_spaces (s : string) : string :=
  match s with
  | String c r => if is_space c then skip_spaces r else s
  | EmptyString => s
  end.

(** The digit that [c] is in radix [r], for [r] up to 16; the letters
    count in either case. *)
Definition radix_digit (r : nat) (c : ascii) : option nat :=
  let n := nat_of_ascii c in
  let d := if ((48 <=? n) && (n <=? 57))%nat then Some (n - 48)%nat
           else if ((97 <=? n) && (n <=? 102))%nat then Some (n - 87)%nat
           else if ((65 <=? n) && (n <=? 70))%nat then Some (n - 55)%nat
           else None in
  match d with
  | Some v => if (v <? r)%nat then Some v else None
  | None => None
  end.

(** Value of the longest prefix of digits of radix [r], from
    accumulator [acc]. *)
Fixpoint radix_prefix (r : nat) (s : string) (acc : nat) : nat :=
  match s with
  | EmptyString => acc
  | String c t =>
      match radix_digit r c with
      | Some d => radix_prefix r t (r * acc + d)
      | None => acc
      end
  end.

Definition starts_with_radix (r : nat) (s : string) : bool :=
  match s with
  | String c _ => match radix_digit r c with Some _ => true | None => false end
  | EmptyString => false
  end.

Fixpoint all_radix (r : nat) (s : string) : bool :=
  match s with
  | EmptyString => true
  | String c t => match radix_digit r c with Some _ => all_radix r t | None => false end
  end.

(** The text after the prefix [0x] or [0X]. *)
Definition hex_prefixed (s : string) : option string :=
  match s with
  | String "0" (String c r) =>
      if Ascii.eqb c "x" || Ascii.eqb c "X" then Some r else None
  | _ => None
  end.

(** [parseInt(s)] without a radix: leading white space, an optional
    sign, then the longest prefix of hexadecimal digits after [0x] and
    of decimal digits otherwise; [None] is NaN.  The value is the
    integer that the digits write: the language rounds it to a double,
    which changes it only from 2^53 on. *)
Definition parseInt (s : string) : option Z :=
  let unsigned (r : string) :=
    match hex_prefixed r with
    | Some h =>
        if starts_with_radix 16 h then Some (Z.of_nat (radix_prefix 16 h 0)) else None
    | None =>
        if starts_with_digit r then Some (Z.of_nat (digits_prefix r 0)) else None
    end in
  match skip_spaces s with
  | String "-" r => option_map Z.opp (unsigned r)
  | String "+" r => unsigned r
  | r => unsigned r
  end.

(** [s] without its trailing white space. *)
Fixpoint trim_end (s : string) : string :=
  match s with
  | EmptyString => EmptyString
  | String c r =>
      match trim_end r with
      | EmptyString => if is_space c then EmptyString else String c EmptyString
      | r' => String c r'
      end
  end.

(** The text after the leading decimal digits, and their number. *)
Fixpoint after_digits (s : string) : string :=
  match s with
  | String c r => match digit_of c with Some _ => after_digits r | None => s end
  | EmptyString => s
  end.

Fixpoint digits_length (s : string) : nat :=
  match s with
  | String c r => match digit_of c with Some _ => S (digits_length r) | None => O end
  | EmptyString => O
  end.

(** A literal [0x..], [0o..] or [0b..] (the letter in either case):
    its value, or NaN when no digit follows or something else does.
    [None] when [s] does not start as one. *)
Definition radix_literal (s : string) : option (option Z) :=
  match s with
  | String "0" (String c r) =>
      let lit (radix : nat) :=
        Some (if starts_with_radix radix r && all_radix radix r
              then Some (Z.of_nat (radix_prefix radix r 0)) else None) in
      if Ascii.eqb c "x" || Ascii.eqb c "X" then lit 16%nat
      else if Ascii.eqb c "o" || Ascii.eqb c "O" then lit 8%nat
      else if Ascii.eqb c "b" || Ascii.eqb c "B" then lit 2%nat
      else None
  | _ => None
  end.

(** An unsigned decimal literal: digits, an optional point and
    fraction, an optional exponent, with a digit before or after the
    point.  The result is its value when that is an integer. *)
Definition decimal_literal (s : string) : option Z :=
  let r1 := after_digits s in
  let has_dot := match r1 with String "." _ => true | _ => false end in
  let f := match r1 with String "." f => f | _ => r1 end in
  let frac_len := if has_dot then digits_length f else O in
  let r2 := if has_dot then after_digits f else r1 in
  let mantissa :=
    if has_dot then digits_prefix f (digits_prefix s 0) else digits_prefix s 0 in
  let some_digit := negb ((digits_length s + frac_len =? 0)%nat) in
  let exponent : option Z :=
    match r2 with
    | EmptyString => Some 0
    | String c x =>
        if Ascii.eqb c "e" || Ascii.eqb c "E" then
          let signed (d : string) (neg : bool) :=
            if starts_with_digit d && all_digits d
            then Some (if neg then - Z.of_nat (digits_prefix d 0)
                       else Z.of_nat (digits_prefix d 0))
            else None in
          match x with
          | String "-" d => signed d true
          | String "+" d => signed d false
          | d => signed d false
          end
        else None
    end in
  match exponent with
  | Some e =>
      if some_digit then
        let k := e - Z.of_nat frac_len in
        let m := Z.of_nat mantissa in
        if 0 <=? k then Some (m * 10 ^ k)
        else if m mod 10 ^ (- k) =? 0 then Some (m / 10 ^ (- k)) else None
      else None
  | None => None
  end.

(** [Number(s)] when it is an integer: white space around, then
    nothing (the number 0), a radix literal, or an optionally signed
    decimal literal.  [None] is NaN, an infinity or a number that is
    not an integer, none of which is equal to an integer.  The value is
    the one that the literal writes: the language rounds it to a
    double, which changes an integer only from 2^53 on and makes an
    integer of a fraction only when the literal has more than 15
    digits. *)
Definition ToNumber (s : string) : option Z :=
  match trim_end (skip_spaces s) with
  | EmptyString => Some 0
  | t =>
      match radix_literal t with
      | Some v => v
      | None =>
          match t with
          | String "-" r => option_map Z.opp (decimal_literal r)
          | String "+" r => decimal_literal r
          | r => decimal_literal r
          end
      end
  end.

(** [Number.MAX_SAFE_INTEGER], 2^53 - 1: up to it, in absolute value,
    every integer is a number of the language. *)
Definition max_safe : Z := 9007199254740991.

(** The number of the language (a double) nearest to the integer [z],
    ties to the even significand; no overflow below 2^1024. *)
Definition to_double (z : Z) : Z :=
  let a := Z.abs z in
  if a <=? max_safe then z
  else
    let e := Z.log2 a - 52 in
    let q := Z.shiftr a e in
    let r := a - Z.shiftl q e in
    let half := Z.shiftl 1 (e - 1) in
    let q' := if r <? half then q
              else if half <? r then q + 1
              else if Z.even q then q else q + 1 in
    Z.sgn z * Z.shiftl q' e.

(** [n + 1], also the new value of [n] after [n++]. *)
Definition js_succ (n : Z) : Z := to_double (n + 1).

(** [a == b] on identifiers. *)
Definition loose_eq (a b : jsid) : bool :=
  match a, b with
  | IdNum x, IdNum y => x =? y
  | IdStr x, IdStr y => String.eqb x y
  | IdStr x, IdNum y | IdNum y, IdStr x =>
      match ToNumber x with Some n => n =? y | None => false end
  end.

(** [a === b] on identifiers. *)
Definition strict_eq (a b : jsid) : bool :=
  match a, b with
  | IdNum x, IdNum y => x =? y
  | IdStr x, IdStr y => String.eqb x y
  | _, _ => false
  end.

(** [s.slice(n)] for [n >= 0]. *)
Fixpoint slice (n : nat) (s : string) : string :=
  match n, s with
  | O, _ => s
  | S n', String _ r => slice n' r
  | S _, EmptyString => EmptyString
  end.



(** *** Objects as ordered maps *)

Definition obj (V : Type) := list (string * V).

(** An array index is the canonical decimal form of an integer below
    2^32 - 1. *)
Definition array_index (k : string) : option nat :=
  if starts_with_digit k && all_digits k then
    let n := digits_prefix k 0 in
    if String.eqb (nat_to_string n) k && (Z.of_nat n <? 4294967295)
    then Some n else None
  else None.

Section Obj.
Context {V : Type}.

Fixpoint get (k : string) (o : obj V) : option V :=
  match o with
  | [] => None
  | (k', v) :: o' => if String.eqb k k' then Some v else get k o'
  end.

Definition keys (o : obj V) : list string := map fst o.

Definition has (k : string) (o : obj V) : bool :=
  match get k o with Some _ => true | None => false end.

Fixpoint replace (k : string) (v : V) (o : obj V) : obj V :=
  match o with
  | [] => []
  | (k', v') :: o' =>
      if String.eqb k k' then (k, v) :: o' else (k', v') :: replace k v o'
  end.

(** Position of a new index key [n]: before the first key that is not
    an index or is a larger index. *)
Fixpoint insert_index (n : nat) (k : string) (v : V) (o : obj V) : obj V :=
  match o with
  | [] => [(k, v)]
  | (k', v') :: o' =>
      match array_index k' with
      | Some m => if (m <? n)%nat then (k', v') :: insert_index n k v o'
                  else (k, v) :: o
      | None => (k, v) :: o
      end
  end.

(** [o[k] = v]. *)
Definition set (k : string) (v : V) (o : obj V) : obj V :=
  if has k o then replace k v o
  else match array_index k with
       | Some n => insert_index n k v o
       | None => o ++ [(k, v)]
       end.

(** [delete o[k]]. *)
Fixpoint delete (k : string) (o : obj V) : obj V :=
  match o with
  | [] => []
  | (k', v) :: o' =>
      if String.eqb k k' then o' else (k', v) :: delete k o'
  end.

(** The shape of every object of the language: no key twice, index
    keys first and ascending. *)
Fixpoint ordered_from (lo : option nat) (nonindex : bool) (ks : list string) : bool :=
  match ks with
  | [] => true
  | k :: r =>
      match array_index k with
      | Some n =>
          negb nonindex
          && match lo with Some m => (m <? n)%nat | None => true end
          && ordered_from (Some n) false r
      | None => ordered_from lo true r
      end
  end.

Fixpoint distinct (ks : list string) : bool :=
  match ks with
  | [] => true
  | k :: r => negb (existsb (String.eqb k) r) && distinct r
  end.

Definition well_formed (o : obj V) : bool :=
  distinct (keys o) && ordered_from None false (keys o).
End Obj.

(** Building an object property by property, as [JSON.parse] does from
    the text that [JSON.stringify] wrote in key order. *)
Definition rebuild {V W : Type} (f : V -> W) (o : obj V) : obj W :=
  fold_left (fun acc kv => set (fst kv) (f (snd kv)) acc) o [].

End JS.

Import JS.

(* ------------------------------------------------------------------ *)
(** ** The store *)

(** JSON values, for the data bound to a node. *)
#[warnings="-register-all"]
Inductive json :=
| JNull
| JBool (b : bool)
| JNumber (q : Q)
| JString (s : string)
| JArray (l : list json)
| JObject (o : list (string * json)).

(** A reroute point [{pos_x, pos_y}]. *)
Record point := { p_x : Q; p_y : Q }.

(** An entry of a [connections] array.  In an output port it is
    [{node, output, points?}], in an input port [{node, input}]:
    [c_port] is the [output] field of the former and the [input] field
    of the latter, the port on the other node. *)
Record conn := {
  c_node : jsid;
  c_port : string;
  c_points : option (list point)
}.

(** A port [{connections: [...]}]. *)
Record port := { connections : list conn }.

(** A node record, as [addNode] builds it. *)
Record node := {
  n_id : jsid;
  n_name : string;
  n_data : json;
  n_class : string;
  n_html : string;
  n_typenode : json;
  n_inputs : obj port;
  n_outputs : obj port;
  n_pos_x : Q;
  n_pos_y : Q
}.

(** A module [{data: {...}}]. *)
Record module_t := { m_data : obj node }.

(** [this.drawflow.drawflow]. *)
Definition graph := obj module_t.

Inductive side := Inputs | Outputs.

Definition ports (sd : side) (n : node) : obj port :=
  match sd with Inputs => n_inputs n | Outputs => n_outputs n end.

Definition with_ports (sd : side) (ps : obj port) (n : node) : node :=
  match sd with
  | Inputs =>
      {| n_id := n_id n; n_name := n_name n; n_data := n_data n;
         n_class := n_class n; n_html := n_html n; n_typenode := n_typenode n;
         n_inputs := ps; n_outputs := n_outputs n;
         n_pos_x := n_pos_x n; n_pos_y := n_pos_y n |}
  | Outputs =>
      {| n_id := n_id n; n_name := n_name n; n_data := n_data n;
         n_class := n_class n; n_html := n_html n; n_typenode := n_typenode n;
         n_inputs := n_inputs n; n_outputs := ps;
         n_pos_x := n_pos_x n; n_pos_y := n_pos_y n |}
  end.

(** *** [JSON.parse(JSON.stringify(v))] *)

Fixpoint clone_json (j : json) : json :=
  match j with
  | JArray l => JArray (map clone_json l)
  | JObject o =>
      JObject (fold_left (fun acc kv => set (fst kv) (clone_json (snd kv)) acc) o [])
  | _ => j
  end.

Definition clone_point (p : point) : point := {| p_x := p_x p; p_y := p_y p |}.

Definition clone_conn (c : conn) : conn :=
  {| c_node := c_node c; c_port := c_port c;
     c_points := option_map (map clone_point) (c_points c) |}.

Definition clone_port (p : port) : port :=
  {| connections := map clone_conn (connections p) |}.

Definition clone_node (n : node) : node :=
  {| n_id := n_id n; n_name := n_name n; n_data := clone_json (n_data n);
     n_class := n_class n; n_html := n_html n;
     n_typenode := clone_json (n_typenode n);
     n_inputs := rebuild clone_port (n_inputs n);
     n_outputs := rebuild clone_port (n_outputs n);
     n_pos_x := n_pos_x n; n_pos_y := n_pos_y n |}.

Definition clone_module (m : module_t) : module_t :=
  {| m_data := rebuild clone_node (m_data m) |}.

Definition clone_graph (g : graph) : graph := rebuild clone_module g.

(** *** Well-formed stores

    Every object of the store is an object of the language: its keys
    are distinct and in property order. *)

Fixpoint json_ok (j : json) : bool :=
  match j with
  | JArray l => forallb json_ok l
  | JObject o => well_formed o && forallb (fun kv => json_ok (snd kv)) o
  | _ => true
  end.

Definition node_ok (n : node) : bool :=
  well_formed (n_inputs n) && well_formed (n_outputs n)
  && json_ok (n_data n) && json_ok (n_typenode n).

Definition module_ok (m : module_t) : bool :=
  well_formed (m_data m) && forallb (fun kv => node_ok (snd kv)) (m_data m).

Definition graph_ok (g : graph) : bool :=
  well_formed g && forallb (fun kv => module_ok (snd kv)) g.

(** *** Paths into the store *)

(** A property key computed from a value that may be [undefined]. *)
Definition key_of (o : option string) : string :=
  match o with Some k => k | None => "undefined" end.

(** [g[m].data[k]] *)
Definition node_at (m k : string) (g : graph) : option node :=
  match get m g with
  | Some md => get k (m_data md)
  | None => None
  end.

(** [g[m].data[k].<side>[cls].connections] *)
Definition conns_at (sd : side) (m k cls : string) (g : graph) : option (list conn) :=
  match node_at m k g with
  | Some n => option_map connections (get cls (ports sd n))
  | None => None
  end.

(** [k in g[m].data] *)
Definition has_node (m k : string) (g : graph) : bool :=
  match node_at m k g with Some _ => true | None => false end.

(** Assignment to [g[m].data[k]] when [g[m]] exists. *)
Definition set_node (m k : string) (n : node) (g : graph) : option graph :=
  match get m g with
  | Some md => Some (replace m {| m_data := set k n (m_data md) |} g)
  | None => None
  end.

(** In-place change of the node [g[m].data[k]]. *)
Definition change_node (m k : string) (f : node -> node) (g : graph) : option graph :=
  match get m g with
  | Some md =>
      match get k (m_data md) with
      | Some n => Some (replace m {| m_data := replace k (f n) (m_data md) |} g)
      | None => None
      end
  | None => None
  end.

(** In-place change of the array [g[m].data[k].<side>[cls].connections]. *)
Definition change_conns (sd : side) (m k cls : string)
    (f : list conn -> list conn) (g : graph) : option graph :=
  match node_at m k g with
  | Some n =>
      match get cls (ports sd n) with
      | Some p =>
          change_node m k
            (with_ports sd (replace cls {| connections := f (connections p) |} (ports sd n))) g
      | None => None
      end
  | None => None
  end.

(** The names of the modules and of their nodes, which is all that
    [getModuleFromNodeId] reads. *)
Definition skeleton (g : graph) : list (string * list string) :=
  map (fun md => (fst md, keys (m_data (snd md)))) g.

Definition side_eqb (a b : side) : bool :=
  match a, b with
  | Inputs, Inputs | Outputs, Outputs => true
  | _, _ => false
  end.

Definition other (sd : side) : side :=
  match sd with Inputs => Outputs | Outputs => Inputs end.

(* ------------------------------------------------------------------ *)
(** ** The editor *)

Inductive detail :=
| DId (v : jsid)
| DStr (s : string)
| DConn (output_id input_id : jsid) (output_class input_class : string)
| DGraph (g : graph).

Record event := { ev_name : string; ev_detail : detail }.

(** The fields of [this] that the modelled methods use.  [precanvas]
    holds the class list of every [.connection] element, in document
    order; [random k] is the value of [Math.floor(Math.random() * 0x10)]
    at the [k]-th call. *)
Record editor := {
  drawflow : graph;
  module : string;
  nodeId : Z;
  useuuid : bool;
  precanvas : list (list string);
  dispatched : list event;
  random : nat -> nat;
  random_calls : nat
}.

Inductive error := TypeError | SyntaxError.

Inductive outcome (A : Type) :=
| Ret (a : A) (e : editor)
| Throw (x : error) (e : editor).
Arguments Ret {A} a e.
Arguments Throw {A} x e.

Definition M (A : Type) := editor -> outcome A.

Definition ret {A} (a : A) : M A := fun e => Ret a e.
Definition throw {A} (x : error) : M A := fun e => Throw x e.
Definition bind {A B} (c : M A) (k : A -> M B) : M B :=
  fun e => match c e with
           | Ret a e' => k a e'
           | Throw x e' => Throw x e'
           end.
Definition gets {A} (f : editor -> A) : M A := fun e => Ret (f e) e.
Definition modify (f : editor -> editor) : M unit := fun e => Ret tt (f e).

Notation "x <- c ;; k" := (bind c (fun x => k))
  (at level 61, c at next level, right associativity).
Notation "c ;; k" := (bind c (fun _ => k))
  (at level 61, right associativity).

(** A value that is dereferenced: [undefined] throws a TypeError. *)
Definition deref {A} (o : option A) : M A :=
  match o with Some a => ret a | None => throw TypeError end.

Fixpoint for_each {A} (f : A -> M unit) (l : list A) : M unit :=
  match l with
  | [] => ret tt
  | a :: r => f a ;; for_each f r
  end.

Definition final {A} (r : outcome A) : editor :=
  match r with Ret _ e => e | Throw _ e => e end.

Definition set_drawflow (g : graph) (e : editor) : editor :=
  {| drawflow := g; module := module e; nodeId := nodeId e; useuuid := useuuid e;
     precanvas := precanvas e; dispatched := dispatched e;
     random := random e; random_calls := random_calls e |}.

Definition set_module (m : string) (e : editor) : editor :=
  {| drawflow := drawflow e; module := m; nodeId := nodeId e; useuuid := useuuid e;
     precanvas := precanvas e; dispatched := dispatched e;
     random := random e; random_calls := random_calls e |}.

Definition set_nodeId (n : Z) (e : editor) : editor :=
  {| drawflow := drawflow e; module := module e; nodeId := n; useuuid := useuuid e;
     precanvas := precanvas e; dispatched := dispatched e;
     random := random e; random_calls := random_calls e |}.

Definition set_precanvas (p : list (list string)) (e : editor) : editor :=
  {| drawflow := drawflow e; module := module e; nodeId := nodeId e; useuuid := useuuid e;
     precanvas := p; dispatched := dispatched e;
     random := random e; random_calls := random_calls e |}.

Definition set_random_calls (k : nat) (e : editor) : editor :=
  {| drawflow := drawflow e; module := module e; nodeId := nodeId e; useuuid := useuuid e;
     precanvas := precanvas e; dispatched := dispatched e;
     random := random e; random_calls := k |}.

(** [this.dispatch(event, details)]: the listeners are the host's; the
    call is recorded. *)
Definition dispatch (name : string) (d : detail) : M unit :=
  modify (fun e =>
    {| drawflow := drawflow e; module := module e; nodeId := nodeId e;
       useuuid := useuuid e; precanvas := precanvas e;
       dispatched := dispatched e ++ [{| ev_name := name; ev_detail := d |}];
       random := random e; random_calls := random_calls e |}).

(** A store update through a path: a missing link of the path throws. *)
Definition update_store (f : graph -> option graph) : M unit :=
  g <- gets drawflow ;;
  g' <- deref (f g) ;;
  modify (set_drawflow g').

(** The editor that the constructor builds. *)
Definition initial (rnd : nat -> nat) : editor :=
  {| drawflow := [("Home", {| m_data := [] |})];
     module := "Home";
     nodeId := 1;
     useuuid := false;
     precanvas := [];
     dispatched := [];
     random := rnd;
     random_calls := 0 |}.

(* ------------------------------------------------------------------ *)
(** ** Arrays and the connection elements of the canvas *)

Fixpoint find_index {A} (p : A -> bool) (l : list A) : option nat :=
  match l with
  | [] => None
  | a :: r => if p a then Some O else option_map S (find_index p r)
  end.

(** [arr.findIndex(p)] *)
Definition findIndex {A} (p : A -> bool) (l : list A) : Z :=
  match find_index p l with
  | Some i => Z.of_nat i
  | None => -1
  end.

Definition remove_nth {A} (n : nat) (l : list A) : list A :=
  firstn n l ++ skipn (S n) l.

(** [arr.splice(i, 1)]: a negative [i] counts from the end, so that
    [splice(-1, 1)] removes the last element. *)
Definition splice1 {A} (i : Z) (l : list A) : list A :=
  let len := Z.of_nat (List.length l) in
  let start := if i <? 0 then Z.max (len + i) 0 else Z.min i len in
  remove_nth (Z.to_nat start) l.


Definition has_class (c : string) (cl : list string) : bool :=
  existsb (String.eqb c) cl.

(** [classList.add(c)] and [classList.remove(c)] on the token set. *)
Definition classList_add (c : string) (cl : list string) : list string :=
  if has_class c cl then cl else cl ++ [c].


(** An element matches [.c1.c2...] when it carries every class. *)
Definition matches (sel : list string) (cl : list string) : bool :=
  forallb (fun c => has_class c cl) sel.

Fixpoint indices_from {A} (p : A -> bool) (i : nat) (l : list A) : list nat :=
  match l with
  | [] => []
  | a :: r => if p a then i :: indices_from p (S i) r else indices_from p (S i) r
  end.

(** [querySelectorAll(sel)] over the connection elements: positions in
    document order. *)
Definition querySelectorAll (sel : list string) (dom : list (list string)) : list nat :=
  indices_from (matches sel) O dom.

(** [querySelector(sel)]: the first match. *)
Definition querySelector (sel : list string) (dom : list (list string)) : option nat :=
  find_index (matches sel) dom.

(** The class list of a [.connection] element after the five
    [classList.add] calls that create it. *)
Definition connection_element (id_input id_output output_class input_class : string)
  : list string :=
  fold_left (fun cl c => classList_add c cl)
    ["connection"; "node_in_node-" +++ id_input; "node_out_node-" +++ id_output;
     output_class; input_class] [].

(* ------------------------------------------------------------------ *)
(** ** Methods *)

(** [getModuleFromNodeId(id)]: the last module, in key order, that has
    a key [node == id]; [None] is [undefined]. *)
Definition module_of (id : jsid) (g : graph) : option string :=
  fold_left (fun nameModule mod_ =>
    fold_left (fun nm nodeKey =>
                 if loose_eq (IdStr nodeKey) id then Some (fst mod_) else nm)
              (keys (m_data (snd mod_))) nameModule)
    g None.

Definition getModuleFromNodeId (id : jsid) : M (option string) :=
  gets (fun e => module_of id (drawflow e)).

(** [getNodeFromId(id)]: [JSON.parse] of the text [undefined] is a
    SyntaxError. *)
Definition getNodeFromId (id : jsid) : M node :=
  moduleName <- getModuleFromNodeId id ;;
  g <- gets drawflow ;;
  md <- deref (get (key_of moduleName) g) ;;
  match get (toString id) (m_data md) with
  | Some n => ret (clone_node n)
  | None => throw SyntaxError
  end.


(** [Object.entries(data)], the first step of the code that binds the
    data of a node to the [df-*] attributes of its content: [null]
    throws a TypeError.  (The selectors [[df-key]] that are then built
    from the keys are left out with the content; [binds] below tells
    for which data they are selectors.) *)
Definition object_entries (data : json) : M unit :=
  match data with
  | JNull => throw TypeError
  | _ => ret tt
  end.

(** [getNodesFromName(name)] *)
Definition getNodesFromName (name : string) : M (list jsid) :=
  g <- gets drawflow ;;
  ret (fold_left (fun nodes md =>
         fold_left (fun nodes kn =>
                      if String.eqb (n_name (snd kn)) name
                      then nodes ++ [n_id (snd kn)] else nodes)
                   (m_data (snd md)) nodes)
         g []).

Definition option_string_eqb (a b : option string) : bool :=
  match a, b with
  | Some x, Some y => String.eqb x y
  | None, None => true
  | _, _ => false
  end.

(** [this.module === m] for a module name [m] that may be undefined. *)
Definition is_current (m : option string) : M bool :=
  cur <- gets module ;;
  ret (option_string_eqb (Some cur) m).


Definition append_element (cl : list string) : M unit :=
  modify (fun e => set_precanvas (precanvas e ++ [cl]) e).

Definition addConnection (id_output id_input : jsid)
    (output_class input_class : string) : M unit :=
  nodeOneModule <- getModuleFromNodeId id_output ;;
  nodeTwoModule <- getModuleFromNodeId id_input ;;
  if option_string_eqb nodeOneModule nodeTwoModule then
    dataNode <- getNodeFromId id_output ;;
    p <- deref (get output_class (n_outputs dataNode)) ;;
    let exist :=
      existsb (fun connectionSearch =>
                 loose_eq (c_node connectionSearch) id_input
                 && String.eqb (c_port connectionSearch) input_class)
              (connections p) in
    if negb exist then
      update_store (change_conns Outputs (key_of nodeOneModule) (toString id_output)
        output_class
        (fun l => l ++ [{| c_node := IdStr (toString id_input);
                           c_port := input_class; c_points := None |}])) ;;
      update_store (change_conns Inputs (key_of nodeOneModule) (toString id_input)
        input_class
        (fun l => l ++ [{| c_node := IdStr (toString id_output);
                           c_port := output_class; c_points := None |}])) ;;
      cur <- is_current nodeOneModule ;;
      (if cur then
         append_element (connection_element (toString id_input) (toString id_output)
                           output_class input_class)
       else ret tt) ;;
      dispatch "connectionCreated" (DConn id_output id_input output_class input_class)
    else ret tt
  else ret tt.

(** [querySelector(sel).remove()] *)
Definition remove_element (sel : list string) : M unit :=
  dom <- gets precanvas ;;
  i <- deref (querySelector sel dom) ;;
  modify (set_precanvas (remove_nth i dom)).

Definition removeSingleConnection (id_output id_input : jsid)
    (output_class input_class : string) : M bool :=
  nodeOneModule <- getModuleFromNodeId id_output ;;
  nodeTwoModule <- getModuleFromNodeId id_input ;;
  if option_string_eqb nodeOneModule nodeTwoModule then
    let m := key_of nodeOneModule in
    let is_out := fun item =>
      loose_eq (c_node item) id_input && String.eqb (c_port item) input_class in
    let is_in := fun item =>
      loose_eq (c_node item) id_output && String.eqb (c_port item) output_class in
    g <- gets drawflow ;;
    outs <- deref (conns_at Outputs m (toString id_output) output_class g) ;;
    if -1 <? findIndex is_out outs then
      cur <- is_current nodeOneModule ;;
      (if cur then
         remove_element ["connection"; "node_in_node-" +++ toString id_input;
                         "node_out_node-" +++ toString id_output;
                         output_class; input_class]
       else ret tt) ;;
      update_store (change_conns Outputs m (toString id_output) output_class
                      (fun l => splice1 (findIndex is_out l) l)) ;;
      update_store (change_conns Inputs m (toString id_input) input_class
                      (fun l => splice1 (findIndex is_in l) l)) ;;
      dispatch "connectionRemoved" (DConn id_output id_input output_class input_class) ;;
      ret true
    else ret false
  else ret false.

(** One round of the two loops of [removeConnectionNodeId], for the
    element at position [i]; [in_first] tells which entry is spliced
    first. *)
Definition remove_connection_of_element (in_first : bool) (i : nat) : M unit :=
  dom <- gets precanvas ;;
  listclass <- deref (nth_error dom i) ;;
  lc1 <- deref (nth_error listclass 1) ;;
  lc2 <- deref (nth_error listclass 2) ;;
  let lc3 := nth_error listclass 3 in
  let lc4 := nth_error listclass 4 in
  m <- gets module ;;
  let id_in := slice 13 lc1 in
  let id_out := slice 14 lc2 in
  let splice_in :=
    update_store (change_conns Inputs m id_in (key_of lc4)
      (fun l => splice1 (findIndex (fun item =>
          strict_eq (c_node item) (IdStr id_out)
          && option_string_eqb (Some (c_port item)) lc3) l) l)) in
  let splice_out :=
    update_store (change_conns Outputs m id_out (key_of lc3)
      (fun l => splice1 (findIndex (fun item =>
          strict_eq (c_node item) (IdStr id_in)
          && option_string_eqb (Some (c_port item)) lc4) l) l)) in
  (if in_first then splice_in ;; splice_out else splice_out ;; splice_in) ;;
  modify (fun e => set_precanvas (remove_nth i (precanvas e)) e) ;;
  dispatch "connectionRemoved"
    (DConn (IdStr id_out) (IdStr id_in) (key_of lc3) (key_of lc4)).

(** [removeConnectionNodeId(id)], [id] of the form ["node-X"]. *)
Definition removeConnectionNodeId (id : string) : M unit :=
  dom <- gets precanvas ;;
  for_each (remove_connection_of_element true)
           (rev (querySelectorAll ["node_out_" +++ id] dom)) ;;
  dom' <- gets precanvas ;;
  for_each (remove_connection_of_element false)
           (rev (querySelectorAll ["node_in_" +++ id] dom')).

(** [removeNodeId(id)], [id] of the form ["node-X"]. *)
Definition removeNodeId (id : string) : M unit :=
  removeConnectionNodeId id ;;
  moduleName <- getModuleFromNodeId (IdStr (slice 5 id)) ;;
  g <- gets drawflow ;;
  md <- deref (get (key_of moduleName) g) ;;
  modify (set_drawflow
            (replace (key_of moduleName)
               {| m_data := delete (slice 5 id) (m_data md) |} g)) ;;
  dispatch "nodeRemoved" (DStr (slice 5 id)).

(** [hexDigits.substr(k, 1)] *)
Definition hex_digit (k : nat) : string := substring k 1 "0123456789abcdef".

(** [getUuid()]: 36 draws, then the version digit, the variant digit
    and the separators.  [s[19] & 0x3] is 0 when the drawn digit is a
    letter. *)
Definition getUuid : M string :=
  k <- gets random_calls ;;
  rnd <- gets random ;;
  modify (set_random_calls (k + 36)) ;;
  let draw (i : nat) := Nat.modulo (rnd (k + i)%nat) 16 in
  let variant :=
    let d := draw 19%nat in
    Nat.lor (Nat.land (if (d <? 10)%nat then d else O) 3) 8 in
  let char_at (i : nat) : string :=
    if ((i =? 8) || (i =? 13) || (i =? 18) || (i =? 23))%nat then "-"
    else if (i =? 14)%nat then "4"
    else if (i =? 19)%nat then hex_digit variant
    else hex_digit (draw i) in
  ret (String.concat "" (map char_at (seq 0 36))).

(** *** The shape of a uuid *)

Definition is_hex (c : ascii) : bool :=
  let n := nat_of_ascii c in
  (((48 <=? n) && (n <=? 57)) || ((97 <=? n) && (n <=? 102)))%nat.

(** What the character at position [i] of a version 4 uuid is: a
    hyphen at 8, 13, 18 and 23, the version [4] at 14, one of [8], [9],
    [a], [b] at 19, and a lower-case hexadecimal digit elsewhere. *)
Definition uuid_char_ok (i : nat) (c : ascii) : bool :=
  if ((i =? 8) || (i =? 13) || (i =? 18) || (i =? 23))%nat then Ascii.eqb c "-"
  else if (i =? 14)%nat then Ascii.eqb c "4"
  else if (i =? 19)%nat
       then Ascii.eqb c "8" || Ascii.eqb c "9" || Ascii.eqb c "a" || Ascii.eqb c "b"
       else is_hex c.

(** [xxxxxxxx-xxxx-4xxx-yxxx-xxxxxxxxxxxx] *)
Definition uuid_shape (u : string) : bool :=
  (String.length u =? 36)%nat
  && forallb (fun i => match String.get i u with
                       | Some c => uuid_char_ok i c
                       | None => false
                       end) (seq 0 36).

(** The ports object that the loops of [addNode] fill: [prefix_1] to
    [prefix_n], none when [n] is not positive. *)
Definition new_ports (prefix : string) (n : Z) : obj port :=
  fold_left (fun acc x => set (prefix +++ nat_to_string (x + 1)) {| connections := [] |} acc)
            (seq 0 (Z.to_nat n)) [].

(** [addNode(name, num_in, num_out, ele_pos_x, ele_pos_y, classoverride,
    data, html, typenode)].  The element of the node is built before
    the record is stored; of its construction only [Object.entries(data)]
    is kept, the other steps ([classList.add] of the class override,
    the lookup of a registered node, the [df-*] selectors) are left out
    and do not throw for arguments that [renders] accepts. *)
Definition addNode (name : string) (num_in num_out : Z) (ele_pos_x ele_pos_y : Q)
    (classoverride : string) (data : json) (html : string) (typenode : json)
  : M jsid :=
  uuid <- gets useuuid ;;
  newNodeId <- (if uuid then (u <- getUuid ;; ret (IdStr u))
                else (n <- gets nodeId ;; ret (IdNum n))) ;;
  object_entries data ;;
  let json_inputs := new_ports "input_" num_in in
  let json_outputs := new_ports "output_" num_out in
  let json :=
    {| n_id := newNodeId; n_name := name; n_data := data; n_class := classoverride;
       n_html := html; n_typenode := typenode;
       n_inputs := json_inputs; n_outputs := json_outputs;
       n_pos_x := ele_pos_x; n_pos_y := ele_pos_y |} in
  m <- gets module ;;
  update_store (set_node m (toString newNodeId) json) ;;
  dispatch "nodeCreated" (DId newNodeId) ;;
  (if uuid then ret tt else modify (fun e => set_nodeId (js_succ (nodeId e)) e)) ;;
  ret newNodeId.

(** [addNodeImport(dataNode, precanvas)]: one connection element for
    every entry of every input port, then the content of the node and
    the binding of its data.  As in [addNode], the other steps of the
    construction of the element are left out and do not throw for a
    node that [drawable] accepts. *)
Definition addNodeImport (dataNode : node) : M unit :=
  for_each (fun input_ =>
    for_each (fun c =>
      append_element (connection_element (toString (n_id dataNode))
                        (toString (c_node c)) (c_port c) (fst input_)))
      (connections (snd input_)))
    (n_inputs dataNode) ;;
  object_entries (n_data dataNode).



(** The scan at the end of [load]: [number] becomes [parseInt(id) + 1]
    at every key with [parseInt(id) >= number]. *)
Definition next_node_id (g : graph) : Z :=
  fold_left (fun number mod_ =>
    fold_left (fun number id =>
                 match parseInt id with
                 | Some n => if number <=? n then js_succ n else number
                 | None => number
                 end)
              (keys (m_data (snd mod_))) number)
    g 1.

(** [load()]: the nodes of the active module are drawn in key order,
    then the counter is computed.  The reroute points are drawn only
    with the option [reroute], which is off, and
    [updateConnectionNodes] writes path attributes only. *)
Definition load : M unit :=
  m <- gets module ;;
  g <- gets drawflow ;;
  md <- deref (get m g) ;;
  for_each (fun kv => addNodeImport (snd kv)) (m_data md) ;;
  g' <- gets drawflow ;;
  modify (set_nodeId (next_node_id g')).

Definition clear : M unit :=
  modify (set_precanvas []) ;;
  modify (set_drawflow [("Home", {| m_data := [] |})]).


(** [import(data, notifi)] *)
Definition import (data : graph) (notifi : bool) : M unit :=
  clear ;;
  modify (set_drawflow (clone_graph data)) ;;
  load ;;
  if notifi then dispatch "import" (DStr "import") else ret tt.

Definition addModule (name : string) : M unit :=
  modify (fun e => set_drawflow (set name {| m_data := [] |} (drawflow e)) e) ;;
  dispatch "moduleCreated" (DStr name).

Definition changeModule (name : string) : M unit :=
  dispatch "moduleChanged" (DStr name) ;;
  modify (set_module name) ;;
  modify (set_precanvas []) ;;
  g <- gets drawflow ;;
  import g false.


Definition clearModuleSelected : M unit :=
  modify (set_precanvas []) ;;
  modify (fun e => set_drawflow (set (module e) {| m_data := [] |} (drawflow e)) e).



(** *** Port removal *)


Fixpoint list_eqb {A} (eqb : A -> A -> bool) (l1 l2 : list A) : bool :=
  match l1, l2 with
  | [], [] => true
  | a :: r1, b :: r2 => eqb a b && list_eqb eqb r1 r2
  | _, _ => false
  end.

Definition jsid_eqb (a b : jsid) : bool :=
  match a, b with
  | IdNum x, IdNum y => x =? y
  | IdStr x, IdStr y => String.eqb x y
  | _, _ => false
  end.





Definition indexed {A} (l : list A) : list (nat * A) :=
  combine (seq 0 (List.length l)) l.



(* ------------------------------------------------------------------ *)
(** ** Connection paths *)

(** One cubic segment [M from C c1 c2 to]. *)
Record segment := {
  s_from : Q * Q;
  s_c1 : Q * Q;
  s_c2 : Q * Q;
  s_to : Q * Q
}.

(** [createCurvature(start_pos_x, start_pos_y, end_pos_x, end_pos_y,
    curvature_value, type)].  The source returns the text
    [' M ' line_x ' ' line_y ' C ' hx1 ' ' line_y ' ' hx2 ' ' y ' ' x '  ' y];
    the segment holds its numbers ([path_d] writes the text). *)
Definition createCurvature (start_pos_x start_pos_y end_pos_x end_pos_y : Q)
    (curvature_value : Q) (type : string) : segment :=
  let line_x := start_pos_x in
  let line_y := start_pos_y in
  let x := end_pos_x in
  let y := end_pos_y in
  let curvature := curvature_value in
  let seg (hx1 hx2 : Q) :=
    {| s_from := (line_x, line_y); s_c1 := (hx1, line_y);
       s_c2 := (hx2, y); s_to := (x, y) |} in
  let leftward := Qle_bool end_pos_x start_pos_x in
  if String.eqb type "open" then
    if leftward then
      seg (line_x + Qabs (x - line_x) * curvature)%Q
          (x - Qabs (x - line_x) * (curvature * -1))%Q
    else
      seg (line_x + Qabs (x - line_x) * curvature)%Q
          (x - Qabs (x - line_x) * curvature)%Q
  else if String.eqb type "close" then
    if leftward then
      seg (line_x + Qabs (x - line_x) * (curvature * -1))%Q
          (x - Qabs (x - line_x) * curvature)%Q
    else
      seg (line_x + Qabs (x - line_x) * curvature)%Q
          (x - Qabs (x - line_x) * curvature)%Q
  else if String.eqb type "other" then
    if leftward then
      seg (line_x + Qabs (x - line_x) * (curvature * -1))%Q
          (x - Qabs (x - line_x) * (curvature * -1))%Q
    else
      seg (line_x + Qabs (x - line_x) * curvature)%Q
          (x - Qabs (x - line_x) * curvature)%Q
  else
    seg (line_x + Qabs (x - line_x) * curvature)%Q
        (x - Qabs (x - line_x) * curvature)%Q.

(** The text of a segment, given the conversion of numbers to text. *)
Definition path_d (show : Q -> string) (s : segment) : string :=
  " M " +++ show (fst (s_from s)) +++ " " +++ show (snd (s_from s))
  +++ " C " +++ show (fst (s_c1 s)) +++ " " +++ show (snd (s_c1 s))
  +++ " " +++ show (fst (s_c2 s)) +++ " " +++ show (snd (s_c2 s))
  +++ " " +++ show (fst (s_to s)) +++ "  " +++ show (snd (s_to s)).

(** The segments that [updateConnectionNodes] computes for one
    connection leaving a node: [out] and [inp] are the centres of the
    output and input ports, [points] the centres of the reroute points,
    all in canvas coordinates. *)
Definition connection_path (out inp : Q * Q) (points : list (Q * Q))
    (curvature reroute_curvature_start_end reroute_curvature : Q) : list segment :=
  let cc (a b : Q * Q) (c : Q) (type : string) :=
    createCurvature (fst a) (snd a) (fst b) (snd b) c type in
  match points with
  | [] => [cc out inp curvature "openclose"]
  | _ =>
      let last := (List.length points - 1)%nat in
      flat_map (fun ip =>
        let i := fst ip in
        let item := snd ip in
        let next := nth (S i) points inp in
        if ((i =? 0) && (last =? 0))%nat then
          [cc out item reroute_curvature_start_end "open";
           cc item inp reroute_curvature_start_end "close"]
        else if (i =? 0)%nat then
          [cc out item reroute_curvature_start_end "open";
           cc item next reroute_curvature "other"]
        else if (i =? last)%nat then
          [cc item inp reroute_curvature_start_end "close"]
        else
          [cc item next reroute_curvature "other"])
        (indexed points)
  end.

(** The text of a number whose value is an integer. *)
Definition show_integral (q : Q) : string :=
  Z_to_string (Qnum q / Zpos (Qden q)).

(* ------------------------------------------------------------------ *)
(** ** Successive calls of [addNode] *)




(** The keys of all nodes of all modules. *)
Definition node_keys (g : graph) : list string :=
  flat_map (fun md => keys (m_data (snd md))) g.

(* ------------------------------------------------------------------ *)
(** ** Consistency of the store *)

(** The entry [c] refers to the port [cls] of the node with key [k]. *)
Definition points_to (k cls : string) (c : conn) : bool :=
  jsid_eqb (c_node c) (IdStr k) && String.eqb (c_port c) cls.

Definition count_to (k cls : string) (l : list conn) : nat :=
  List.length (filter (points_to k cls) l).

(** Every entry on side [sd] of the module refers, by a string, to an
    existing port of an existing node of the module; it is the only
    entry of its list with that reference, and the port it refers to
    has exactly one entry that refers back. *)
Definition half_symmetric (sd : side) (md : module_t) : bool :=
  forallb (fun kn =>
    forallb (fun cp =>
      forallb (fun c =>
        match c_node c with
        | IdStr t =>
            (count_to t (c_port c) (connections (snd cp)) =? 1)%nat
            && match get t (m_data md) with
               | Some n' =>
                   match get (c_port c) (ports (other sd) n') with
                   | Some p' => (count_to (fst kn) (fst cp) (connections p') =? 1)%nat
                   | None => false
                   end
               | None => false
               end
        | IdNum _ => false
        end)
        (connections (snd cp)))
      (ports sd (snd kn)))
    (m_data md).

Definition symmetric (g : graph) : bool :=
  forallb (fun md => half_symmetric Outputs (snd md) && half_symmetric Inputs (snd md)) g.

(** *** Naming and resolution of nodes and ports *)

Definition prefix_of (sd : side) : string :=
  match sd with Inputs => "input_" | Outputs => "output_" end.

(** The names [prefix_1] to [prefix_n]. *)
Definition port_names (sd : side) (n : nat) : list string :=
  map (fun i => prefix_of sd +++ nat_to_string (i + 1)) (seq 0 n).

(** A key that is either not numeric or the decimal text of its
    number, as the keys that [addNode] creates are. *)
Definition canonical (k : string) : bool :=
  match ToNumber k with
  | Some n => String.eqb (Z_to_string n) k
  | None => true
  end.

Definition no_points (l : list conn) : bool :=
  forallb (fun c => match c_points c with None => true | Some _ => false end) l.

(** The ports of each side are named contiguously, in order, and the
    entries of the input ports carry no reroute points (these are kept
    on the output side). *)
Definition names_ok (n : node) : bool :=
  list_eqb String.eqb (keys (n_inputs n)) (port_names Inputs (List.length (n_inputs n)))
  && list_eqb String.eqb (keys (n_outputs n)) (port_names Outputs (List.length (n_outputs n)))
  && forallb (fun cp => no_points (connections (snd cp))) (n_inputs n).

(** Every node key is canonical and resolves to the module that holds
    it, and every node has well-named ports. *)
Definition ids_ok (g : graph) : bool :=
  forallb (fun md =>
    forallb (fun kn =>
      canonical (fst kn)
      && option_string_eqb (module_of (IdStr (fst kn)) g) (Some (fst md))
      && names_ok (snd kn))
      (m_data (snd md)))
    g.

(** *** The canvas *)

(** The class list of the element of the entry [c] of the port [cls],
    on side [sd], of the node [k]. *)
Definition element_of (sd : side) (k cls : string) (c : conn) : list string :=
  match sd with
  | Outputs => ["connection"; "node_in_node-" +++ toString (c_node c);
                "node_out_node-" +++ k; cls; c_port c]
  | Inputs => ["connection"; "node_in_node-" +++ k;
               "node_out_node-" +++ toString (c_node c); c_port c; cls]
  end.

Definition class_list_eqb (a b : list string) : bool := list_eqb String.eqb a b.

(** Every entry on side [sd] of the module has its element among
    [dom]. *)
Definition covers (sd : side) (md : module_t) (dom : list (list string)) : bool :=
  forallb (fun kn =>
    forallb (fun cp =>
      forallb (fun c => existsb (class_list_eqb (element_of sd (fst kn) (fst cp) c)) dom)
              (connections (snd cp)))
      (ports sd (snd kn)))
    (m_data md).

(** The role of a class in the class list of a connection element:
    1 for [connection], 2 for [node_in_node-..], 3 for
    [node_out_node-..], 4 for [output_..], 5 for [input_..], 0 for any
    other class. *)
Definition class_kind (s : string) : nat :=
  if String.eqb s "connection" then 1
  else if prefix "node_in_node-" s then 2
  else if prefix "node_out_node-" s then 3
  else if prefix "output_" s then 4
  else if prefix "input_" s then 5
  else 0.

(** The kind of the port names of a side. *)
Definition kind_of (sd : side) : nat :=
  match sd with Outputs => 4%nat | Inputs => 5%nat end.

(** A class list [connection node_in_node-.. node_out_node-.. output_..
    input_..]. *)
Definition is_connection_element (cl : list string) : bool :=
  list_eqb Nat.eqb (map class_kind cl) [1; 2; 3; 4; 5]%nat.

(** The canvas shows the connections of the active module: every entry
    of the module, on either side, has its element, and every element
    is a connection element. *)
Definition canvas_ok (e : editor) : bool :=
  match get (module e) (drawflow e) with
  | Some md =>
      covers Outputs md (precanvas e) && covers Inputs md (precanvas e)
      && forallb is_connection_element (precanvas e)
  | None => true
  end.

(** *** Names that the canvas accepts

    The elements of the nodes are left out, but the code that builds
    and selects them can throw, or select something else, for some
    strings: [classList.add] rejects an empty token and a token with
    white space, [Object.entries(data)] rejects [null],
    [querySelectorAll] rejects the selector [[df-key]] when [df-key]
    is not an identifier, a [typenode] other than [false] reads
    [noderegister[html]], the selectors [#node-id] and
    [.node_in_node-id] are built from the node keys by concatenation,
    and the selectors of the connection and port elements also match
    an element of the content of a node, or a node, that carries their
    class names.  The predicates below describe arguments and stores
    for which none of this happens; the keys of the stores are then
    the keys that [addNode] creates ([standard_keys] below), which
    are plain names. *)

(** A letter, a digit, [_] or [-]. *)
Definition name_char (c : ascii) : bool :=
  let n := nat_of_ascii c in
  (((48 <=? n) && (n <=? 57)) || ((65 <=? n) && (n <=? 90))
   || ((97 <=? n) && (n <=? 122)) || (n =? 95) || (n =? 45))%nat.

Definition plain_name (s : string) : bool :=
  forallb name_char (list_ascii_of_string s).

(** Every key of [j], at any depth, is a plain name. *)
Fixpoint bindable (j : json) : bool :=
  match j with
  | JArray l => forallb bindable l
  | JObject o => forallb (fun kv => plain_name (fst kv) && bindable (snd kv)) o
  | _ => true
  end.

(** A [data] object whose entries can be bound to the [df-*]
    attributes of the content of a node. *)
Definition binds (data : json) : bool :=
  match data with JObject _ => bindable data | _ => false end.

(** A class override that is empty or one token, and not a class name
    of the connection elements. *)
Definition quiet_class (cls : string) : bool :=
  plain_name cls && (class_kind cls =? 0)%nat.

(** A content without attribute values, hence without classes. *)
Definition quiet_html (html : string) : bool :=
  forallb (fun c => negb (Ascii.eqb c "=")) (list_ascii_of_string html).

(** Arguments of [addNode] with which the element is built, and is not
    selected by the selectors of the connection and port elements. *)
Definition renders (classoverride : string) (data : json) (html : string)
    (typenode : json) : bool :=
  quiet_class classoverride
  && binds data
  && quiet_html html
  && match typenode with JBool false => true | _ => false end.

(** The decimal text of a natural number up to [max_safe], as the keys
    that [addNode] creates from the counter are. *)
Definition decimal_key (k : string) : bool :=
  starts_with_digit k && all_digits k
  && String.eqb (nat_to_string (digits_prefix k 0)) k
  && (Z.of_nat (digits_prefix k 0) <=? max_safe).

(** A key that [addNode] creates: a uuid or a decimal key. *)
Definition standard_key (k : string) : bool :=
  if uuid_shape k then true else decimal_key k.

(** Every node key of the store is one that [addNode] creates.  On
    these keys [==] and [parseInt] compute with integers up to
    [max_safe], which are numbers of the language. *)
Definition standard_keys (g : graph) : bool :=
  forallb (fun mk => forallb standard_key (snd mk)) (skeleton g).


(** Every node carries its key as [id] and can be rendered, as the
    nodes that [addNode] stores are. *)
Definition drawable (g : graph) : bool :=
  forallb (fun md =>
    forallb (fun kn =>
      String.eqb (toString (n_id (snd kn))) (fst kn)
      && renders (n_class (snd kn)) (n_data (snd kn)) (n_html (snd kn))
                 (n_typenode (snd kn)))
      (m_data (snd md)))
    g.

(** The property names that every object inherits from
    [Object.prototype]: a lookup of one of them in an object that does
    not have it as a key is not [undefined]. *)
Definition inherited (k : string) : bool :=
  existsb (String.eqb k)
    ["constructor"; "__proto__"; "hasOwnProperty"; "isPrototypeOf";
     "propertyIsEnumerable"; "toLocaleString"; "toString"; "valueOf";
     "__defineGetter__"; "__defineSetter__"; "__lookupGetter__";
     "__lookupSetter__"].

(** The state of an editor whose store is consistent and shown. *)
Definition consistent (e : editor) : bool :=
  graph_ok (drawflow e) && ids_ok (drawflow e) && symmetric (drawflow e)
  && canvas_ok e.

(** *** The same conditions, port by port *)

(** [symmetric], read through [conns_at]. *)
Definition symmetric_at (g : graph) : Prop :=
  forall sd m k cls l c,
    conns_at sd m k cls g = Some l -> In c l ->
    exists t,
      c_node c = IdStr t
      /\ count_to t (c_port c) l = 1%nat
      /\ exists l', conns_at (other sd) m t (c_port c) g = Some l'
                    /\ count_to k cls l' = 1%nat.

(** [ids_ok], read through [node_at]. *)
Definition ids_at (g : graph) : Prop :=
  forall m k n,
    node_at m k g = Some n ->
    canonical k = true
    /\ module_of (IdStr k) g = Some m
    /\ names_ok n = true.

(** An entry without points that refers to the port [q] of the node
    [t]. *)
Definition pointer (t q : string) : conn :=
  {| c_node := IdStr t; c_port := q; c_points := None |}.

Definition count_el (x : list string) (dom : list (list string)) : nat :=
  List.length (filter (class_list_eqb x) dom).

(** When [m] is the active module, the canvas has, for the entries of
    side [sd], at least as many elements as there are entries, and
    only connection elements. *)
Definition shown (sd : side) (m : string) (e : editor) : Prop :=
  module e = m ->
  (forall k cls l t q,
      conns_at sd m k cls (drawflow e) = Some l ->
      (count_to t q l <= count_el (element_of sd k cls (pointer t q)) (precanvas e))%nat)
  /\ forallb is_connection_element (precanvas e) = true.

(** The paths [(sd, m, k, cls)] and [(sd', m', k', cls')] are the
    same connection list. *)
Definition same_path (sd : side) (m k cls : string) (sd' : side) (m' k' cls' : string)
  : bool :=
  side_eqb sd' sd && String.eqb m' m && String.eqb k' k && String.eqb cls' cls.

Definition not_to (t q : string) (c : conn) : bool := negb (points_to t q c).

(** The store is well formed and consistent, and the canvas shows the
    entries of side [sd] of the module [m]. *)
Definition stable (sd : side) (m : string) (e : editor) : Prop :=
  graph_ok (drawflow e) = true
  /\ ids_at (drawflow e)
  /\ symmetric_at (drawflow e)
  /\ shown sd m e.

(** What an operation on the nodes of the module [m] keeps: the active
    module, the keys of the store, the canvas when [m] is not the
    active module, and the connection lists of the other modules. *)
Definition frame (m : string) (e e' : editor) : Prop :=
  module e' = module e
  /\ skeleton (drawflow e') = skeleton (drawflow e)
  /\ (module e <> m -> precanvas e' = precanvas e)
  /\ (forall sd m' k c, m' <> m ->
        conns_at sd m' k c (drawflow e') = conns_at sd m' k c (drawflow e)).


(** *** Counting the connections of a node *)

(** The connections of the node with key [k]: the entries of its
    output ports, and the entries of its input ports that come from
    another node (a connection from the node to itself is counted once,
    as an output). *)
Definition node_connections (k : string) (n : node) : nat :=
  list_sum (map (fun cp => List.length (connections (snd cp))) (n_outputs n))
  + list_sum (map (fun cp =>
                     List.length (filter (fun c => negb (jsid_eqb (c_node c) (IdStr k)))
                                         (connections (snd cp))))
                  (n_inputs n)).

(** The part of a connection list in [node_connections]. *)
Definition weight (sd : side) (k : string) (l : list conn) : nat :=
  match sd with
  | Outputs => List.length l
  | Inputs => List.length (filter (fun c => negb (jsid_eqb (c_node c) (IdStr k))) l)
  end.


(** *** The two port removals as one scheme *)









(* ------------------------------------------------------------------ *)
(** ** The methods as calls *)





(* ------------------------------------------------------------------ *)
(** ** Scenarios *)

Definition no_random : nat -> nat := fun _ => O.

Definition run {A} (c : M A) (e : editor) : editor := final (c e).

Definition plain_node (name : string) (num_in num_out : Z) : M jsid :=
  addNode name num_in num_out 0%Q 0%Q "" (JObject []) "" (JBool false).



(** Node 1 in "Home" and node 2 in "Other"; "Other" is active. *)
Definition two_modules : editor :=
  run (plain_node "a" 0 1 ;; addModule "Other" ;; changeModule "Other" ;;
       plain_node "b" 1 0)
      (initial no_random).

(** Nodes 1 and 2 connected in "Other", "Home" active again. *)
Definition connected_elsewhere : editor :=
  run (addModule "Other" ;; changeModule "Other" ;;
       plain_node "a" 0 1 ;; plain_node "b" 1 0 ;;
       addConnection (IdNum 1) (IdNum 2) "output_1" "input_1" ;;
       changeModule "Home")
      (initial no_random).



(** [removeNodeId("node-1")] while the module of node 1 is not the
    active one. *)
Definition removed_elsewhere : editor :=
  run (removeNodeId "node-1") connected_elsewhere.

(** Node 1 (one input, two outputs) and node 2 (three inputs, one
    output) in "Home", with the connections 1.output_1 -> 2.input_1,
    1.output_2 -> 2.input_2, 1.output_2 -> 2.input_3,
    2.output_1 -> 2.input_3 and 2.output_1 -> 1.input_1. *)
Definition wired : editor :=
  run (plain_node "a" 1 2 ;; plain_node "b" 3 1 ;;
       addConnection (IdNum 1) (IdNum 2) "output_1" "input_1" ;;
       addConnection (IdNum 1) (IdNum 2) "output_2" "input_2" ;;
       addConnection (IdNum 1) (IdNum 2) "output_2" "input_3" ;;
       addConnection (IdNum 2) (IdNum 2) "output_1" "input_3" ;;
       addConnection (IdNum 2) (IdNum 1) "output_1" "input_1")
      (initial no_random).






(* ------------------------------------------------------------------ *)
(** * Properties *)

Unset Implicit Arguments.

(** ** Numbers and their decimal text *)

Lemma digits_prefix_uint d acc :
  digits_prefix (NilEmpty.string_of_uint d) acc = Nat.of_uint_acc d acc.
Proof.
  revert acc. induction d; intro acc; simpl; try reflexivity;
    rewrite IHd; f_equal; rewrite Nat.tail_mul_spec; lia.
Qed.

Lemma all_digits_uint d : all_digits (NilEmpty.string_of_uint d) = true.
Proof. induction d; simpl; auto. Qed.

Lemma to_uint_nonnil n : Nat.to_uint n <> Decimal.Nil.
Proof.
  intro H. pose proof (DecimalNat.Unsigned.of_to n) as E. rewrite H in E.
  destruct n; [vm_compute in H; discriminate|discriminate].
Qed.

Lemma nat_to_string_unfold n :
  nat_to_string n = NilEmpty.string_of_uint (Nat.to_uint n).
Proof.
  unfold nat_to_string, NilZero.string_of_uint.
  destruct (Nat.to_uint n) eqn:E; try reflexivity.
  exfalso; eapply to_uint_nonnil; eauto.
Qed.

Lemma nat_to_string_all_digits n : all_digits (nat_to_string n) = true.
Proof. rewrite nat_to_string_unfold. apply all_digits_uint. Qed.

Lemma nat_to_string_starts n : starts_with_digit (nat_to_string n) = true.
Proof.
  rewrite nat_to_string_unfold.
  pose proof (to_uint_nonnil n) as H.
  destruct (Nat.to_uint n); simpl; congruence.
Qed.

Lemma nat_to_string_value n : digits_prefix (nat_to_string n) 0 = n.
Proof.
  rewrite nat_to_string_unfold, digits_prefix_uint.
  apply DecimalNat.Unsigned.of_to.
Qed.


Lemma starts_with_digit_not_space s :
  starts_with_digit s = true -> skip_spaces s = s.
Proof.
  destruct s as [|c r]; simpl; [discriminate|].
  unfold digit_of, is_space.
  destruct ((48 <=? nat_of_ascii c)%nat && (nat_of_ascii c <=? 57)%nat)%bool eqn:E;
    [|discriminate].
  intros _. apply andb_prop in E as [E1 E2].
  apply Nat.leb_le in E1, E2.
  destruct (nat_of_ascii c =? 32)%nat eqn:E3; [apply Nat.eqb_eq in E3; lia|].
  destruct (nat_of_ascii c <=? 13)%nat eqn:E4; [apply Nat.leb_le in E4; lia|].
  now rewrite andb_false_r.
Qed.

Lemma starts_with_digit_no_sign s :
  starts_with_digit s = true ->
  match s with
  | String "-" _ | String "+" _ => False
  | _ => True
  end.
Proof.
  destruct s as [|c r]; simpl; [discriminate|].
  destruct c as [[] [] [] [] [] [] [] []]; simpl; auto; discriminate.
Qed.

Lemma digit_not_space c d : digit_of c = Some d -> is_space c = false.
Proof.
  unfold digit_of, is_space.
  destruct ((48 <=? nat_of_ascii c)%nat && (nat_of_ascii c <=? 57)%nat)%bool eqn:E;
    [|discriminate].
  intros _. apply andb_prop in E as [E1 E2]. apply Nat.leb_le in E1, E2.
  destruct (nat_of_ascii c =? 32)%nat eqn:E3; [apply Nat.eqb_eq in E3; lia|].
  destruct (nat_of_ascii c <=? 13)%nat eqn:E4; [apply Nat.leb_le in E4; lia|].
  now rewrite andb_false_r.
Qed.

Lemma digit_not_letter c d x :
  digit_of c = Some d -> digit_of x = None -> Ascii.eqb c x = false.
Proof.
  intros H N. destruct (Ascii.eqb_spec c x) as [->|]; [congruence|reflexivity].
Qed.

Lemma all_digits_no_prefix s : all_digits s = true -> hex_prefixed s = None.
Proof.
  destruct s as [|c0 [|c1 r]]; [reflexivity| |].
  - destruct c0 as [[] [] [] [] [] [] [] []]; reflexivity.
  - simpl. destruct (digit_of c0) as [d0|]; [|discriminate].
    destruct (digit_of c1) as [d1|] eqn:D1; [|discriminate]. intros _.
    rewrite (digit_not_letter c1 d1 "x" D1 eq_refl),
            (digit_not_letter c1 d1 "X" D1 eq_refl).
    destruct c0 as [[] [] [] [] [] [] [] []]; reflexivity.
Qed.

Lemma all_digits_no_radix s : all_digits s = true -> radix_literal s = None.
Proof.
  destruct s as [|c0 [|c1 r]]; [reflexivity| |].
  - destruct c0 as [[] [] [] [] [] [] [] []]; reflexivity.
  - simpl. destruct (digit_of c0) as [d0|]; [|discriminate].
    destruct (digit_of c1) as [d1|] eqn:D1; [|discriminate]. intros _.
    rewrite (digit_not_letter c1 d1 "x" D1 eq_refl),
            (digit_not_letter c1 d1 "X" D1 eq_refl),
            (digit_not_letter c1 d1 "o" D1 eq_refl),
            (digit_not_letter c1 d1 "O" D1 eq_refl),
            (digit_not_letter c1 d1 "b" D1 eq_refl),
            (digit_not_letter c1 d1 "B" D1 eq_refl).
    destruct c0 as [[] [] [] [] [] [] [] []]; reflexivity.
Qed.

Lemma all_digits_trim_end s : all_digits s = true -> trim_end s = s.
Proof.
  induction s as [|c r IH]; [reflexivity|]. simpl.
  destruct (digit_of c) as [d|] eqn:D; [|discriminate]. intro A.
  rewrite (IH A). destruct r; [|reflexivity].
  now rewrite (digit_not_space c d D).
Qed.

Lemma all_digits_after s : all_digits s = true -> after_digits s = "".
Proof.
  induction s as [|c r IH]; [reflexivity|]. simpl.
  destruct (digit_of c); [exact IH|discriminate].
Qed.

Lemma starts_with_digit_length s :
  starts_with_digit s = true -> (digits_length s =? 0)%nat = false.
Proof.
  destruct s as [|c r]; simpl; [discriminate|].
  destruct (digit_of c); [reflexivity|discriminate].
Qed.

Lemma decimal_literal_digits s :
  starts_with_digit s = true -> all_digits s = true ->
  decimal_literal s = Some (Z.of_nat (digits_prefix s 0)).
Proof.
  intros H A. unfold decimal_literal.
  rewrite (all_digits_after _ A). cbv beta iota zeta.
  rewrite Nat.add_0_r, (starts_with_digit_length _ H). cbn [negb].
  change (0 - Z.of_nat 0) with 0. cbn [Z.leb Z.compare Z.pow]. f_equal. lia.
Qed.

Lemma parseInt_digits s :
  starts_with_digit s = true -> all_digits s = true ->
  parseInt s = Some (Z.of_nat (digits_prefix s 0)).
Proof.
  intros H A. unfold parseInt. rewrite (starts_with_digit_not_space _ H).
  pose proof (starts_with_digit_no_sign _ H) as N.
  pose proof (all_digits_no_prefix _ A) as P.
  destruct s as [|c r]; [discriminate|].
  destruct c as [[] [] [] [] [] [] [] []]; try contradiction; now rewrite P, H.
Qed.

Lemma ToNumber_digits s :
  starts_with_digit s = true -> all_digits s = true ->
  ToNumber s = Some (Z.of_nat (digits_prefix s 0)).
Proof.
  intros H A. unfold ToNumber.
  rewrite (starts_with_digit_not_space _ H), (all_digits_trim_end _ A).
  pose proof (starts_with_digit_no_sign _ H) as N.
  pose proof (all_digits_no_radix _ A) as R.
  pose proof (decimal_literal_digits _ H A) as D.
  destruct s as [|c r]; [discriminate|]. rewrite R.
  destruct c as [[] [] [] [] [] [] [] []]; try contradiction; exact D.
Qed.

Lemma parseInt_nat_to_string n : parseInt (nat_to_string n) = Some (Z.of_nat n).
Proof.
  rewrite parseInt_digits;
    auto using nat_to_string_starts, nat_to_string_all_digits.
  now rewrite nat_to_string_value.
Qed.

Lemma ToNumber_nat_to_string n : ToNumber (nat_to_string n) = Some (Z.of_nat n).
Proof.
  rewrite ToNumber_digits; auto using nat_to_string_starts, nat_to_string_all_digits.
  now rewrite nat_to_string_value.
Qed.

Lemma ToNumber_negative s :
  starts_with_digit s = true -> all_digits s = true ->
  ToNumber (String "-" s) = Some (- Z.of_nat (digits_prefix s 0)).
Proof.
  intros H A. unfold ToNumber.
  change (skip_spaces (String "-" s)) with (String "-" s).
  assert (T : trim_end (String "-" s) = String "-" s).
  { cbn [trim_end]. rewrite (all_digits_trim_end _ A).
    destruct s; [discriminate|reflexivity]. }
  rewrite T. change (radix_literal (String "-" s)) with (@None (option Z)).
  cbv iota. now rewrite (decimal_literal_digits _ H A).
Qed.

Lemma ToNumber_Z_to_string z : ToNumber (Z_to_string z) = Some z.
Proof.
  unfold Z_to_string. destruct (z <? 0) eqn:E.
  - apply Z.ltb_lt in E.
    rewrite ToNumber_negative, nat_to_string_value;
      auto using nat_to_string_starts, nat_to_string_all_digits.
    f_equal. lia.
  - apply Z.ltb_ge in E. rewrite ToNumber_nat_to_string. f_equal. lia.
Qed.

Lemma loose_eq_toString v : loose_eq (IdStr (toString v)) v = true.
Proof.
  destruct v as [z|s]; simpl.
  - rewrite ToNumber_Z_to_string. apply Z.eqb_refl.
  - apply String.eqb_refl.
Qed.

(** ** Objects *)

Section ObjFacts.
Context {V : Type}.
Implicit Types (o : obj V) (k : string) (v : V).

Lemma get_In k o v : get k o = Some v -> In (k, v) o.
Proof.
  induction o as [|[k' v'] o IH]; simpl; [discriminate|].
  destruct (String.eqb_spec k k') as [->|N].
  - intros [= ->]. now left.
  - intro H. right. auto.
Qed.

Lemma get_None_keys k o : get k o = None <-> ~ In k (keys o).
Proof.
  induction o as [|[k' v'] o IH]; simpl.
  - tauto.
  - destruct (String.eqb_spec k k') as [->|N].
    + split; [discriminate|]. intro H. exfalso. apply H. now left.
    + rewrite IH. split; intros H; [intros [E|I]; [congruence|tauto]|tauto].
Qed.

Lemma get_Some_keys k o v : get k o = Some v -> In k (keys o).
Proof. intro H. apply get_In in H. now apply (in_map fst) in H. Qed.

Lemma In_get k v o : NoDup (keys o) -> In (k, v) o -> get k o = Some v.
Proof.
  induction o as [|[k' v'] o IH]; simpl; [tauto|].
  intros ND [E|I].
  - injection E as -> ->. now rewrite String.eqb_refl.
  - inversion ND as [|? ? NI ND']; subst.
    destruct (String.eqb_spec k k') as [->|N]; [|auto].
    exfalso. apply NI. now apply (in_map fst) in I.
Qed.

Lemma has_false k o : has k o = false <-> ~ In k (keys o).
Proof.
  unfold has. rewrite <- get_None_keys.
  destruct (get k o); split; congruence.
Qed.

Lemma keys_replace k v o : keys (replace k v o) = keys o.
Proof.
  induction o as [|[k' v'] o IH]; simpl; [reflexivity|].
  destruct (String.eqb_spec k k') as [->|N]; simpl; [reflexivity|].
  now rewrite IH.
Qed.

Lemma get_replace k k' v o :
  get k (replace k' v o) =
  if String.eqb k k' then (if has k' o then Some v else None) else get k o.
Proof.
  unfold has.
  induction o as [|[k1 v1] o IH]; simpl.
  - now destruct (String.eqb k k').
  - destruct (String.eqb_spec k' k1) as [->|N1]; simpl.
    + destruct (String.eqb_spec k k1) as [->|N]; reflexivity.
    + rewrite IH.
      destruct (String.eqb_spec k k') as [->|N].
      * destruct (String.eqb_spec k' k1); [contradiction|reflexivity].
      * reflexivity.
Qed.


Lemma get_replace_other k k' v o :
  k <> k' -> get k (replace k' v o) = get k o.
Proof.
  intro N. rewrite get_replace.
  now destruct (String.eqb_spec k k').
Qed.

Lemma replace_absent k v o : get k o = None -> replace k v o = o.
Proof.
  induction o as [|[k' v'] o IH]; simpl; [reflexivity|].
  destruct (String.eqb_spec k k'); [discriminate|].
  intro H. now rewrite IH.
Qed.

Lemma replace_same_value k v o : get k o = Some v -> replace k v o = o.
Proof.
  induction o as [|[k' v'] o IH]; simpl; [reflexivity|].
  destruct (String.eqb_spec k k') as [->|N].
  - now intros [= ->].
  - intro H. now rewrite IH.
Qed.

Lemma get_app k o1 o2 :
  get k (o1 ++ o2) = match get k o1 with Some v => Some v | None => get k o2 end.
Proof.
  induction o1 as [|[k' v'] o1 IH]; simpl; [reflexivity|].
  now destruct (String.eqb k k').
Qed.

Lemma get_insert_index n k k' v o :
  get k' o = None ->
  get k (insert_index n k' v o) = if String.eqb k k' then Some v else get k o.
Proof.
  induction o as [|[k1 v1] o IH]; simpl; intro H.
  - now destruct (String.eqb k k').
  - destruct (String.eqb_spec k' k1) as [->|N1]; [discriminate|].
    destruct (array_index k1) as [m|]; [destruct (m <? n)%nat|]; simpl;
      try rewrite (IH H); destruct (String.eqb_spec k k') as [->|N]; try reflexivity.
    now destruct (String.eqb_spec k' k1).
Qed.

Lemma get_set k k' v o :
  get k (set k' v o) = if String.eqb k k' then Some v else get k o.
Proof.
  unfold set. destruct (has k' o) eqn:H.
  - rewrite get_replace, H. reflexivity.
  - apply has_false in H. apply get_None_keys in H.
    destruct (array_index k') as [n|].
    + now apply get_insert_index.
    + rewrite get_app. simpl.
      destruct (String.eqb_spec k k') as [->|N].
      * now rewrite H.
      * now destruct (get k o).
Qed.



Lemma insert_index_last n k v o :
  (forall k', In k' (keys o) -> exists m, array_index k' = Some m /\ (m < n)%nat) ->
  insert_index n k v o = o ++ [(k, v)].
Proof.
  induction o as [|[k1 v1] o IH]; simpl; intro H; [reflexivity|].
  destruct (H k1 (or_introl eq_refl)) as (m & -> & L).
  apply Nat.ltb_lt in L. rewrite L. f_equal. apply IH. intros; apply H; auto.
Qed.
End ObjFacts.

(** The keys of an ordered object before an index key are smaller
    indices. *)
Lemma ordered_from_nonindex lo pre k rest :
  ordered_from lo true (pre ++ k :: rest) = true -> array_index k = None.
Proof.
  revert lo. induction pre as [|k' pre IH]; simpl; intro lo.
  - destruct (array_index k); [discriminate|reflexivity].
  - destruct (array_index k'); [discriminate|]. apply IH.
Qed.

Lemma ordered_from_bound lo ni pre k rest m n :
  ordered_from lo ni (pre ++ k :: rest) = true ->
  lo = Some m -> array_index k = Some n -> (m < n)%nat.
Proof.
  revert lo ni m. induction pre as [|k' pre IH]; simpl; intros lo ni m H -> E.
  - rewrite E in H. apply andb_prop in H as [H _]. apply andb_prop in H as [_ H].
    now apply Nat.ltb_lt.
  - destruct (array_index k') as [m'|] eqn:E'.
    + apply andb_prop in H as [H H2]. apply andb_prop in H as [_ H].
      apply Nat.ltb_lt in H.
      specialize (IH _ _ _ H2 eq_refl E). lia.
    + eapply IH; eauto.
Qed.

Lemma ordered_from_before lo ni pre k rest n :
  ordered_from lo ni (pre ++ k :: rest) = true ->
  array_index k = Some n ->
  forall k', In k' pre -> exists m, array_index k' = Some m /\ (m < n)%nat.
Proof.
  revert lo ni. induction pre as [|k1 pre IH]; simpl; intros lo ni H E k' I;
    [contradiction|].
  destruct (array_index k1) as [m1|] eqn:E1.
  - apply andb_prop in H as [H H2].
    destruct I as [<-|I].
    + exists m1. split; [assumption|]. eapply ordered_from_bound; eauto.
    + eapply IH; eauto.
  - apply ordered_from_nonindex in H. congruence.
Qed.

Lemma set_fresh_last {V} (pre : obj V) k (v : V) rest :
  NoDup (map fst pre ++ k :: rest) ->
  ordered_from None false (map fst pre ++ k :: rest) = true ->
  set k v pre = pre ++ [(k, v)].
Proof.
  intros ND OR. unfold set.
  assert (NI : ~ In k (keys pre)).
  { apply NoDup_remove_2 in ND. intro I. apply ND. apply in_or_app. now left. }
  apply has_false in NI. rewrite NI.
  destruct (array_index k) as [n|] eqn:E; [|reflexivity].
  apply insert_index_last. intros k' I.
  eapply ordered_from_before; eauto.
Qed.

(** Rebuilding a well-formed object property by property gives the
    same properties in the same order. *)
Lemma rebuild_from {V W} (f : V -> W) (o pre : obj V) :
  NoDup (keys (pre ++ o)) ->
  ordered_from None false (keys (pre ++ o)) = true ->
  fold_left (fun acc kv => set (fst kv) (f (snd kv)) acc) o
            (map (fun kv => (fst kv, f (snd kv))) pre)
  = map (fun kv => (fst kv, f (snd kv))) (pre ++ o).
Proof.
  revert pre. induction o as [|[k v] o IH]; intros pre ND OR; simpl.
  - now rewrite app_nil_r.
  - unfold keys in ND, OR. rewrite map_app in ND, OR. simpl in ND, OR.
    rewrite (@set_fresh_last W _ k (f v) (map fst o)).
    + specialize (IH (pre ++ [(k, v)])).
      rewrite map_app in IH. simpl in IH. rewrite <- app_assoc in IH. simpl in IH.
      apply IH; unfold keys; rewrite map_app; simpl; assumption.
    + now rewrite map_map.
    + now rewrite map_map.
Qed.

Lemma distinct_NoDup ks : distinct ks = true -> NoDup ks.
Proof.
  induction ks as [|k r IH]; simpl; intro H; [constructor|].
  apply andb_prop in H as [H1 H2]. constructor; [|auto].
  intro I. apply negb_true_iff in H1.
  assert (existsb (String.eqb k) r = true); [|congruence].
  apply existsb_exists. exists k. split; [assumption|apply String.eqb_refl].
Qed.

Lemma NoDup_distinct ks : NoDup ks -> distinct ks = true.
Proof.
  induction 1 as [|k r NI ND IH]; simpl; [reflexivity|].
  rewrite IH, andb_true_r. apply negb_true_iff.
  destruct (existsb (String.eqb k) r) eqn:E; [|reflexivity].
  apply existsb_exists in E as (x & I & E). apply String.eqb_eq in E. subst.
  contradiction.
Qed.

Lemma well_formed_NoDup {V} (o : obj V) : well_formed o = true -> NoDup (keys o).
Proof. intro H. apply andb_prop in H as [H _]. now apply distinct_NoDup. Qed.

Lemma rebuild_map {V W} (f : V -> W) (o : obj V) :
  well_formed o = true ->
  rebuild f o = map (fun kv => (fst kv, f (snd kv))) o.
Proof.
  intro H. apply andb_prop in H as [ND OR]. apply distinct_NoDup in ND.
  exact (rebuild_from f o [] ND OR).
Qed.

Lemma get_map_values {V W} (f : V -> W) k (o : obj V) :
  get k (map (fun kv => (fst kv, f (snd kv))) o) = option_map f (get k o).
Proof.
  induction o as [|[k' v'] o IH]; simpl; [reflexivity|].
  now destruct (String.eqb k k').
Qed.

Lemma keys_map_values {V W} (f : V -> W) (o : obj V) :
  keys (map (fun kv => (fst kv, f (snd kv))) o) = keys o.
Proof. unfold keys. rewrite map_map. reflexivity. Qed.

(** ** Deep copies *)

Lemma map_values_id {V} (f : V -> V) (o : obj V) :
  (forall kv, In kv o -> f (snd kv) = snd kv) ->
  map (fun kv => (fst kv, f (snd kv))) o = o.
Proof.
  induction o as [|[k v] o IH]; simpl; intro H; [reflexivity|].
  f_equal; [f_equal; exact (H (k, v) (or_introl eq_refl))|].
  apply IH. intros; apply H; now right.
Qed.

Lemma clone_json_id : forall j, json_ok j = true -> clone_json j = j.
Proof.
  fix IH 1. intros [ | b | q | s | l | o ]; simpl; intro H; try reflexivity.
  - f_equal. induction l as [|x l IHl]; simpl in *; [reflexivity|].
    apply andb_prop in H as [H1 H2]. f_equal; [apply IH; exact H1|apply IHl; exact H2].
  - apply andb_prop in H as [W H]. f_equal.
    change (rebuild clone_json o = o). rewrite rebuild_map by assumption.
    clear W. induction o as [|[k v] o IHo]; simpl in *; [reflexivity|].
    apply andb_prop in H as [H1 H2]. f_equal; [f_equal; apply IH; exact H1|apply IHo; exact H2].
Qed.

Lemma clone_point_id p : clone_point p = p.
Proof. now destruct p. Qed.

Lemma clone_conn_id c : clone_conn c = c.
Proof.
  destruct c as [n p [l|]]; unfold clone_conn; simpl; [|reflexivity].
  f_equal. f_equal. induction l as [|x l IH]; simpl; [reflexivity|].
  now rewrite clone_point_id, IH.
Qed.

Lemma clone_port_id p : clone_port p = p.
Proof.
  destruct p as [l]. unfold clone_port. simpl. f_equal.
  induction l as [|x l IH]; simpl; [reflexivity|]. now rewrite clone_conn_id, IH.
Qed.

Lemma rebuild_id {V} (f : V -> V) (o : obj V) :
  well_formed o = true -> (forall kv, In kv o -> f (snd kv) = snd kv) ->
  rebuild f o = o.
Proof. intros W H. rewrite rebuild_map by assumption. now apply map_values_id. Qed.

Lemma clone_node_id n : node_ok n = true -> clone_node n = n.
Proof.
  unfold node_ok. intro H.
  apply andb_prop in H as [H H4]. apply andb_prop in H as [H H3].
  apply andb_prop in H as [H1 H2].
  destruct n; unfold clone_node; simpl in *.
  rewrite !clone_json_id by assumption.
  rewrite !rebuild_id; auto using clone_port_id.
Qed.

Lemma clone_module_id m : module_ok m = true -> clone_module m = m.
Proof.
  unfold module_ok. intro H. apply andb_prop in H as [W H].
  destruct m as [d]; unfold clone_module; simpl in *. f_equal.
  apply rebuild_id; [assumption|].
  intros kv I. apply clone_node_id. rewrite forallb_forall in H. now apply H.
Qed.

Lemma clone_graph_id g : graph_ok g = true -> clone_graph g = g.
Proof.
  unfold graph_ok. intro H. apply andb_prop in H as [W H].
  apply rebuild_id; [assumption|].
  intros kv I. apply clone_module_id. rewrite forallb_forall in H. now apply H.
Qed.

Lemma graph_ok_node m k n g :
  graph_ok g = true -> node_at m k g = Some n -> node_ok n = true.
Proof.
  unfold graph_ok, node_at. intros H E.
  apply andb_prop in H as [_ H]. rewrite forallb_forall in H.
  destruct (get m g) as [md|] eqn:Em; [|discriminate].
  specialize (H _ (get_In _ _ _ Em)). simpl in H.
  apply andb_prop in H as [_ H]. rewrite forallb_forall in H.
  exact (H _ (get_In _ _ _ E)).
Qed.

(** ** The method monad *)

Lemma bind_Ret {A B} (c : M A) (k : A -> M B) e a e' :
  c e = Ret a e' -> bind c k e = k a e'.
Proof. unfold bind. now intros ->. Qed.

Lemma bind_Throw {A B} (c : M A) (k : A -> M B) e x e' :
  c e = Throw x e' -> bind c k e = Throw x e'.
Proof. unfold bind. now intros ->. Qed.

(** A loop whose body keeps an invariant and returns, returns. *)
Lemma for_each_invariant {A} (P : editor -> Prop) (f : A -> M unit) l :
  (forall a e, In a l -> P e -> exists e', f a e = Ret tt e' /\ P e') ->
  forall e, P e -> exists e', for_each f l e = Ret tt e' /\ P e'.
Proof.
  induction l as [|a l IH]; simpl; intros H e Pe.
  - exists e. now split.
  - destruct (H a e (or_introl eq_refl) Pe) as (e1 & E1 & P1).
    rewrite (bind_Ret _ _ _ _ _ E1). apply IH; [|assumption].
    intros; apply H; auto.
Qed.

Ltac munfold :=
  repeat (progress (unfold bind, ret, gets, modify, deref, throw, update_store,
                      dispatch, is_current, getModuleFromNodeId, append_element in *;
                    cbv beta iota in *)).

Lemma object_entries_spec data e :
  data <> JNull -> object_entries data e = Ret tt e.
Proof. destruct data; try reflexivity. congruence. Qed.

Lemma addNodeImport_elements n e :
  exists dom,
    for_each (fun input_ =>
      for_each (fun c => append_element
        (connection_element (toString (n_id n)) (toString (c_node c))
           (c_port c) (fst input_))) (connections (snd input_))) (n_inputs n) e
    = Ret tt (set_precanvas dom e).
Proof.
  assert (G : forall (l : list (string * port)) e0,
             (exists dom, e0 = set_precanvas dom e) ->
             exists e', for_each (fun input_ =>
               for_each (fun c => append_element
                 (connection_element (toString (n_id n)) (toString (c_node c))
                    (c_port c) (fst input_))) (connections (snd input_))) l e0
               = Ret tt e' /\ exists dom, e' = set_precanvas dom e).
  { intros l e0 H0.
    apply (for_each_invariant (fun e' => exists dom, e' = set_precanvas dom e));
      [|assumption].
    intros a e1 _ H1.
    apply (for_each_invariant (fun e' => exists dom, e' = set_precanvas dom e));
      [|assumption].
    intros c e2 _ (dom & ->). munfold. eexists. split; [reflexivity|].
    eexists. reflexivity. }
  destruct (G (n_inputs n) e) as (e' & E & dom & ->).
  - exists (precanvas e). now destruct e.
  - now exists dom.
Qed.

Lemma addNodeImport_spec n e :
  n_data n <> JNull ->
  exists dom, addNodeImport n e = Ret tt (set_precanvas dom e).
Proof.
  intro D. unfold addNodeImport.
  destruct (addNodeImport_elements n e) as (dom & E).
  exists dom. rewrite (bind_Ret _ _ _ _ _ E). now apply object_entries_spec.
Qed.

(** A node whose data is [null] stops [addNodeImport], after the
    elements of its connections. *)
Lemma addNodeImport_null n e :
  n_data n = JNull ->
  exists dom, addNodeImport n e = Throw TypeError (set_precanvas dom e).
Proof.
  intro D. unfold addNodeImport.
  destruct (addNodeImport_elements n e) as (dom & E).
  exists dom. rewrite (bind_Ret _ _ _ _ _ E), D. reflexivity.
Qed.

Lemma load_spec e md :
  get (module e) (drawflow e) = Some md ->
  (forall kn, In kn (m_data md) -> n_data (snd kn) <> JNull) ->
  exists dom, load e = Ret tt (set_nodeId (next_node_id (drawflow e)) (set_precanvas dom e)).
Proof.
  intros H NN. unfold load. munfold.
  destruct (for_each_invariant (fun e' => exists dom, e' = set_precanvas dom e)
              (fun kv : string * node => addNodeImport (snd kv)) (m_data md)) with (e := e)
    as (e' & E & dom & ->).
  - intros a e1 Ia (dom & ->).
    destruct (addNodeImport_spec (snd a) (set_precanvas dom e) (NN _ Ia)) as (dom' & ->).
    eexists. split; [reflexivity|]. exists dom'. reflexivity.
  - exists (precanvas e). now destruct e.
  - cbn. rewrite H. cbn. rewrite E. exists dom. reflexivity.
Qed.

(** Whatever it draws, [load] changes the canvas and the counter
    only. *)
Lemma load_final e :
  exists dom n, final (load e) = set_nodeId n (set_precanvas dom e).
Proof.
  unfold load. munfold. cbn.
  destruct (get (module e) (drawflow e)) as [md|];
    [|exists (precanvas e), (nodeId e); now destruct e].
  cbn.
  assert (G : forall (l : list (string * node)) dom0,
            exists dom x,
              (for_each (fun kv : string * node => addNodeImport (snd kv)) l
                 (set_precanvas dom0 e) = Ret tt (set_precanvas dom e)
               \/ for_each (fun kv : string * node => addNodeImport (snd kv)) l
                    (set_precanvas dom0 e) = Throw x (set_precanvas dom e))).
  { induction l as [|a l IH]; intro dom0.
    - exists dom0, TypeError. now left.
    - cbn [for_each]. destruct (n_data (snd a)) eqn:D.
      1: { destruct (addNodeImport_null (snd a) (set_precanvas dom0 e) D) as (dom1 & E).
           exists dom1, TypeError. right. now rewrite (bind_Throw _ _ _ _ _ E). }
      all: destruct (addNodeImport_spec (snd a) (set_precanvas dom0 e)) as (dom1 & E);
        [congruence|];
        change (set_precanvas dom1 (set_precanvas dom0 e)) with (set_precanvas dom1 e) in E;
        rewrite (bind_Ret _ _ _ _ _ E); apply IH. }
  destruct (G (m_data md) (precanvas e)) as (dom & x & [E|E]);
    replace (set_precanvas (precanvas e) e) with e in E by now destruct e.
  - rewrite E. cbn. eexists dom, _. reflexivity.
  - rewrite E. cbn. exists dom, (nodeId e). now destruct e.
Qed.

Lemma load_missing e :
  get (module e) (drawflow e) = None -> load e = Throw TypeError e.
Proof. intro H. unfold load. munfold. now rewrite H. Qed.

(** ** Export and import *)


Lemma import_spec data notifi e md :
  get (module e) (clone_graph data) = Some md ->
  (forall kn, In kn (m_data md) -> n_data (snd kn) <> JNull) ->
  exists e', import data notifi e = Ret tt e'
             /\ drawflow e' = clone_graph data
             /\ module e' = module e
             /\ nodeId e' = next_node_id (clone_graph data)
             /\ dispatched e' = dispatched e
                  ++ (if notifi
                      then [{| ev_name := "import"; ev_detail := DStr "import" |}]
                      else []).
Proof.
  intros H NN.
  set (e1 := set_drawflow (clone_graph data)
               (set_drawflow [("Home", {| m_data := [] |})] (set_precanvas [] e))).
  destruct (load_spec e1 md H NN) as (dom & L).
  exists (if notifi
          then final (dispatch "import" (DStr "import")
                        (set_nodeId (next_node_id (drawflow e1)) (set_precanvas dom e1)))
          else set_nodeId (next_node_id (drawflow e1)) (set_precanvas dom e1)).
  split; [|destruct notifi; repeat split; simpl; now rewrite ?app_nil_r].
  change (import data notifi e)
    with ((load ;; if notifi then dispatch "import" (DStr "import") else ret tt) e1).
  unfold bind at 1. rewrite L. now destruct notifi.
Qed.


(** The active module after [import], whether [load] returns or
    throws. *)
Lemma import_module data notifi e :
  module (final (import data notifi e)) = module e.
Proof.
  set (e1 := set_drawflow (clone_graph data)
               (set_drawflow [("Home", {| m_data := [] |})] (set_precanvas [] e))).
  change (import data notifi e)
    with ((load ;; if notifi then dispatch "import" (DStr "import") else ret tt) e1).
  destruct (load_final e1) as (dom & n & F).
  unfold bind at 1. destruct (load e1) as [[] e2|x e2]; simpl in F; subst e2.
  - now destruct notifi.
  - reflexivity.
Qed.

(** ** Updates of the store *)

Lemma module_of_skeleton id g g' :
  skeleton g = skeleton g' -> module_of id g = module_of id g'.
Proof.
  unfold module_of. generalize (@None string) as acc. revert g'.
  induction g as [|[m md] g IH]; intros [|[m' md'] g'] acc H; try discriminate;
    [reflexivity|].
  simpl in H. injection H as Hm Hk Hr. subst m'. simpl. rewrite Hk. now apply IH.
Qed.

Lemma skeleton_replace m md md' g :
  get m g = Some md -> keys (m_data md') = keys (m_data md) ->
  skeleton (replace m md' g) = skeleton g.
Proof.
  intros G K. induction g as [|[m1 md1] g IH]; simpl in *; [reflexivity|].
  destruct (String.eqb_spec m m1) as [->|N]; simpl.
  - injection G as ->. now rewrite K.
  - now rewrite IH.
Qed.

Lemma with_ports_ports sd sd' ps n :
  ports sd' (with_ports sd ps n) = if side_eqb sd' sd then ps else ports sd' n.
Proof. now destruct sd, sd'. Qed.

Lemma change_node_Some m k f g n :
  node_at m k g = Some n -> exists g', change_node m k f g = Some g'.
Proof.
  unfold node_at, change_node. destruct (get m g); [|discriminate].
  intros ->. eauto.
Qed.

Lemma change_node_skeleton m k f g g' :
  change_node m k f g = Some g' -> skeleton g' = skeleton g.
Proof.
  unfold change_node. destruct (get m g) as [md|] eqn:G; [|discriminate].
  destruct (get k (m_data md)) as [n|]; [|discriminate]. intros [= <-].
  apply (skeleton_replace _ _ _ _ G). simpl. apply keys_replace.
Qed.

Lemma node_at_change_node m k f g g' m' k' :
  change_node m k f g = Some g' ->
  node_at m' k' g' =
  if String.eqb m' m && String.eqb k' k then option_map f (node_at m k g)
  else node_at m' k' g.
Proof.
  unfold change_node, node_at. destruct (get m g) as [md|] eqn:G; [|discriminate].
  destruct (get k (m_data md)) as [n|] eqn:N; [|discriminate]. intros [= <-].
  rewrite get_replace. unfold has. rewrite G.
  destruct (String.eqb_spec m' m) as [->|Nm]; simpl; [|reflexivity].
  rewrite G, get_replace. unfold has. rewrite N.
  now destruct (String.eqb_spec k' k) as [->|Nk].
Qed.

Lemma conns_at_node sd m k cls g n :
  node_at m k g = Some n ->
  conns_at sd m k cls g = option_map connections (get cls (ports sd n)).
Proof. unfold conns_at. now intros ->. Qed.

Lemma conns_at_inv sd m k cls g l :
  conns_at sd m k cls g = Some l ->
  exists n p, node_at m k g = Some n /\ get cls (ports sd n) = Some p
              /\ connections p = l.
Proof.
  unfold conns_at. destruct (node_at m k g) as [n|]; [|discriminate].
  destruct (get cls (ports sd n)) as [p|] eqn:E; [|discriminate].
  intros [= <-]. eauto.
Qed.

Lemma change_conns_Some sd m k cls f g l :
  conns_at sd m k cls g = Some l -> exists g', change_conns sd m k cls f g = Some g'.
Proof.
  intro H. destruct (conns_at_inv _ _ _ _ _ _ H) as (n & p & N & P & _).
  unfold change_conns. rewrite N, P. eapply change_node_Some; eauto.
Qed.

Lemma change_conns_skeleton sd m k cls f g g' :
  change_conns sd m k cls f g = Some g' -> skeleton g' = skeleton g.
Proof.
  unfold change_conns. destruct (node_at m k g) as [n|]; [|discriminate].
  destruct (get cls (ports sd n)); [|discriminate]. apply change_node_skeleton.
Qed.

Lemma change_conns_inv sd m k cls f g g' :
  change_conns sd m k cls f g = Some g' ->
  exists l, conns_at sd m k cls g = Some l.
Proof.
  unfold change_conns, conns_at. destruct (node_at m k g) as [n|]; [|discriminate].
  destruct (get cls (ports sd n)) as [p|]; [|discriminate]. intros _. simpl. eauto.
Qed.

Lemma conns_at_change_conns sd m k cls f g g' sd' m' k' cls' :
  change_conns sd m k cls f g = Some g' ->
  conns_at sd' m' k' cls' g' =
  if side_eqb sd' sd && String.eqb m' m && String.eqb k' k && String.eqb cls' cls
  then option_map f (conns_at sd m k cls g)
  else conns_at sd' m' k' cls' g.
Proof.
  unfold change_conns. destruct (node_at m k g) as [n|] eqn:N; [|discriminate].
  destruct (get cls (ports sd n)) as [p|] eqn:P; [|discriminate]. intro H.
  unfold conns_at at 1. rewrite (node_at_change_node _ _ _ _ _ m' k' H), N.
  destruct (String.eqb_spec m' m) as [->|Nm]; simpl;
    [|rewrite !andb_false_r; reflexivity].
  destruct (String.eqb_spec k' k) as [->|Nk]; simpl;
    [|rewrite !andb_false_r; reflexivity].
  rewrite andb_true_r, with_ports_ports.
  destruct (side_eqb sd' sd) eqn:S; simpl.
  - assert (sd' = sd) as -> by (destruct sd, sd'; simpl in S; congruence).
    rewrite get_replace. unfold has. rewrite P.
    destruct (String.eqb_spec cls' cls) as [->|Nc].
    + rewrite (conns_at_node _ _ _ _ _ _ N), P. reflexivity.
    + now rewrite (conns_at_node _ _ _ _ _ _ N).
  - now rewrite (conns_at_node _ _ _ _ _ _ N).
Qed.

Lemma conns_at_change_conns_same sd m k cls f g g' l :
  change_conns sd m k cls f g = Some g' -> conns_at sd m k cls g = Some l ->
  conns_at sd m k cls g' = Some (f l).
Proof.
  intros H L. rewrite (conns_at_change_conns _ _ _ _ _ _ _ sd m k cls H), L.
  assert (side_eqb sd sd = true) as -> by now destruct sd.
  now rewrite !String.eqb_refl.
Qed.

Lemma conns_at_change_conns_other_side sd m k cls f g g' sd' m' k' cls' :
  change_conns sd m k cls f g = Some g' -> sd' <> sd ->
  conns_at sd' m' k' cls' g' = conns_at sd' m' k' cls' g.
Proof.
  intros H N. rewrite (conns_at_change_conns _ _ _ _ _ _ _ sd' m' k' cls' H).
  assert (side_eqb sd' sd = false) as -> by (destruct sd, sd'; simpl; congruence).
  reflexivity.
Qed.

Lemma getNodeFromId_spec id e n :
  graph_ok (drawflow e) = true ->
  node_at (key_of (module_of id (drawflow e))) (toString id) (drawflow e) = Some n ->
  getNodeFromId id e = Ret n e.
Proof.
  intros OK N. unfold getNodeFromId. munfold.
  pose proof (graph_ok_node _ _ _ _ OK N) as NO.
  unfold node_at in N.
  destruct (get (key_of (module_of id (drawflow e))) (drawflow e)) as [md|];
    [|discriminate].
  rewrite N. now rewrite clone_node_id.
Qed.

Lemma option_string_eqb_eq a b : option_string_eqb a b = true <-> a = b.
Proof.
  destruct a as [x|], b as [y|]; simpl; try (split; congruence).
  rewrite String.eqb_eq. split; congruence.
Qed.

(** ** Well-formedness is kept by updates of connection lists *)

Lemma forallb_replace {V} (P : V -> bool) k v (o : obj V) :
  P v = true -> forallb (fun kv => P (snd kv)) o = true ->
  forallb (fun kv => P (snd kv)) (replace k v o) = true.
Proof.
  intros Pv. induction o as [|[k' v'] o IH]; simpl; [reflexivity|].
  intro H. apply andb_prop in H as [H1 H2].
  destruct (String.eqb k k'); simpl; [now rewrite Pv|now rewrite H1, IH].
Qed.

Lemma well_formed_replace {V} k v (o : obj V) :
  well_formed (replace k v o) = well_formed o.
Proof. unfold well_formed. now rewrite keys_replace. Qed.

Lemma graph_ok_change_node m k f g g' :
  (forall n, node_at m k g = Some n -> node_ok n = true -> node_ok (f n) = true) ->
  change_node m k f g = Some g' -> graph_ok g = true -> graph_ok g' = true.
Proof.
  unfold change_node, node_at. intros F.
  destruct (get m g) as [md|] eqn:G; [|discriminate].
  destruct (get k (m_data md)) as [n|] eqn:N; [|discriminate].
  intros [= <-] OK. unfold graph_ok in *. apply andb_prop in OK as [W A].
  rewrite well_formed_replace, W. simpl.
  assert (MO : module_ok md = true).
  { rewrite forallb_forall in A. exact (A _ (get_In _ _ _ G)). }
  apply forallb_replace; [|assumption].
  unfold module_ok in *. simpl. apply andb_prop in MO as [W' A'].
  rewrite well_formed_replace, W'. simpl.
  apply forallb_replace; [|assumption].
  apply F; [reflexivity|]. rewrite forallb_forall in A'. exact (A' _ (get_In _ _ _ N)).
Qed.

Lemma node_ok_with_ports sd ps n :
  well_formed ps = true -> node_ok n = true -> node_ok (with_ports sd ps n) = true.
Proof.
  unfold node_ok. intros W H.
  apply andb_prop in H as [H H4]. apply andb_prop in H as [H H3].
  apply andb_prop in H as [H1 H2].
  destruct sd; simpl; now rewrite ?W, ?H1, ?H2, ?H3, ?H4.
Qed.

Lemma node_ok_ports sd n : node_ok n = true -> well_formed (ports sd n) = true.
Proof.
  unfold node_ok. intro H.
  apply andb_prop in H as [H _]. apply andb_prop in H as [H _].
  apply andb_prop in H as [H1 H2]. now destruct sd.
Qed.

Lemma graph_ok_change_conns sd m k cls f g g' :
  change_conns sd m k cls f g = Some g' -> graph_ok g = true -> graph_ok g' = true.
Proof.
  unfold change_conns. destruct (node_at m k g) as [n|] eqn:N; [|discriminate].
  destruct (get cls (ports sd n)) as [p|]; [|discriminate].
  intros H OK. revert H OK.
  apply graph_ok_change_node. intros n' E NO.
  assert (n' = n) by congruence. subst n'.
  apply node_ok_with_ports; [|assumption].
  rewrite well_formed_replace. now apply node_ok_ports.
Qed.

(** ** [addConnection] *)

Lemma update_store_Some f e g' :
  f (drawflow e) = Some g' -> update_store f e = Ret tt (set_drawflow g' e).
Proof. intro H. munfold. now rewrite H. Qed.

Lemma update_store_None f e :
  f (drawflow e) = None -> update_store f e = Throw TypeError e.
Proof. intro H. munfold. now rewrite H. Qed.

(** A call on two nodes of different modules does nothing. *)
Lemma addConnection_other_module e a b oc ic :
  module_of a (drawflow e) <> module_of b (drawflow e) ->
  addConnection a b oc ic e = Ret tt e.
Proof.
  intro N. unfold addConnection. munfold.
  destruct (option_string_eqb _ _) eqn:E; [|reflexivity].
  apply option_string_eqb_eq in E. contradiction.
Qed.


(** A call for a new entry between two ports of one module appends the
    entry to both ports. *)
Lemma addConnection_appends e a b oc ic l_out l_in :
  graph_ok (drawflow e) = true ->
  module_of a (drawflow e) = module_of b (drawflow e) ->
  conns_at Outputs (key_of (module_of a (drawflow e))) (toString a) oc (drawflow e)
    = Some l_out ->
  conns_at Inputs (key_of (module_of a (drawflow e))) (toString b) ic (drawflow e)
    = Some l_in ->
  existsb (fun c => loose_eq (c_node c) b && String.eqb (c_port c) ic) l_out = false ->
  exists e',
    addConnection a b oc ic e = Ret tt e'
    /\ graph_ok (drawflow e') = true
    /\ skeleton (drawflow e') = skeleton (drawflow e)
    /\ conns_at Outputs (key_of (module_of a (drawflow e))) (toString a) oc (drawflow e')
       = Some (l_out ++ [{| c_node := IdStr (toString b); c_port := ic;
                            c_points := None |}])
    /\ conns_at Inputs (key_of (module_of a (drawflow e))) (toString b) ic (drawflow e')
       = Some (l_in ++ [{| c_node := IdStr (toString a); c_port := oc;
                           c_points := None |}])
    /\ dispatched e' = dispatched e
         ++ [{| ev_name := "connectionCreated"; ev_detail := DConn a b oc ic |}].
Proof.
  intros OK SM Lo Li X. unfold addConnection.
  destruct (conns_at_inv _ _ _ _ _ _ Lo) as (n & p & N & P & <-).
  change (getModuleFromNodeId a) with (gets (fun e => module_of a (drawflow e))).
  change (getModuleFromNodeId b) with (gets (fun e => module_of b (drawflow e))).
  unfold bind at 1, gets at 1. unfold bind at 1, gets at 1.
  rewrite <- SM.
  assert (option_string_eqb (module_of a (drawflow e)) (module_of a (drawflow e)) = true)
    as -> by now apply option_string_eqb_eq.
  unfold bind at 1. rewrite (getNodeFromId_spec _ _ _ OK N).
  unfold bind at 1, deref. simpl in P. rewrite P. unfold ret at 1.
  rewrite X. cbv beta iota. simpl negb. cbv iota.
  set (m := key_of (module_of a (drawflow e))) in *.
  set (new_out := {| c_node := IdStr (toString b); c_port := ic; c_points := None |}).
  set (new_in := {| c_node := IdStr (toString a); c_port := oc; c_points := None |}).
  destruct (change_conns_Some Outputs m (toString a) oc (fun l => l ++ [new_out]) _ _ Lo)
    as (g1 & G1).
  assert (Li1 : conns_at Inputs m (toString b) ic g1 = Some l_in).
  { rewrite (conns_at_change_conns_other_side _ _ _ _ _ _ _ _ _ _ _ G1); [assumption|].
    discriminate. }
  destruct (change_conns_Some Inputs m (toString b) ic (fun l => l ++ [new_in]) _ _ Li1)
    as (g2 & G2).
  change (negb false) with true. cbv iota.
  unfold bind at 1. rewrite (update_store_Some _ _ _ G1). cbv beta iota.
  unfold bind at 1. rewrite (update_store_Some _ (set_drawflow g1 e) _ G2).
  cbv beta iota.
  assert (R : True -> conns_at Outputs m (toString a) oc g2
                        = Some (connections p ++ [new_out])
                        /\ conns_at Inputs m (toString b) ic g2 = Some (l_in ++ [new_in])
                        /\ graph_ok g2 = true /\ skeleton g2 = skeleton (drawflow e)).
  { intros _. repeat split.
    - rewrite (conns_at_change_conns_other_side _ _ _ _ _ _ _ _ _ _ _ G2)
        by discriminate.
      apply (conns_at_change_conns_same _ _ _ _ _ _ _ _ G1 Lo).
    - apply (conns_at_change_conns_same _ _ _ _ _ _ _ _ G2 Li1).
    - eapply graph_ok_change_conns; [exact G2|].
      eapply graph_ok_change_conns; [exact G1|]. exact OK.
    - rewrite (change_conns_skeleton _ _ _ _ _ _ _ G2).
      apply (change_conns_skeleton _ _ _ _ _ _ _ G1). }
  destruct (R I) as (R1 & R2 & R3 & R4).
  destruct (option_string_eqb (Some (module e)) (module_of a (drawflow e))) eqn:C;
    (eexists; split;
     [munfold; change (module (set_drawflow g2 (set_drawflow g1 e))) with (module e);
      rewrite C; reflexivity
     |simpl; repeat split; assumption]).
Qed.

Lemma count_to_none b ic l :
  existsb (fun c => loose_eq (c_node c) b && String.eqb (c_port c) ic) l = false ->
  count_to (toString b) ic l = O.
Proof.
  unfold count_to. induction l as [|c l IH]; simpl; [reflexivity|].
  intro H. apply orb_false_elim in H as [H1 H2].
  destruct (points_to (toString b) ic c) eqn:E; [|auto].
  unfold points_to in E. apply andb_prop in E as [E1 E2].
  destruct (c_node c) as [z|s]; simpl in E1; [discriminate|].
  apply String.eqb_eq in E1. subst s.
  rewrite loose_eq_toString, E2 in H1. discriminate.
Qed.

Lemma count_to_app k cls l1 l2 :
  count_to k cls (l1 ++ l2) = (count_to k cls l1 + count_to k cls l2)%nat.
Proof. unfold count_to. now rewrite filter_app, length_app. Qed.

Lemma count_to_new k cls pts :
  count_to k cls [{| c_node := IdStr k; c_port := cls; c_points := pts |}] = 1%nat.
Proof. unfold count_to, points_to. simpl. now rewrite !String.eqb_refl. Qed.

(** ** [addNode] and the sequential counter *)





(** Up to [max_safe] the increment of the language is the increment. *)
Lemma js_succ_safe n : - max_safe - 2 <= n <= max_safe -> js_succ n = n + 1.
Proof.
  unfold js_succ, to_double, max_safe. intro H.
  destruct (Z.leb_spec (Z.abs (n + 1)) 9007199254740991) as [L|L]; [reflexivity|].
  assert (E : n + 1 = 9007199254740992 \/ n + 1 = - 9007199254740992) by lia.
  destruct E as [-> | ->]; reflexivity.
Qed.

(** At 2^53 it is not: the counter stays. *)
Lemma js_succ_stalls : js_succ (max_safe + 1) = max_safe + 1.
Proof. reflexivity. Qed.




Lemma fold_left_flat_map {A B C} (f : C -> B -> C) (k : A -> list B) l acc :
  fold_left (fun c a => fold_left f (k a) c) l acc = fold_left f (flat_map k l) acc.
Proof.
  revert acc. induction l as [|a l IH]; intro acc; simpl; [reflexivity|].
  now rewrite fold_left_app, IH.
Qed.

Lemma next_node_id_keys g :
  next_node_id g =
  fold_left (fun number id =>
               match parseInt id with
               | Some n => if number <=? n then js_succ n else number
               | None => number
               end) (node_keys g) 1.
Proof.
  unfold next_node_id, node_keys.
  exact (fold_left_flat_map _ (fun md : string * module_t => keys (m_data (snd md))) g 1).
Qed.

Lemma next_node_id_max g ns :
  node_keys g = map nat_to_string ns ->
  Z.of_nat (list_max ns) <= max_safe ->
  next_node_id g = Z.of_nat (list_max ns) + 1.
Proof.
  intros K B. rewrite next_node_id_keys, K. clear K.
  assert (G : forall acc, 1 <= acc ->
    Z.of_nat (list_max ns) <= max_safe ->
    fold_left (fun number id =>
                 match parseInt id with
                 | Some n => if number <=? n then js_succ n else number
                 | None => number
                 end) (map nat_to_string ns) acc
    = Z.max acc (Z.of_nat (list_max ns) + 1)).
  { clear B. induction ns as [|n ns IH]; intros acc L B.
    - simpl. lia.
    - change (list_max (n :: ns)) with (Nat.max n (list_max ns)) in *.
      cbn [map fold_left]. rewrite parseInt_nat_to_string.
      rewrite js_succ_safe by (unfold max_safe in *; lia).
      destruct (acc <=? Z.of_nat n) eqn:E.
      + apply Z.leb_le in E. rewrite IH by lia. lia.
      + apply Z.leb_gt in E. rewrite IH by lia. lia. }
  rewrite G by (assumption || lia). lia.
Qed.


(** ** Modules *)

Lemma changeModule_spec name e md :
  graph_ok (drawflow e) = true -> get name (drawflow e) = Some md ->
  (forall kn, In kn (m_data md) -> n_data (snd kn) <> JNull) ->
  exists e',
    changeModule name e = Ret tt e'
    /\ drawflow e' = drawflow e
    /\ module e' = name
    /\ dispatched e' = dispatched e
         ++ [{| ev_name := "moduleChanged"; ev_detail := DStr name |}].
Proof.
  intros OK G NN.
  set (e1 := set_precanvas [] (set_module name
               (final (dispatch "moduleChanged" (DStr name) e)))).
  destruct (import_spec (drawflow e) false e1 md) as (e' & I & D & Mo & _ & Ev).
  - now rewrite clone_graph_id.
  - exact NN.
  - exists e'. rewrite (clone_graph_id _ OK) in D. simpl in Ev.
    rewrite app_nil_r in Ev. repeat split; assumption.
Qed.

Lemma changeModule_missing name e :
  graph_ok (drawflow e) = true -> get name (drawflow e) = None ->
  exists e', changeModule name e = Throw TypeError e'.
Proof.
  intros OK G.
  set (e1 := set_precanvas [] (set_module name
               (final (dispatch "moduleChanged" (DStr name) e)))).
  change (changeModule name e) with (import (drawflow e1) false e1).
  change (import (drawflow e1) false e1)
    with ((load ;; ret tt)
            (set_drawflow (clone_graph (drawflow e))
               (set_drawflow [("Home", {| m_data := [] |})] (set_precanvas [] e1)))).
  unfold bind at 1. rewrite load_missing; [eauto|].
  simpl. now rewrite clone_graph_id.
Qed.

Lemma graph_ok_NoDup g : graph_ok g = true -> NoDup (keys g).
Proof.
  unfold graph_ok. intro H. apply andb_prop in H as [H _].
  now apply well_formed_NoDup.
Qed.

(** ** The curve of a connection *)

(** C8. For the edge from (0,0) to (100,0) without reroute points and
    with curvature 1/2, the path is one segment from (0,0) to (100,0)
    whose control points are both (50,0); its text is
    [" M 0 0 C 50 0 50 0 100  0"]. *)
Theorem curve_example rcse rc :
  exists seg,
    connection_path (0, 0)%Q (100, 0)%Q [] (1 # 2) rcse rc = [seg]
    /\ s_from seg = (0, 0)%Q
    /\ s_to seg = (100, 0)%Q
    /\ (fst (s_c1 seg) == 50)%Q /\ (snd (s_c1 seg) == 0)%Q
    /\ (fst (s_c2 seg) == 50)%Q /\ (snd (s_c2 seg) == 0)%Q
    /\ path_d show_integral seg = " M 0 0 C 50 0 50 0 100  0".
Proof.
  eexists. split; [reflexivity|]. repeat split; reflexivity.
Qed.

(** ** Removal of a node *)

(** C1 fails on [removeNodeId] for a node of a module that is not the
    active one.  Nodes 1 and 2 are connected in "Other" and the store
    is consistent; with "Home" active, [removeNodeId("node-1")] returns
    normally, deletes node 1 and leaves in the port input_1 of node 2
    the entry that refers to it. *)
Theorem removeNodeId_leaves_dangling_entry :
  symmetric (drawflow connected_elsewhere) = true
  /\ module connected_elsewhere = "Home"
  /\ module_of (IdStr "1") (drawflow connected_elsewhere) = Some "Other"
  /\ removeNodeId "node-1" connected_elsewhere = Ret tt removed_elsewhere
  /\ node_at "Other" "1" (drawflow removed_elsewhere) = None
  /\ conns_at Inputs "Other" "2" "input_1" (drawflow removed_elsewhere)
     = Some [{| c_node := IdStr "1"; c_port := "output_1"; c_points := None |}]
  /\ symmetric (drawflow removed_elsewhere) = false.
Proof. repeat split; vm_compute; reflexivity. Qed.

(** ** The consistency conditions, port by port *)

Lemma conns_at_In sd m k cls g l :
  conns_at sd m k cls g = Some l ->
  exists md n p,
    In (m, md) g /\ get m g = Some md
    /\ In (k, n) (m_data md) /\ get k (m_data md) = Some n
    /\ In (cls, p) (ports sd n) /\ connections p = l.
Proof.
  intro H. destruct (conns_at_inv _ _ _ _ _ _ H) as (n & p & N & P & L).
  unfold node_at in N. destruct (get m g) as [md|] eqn:G; [|discriminate].
  exists md, n, p. repeat split; auto using get_In.
Qed.

Lemma In_conns_at sd m md k n cls p g :
  graph_ok g = true ->
  In (m, md) g -> In (k, n) (m_data md) -> In (cls, p) (ports sd n) ->
  conns_at sd m k cls g = Some (connections p).
Proof.
  intros OK Im Ik Ic.
  pose proof (graph_ok_NoDup _ OK) as ND.
  pose proof (In_get _ _ _ ND Im) as G.
  unfold graph_ok in OK. apply andb_prop in OK as [_ A].
  rewrite forallb_forall in A. specialize (A _ Im). simpl in A.
  unfold module_ok in A. apply andb_prop in A as [W A].
  pose proof (In_get _ _ _ (well_formed_NoDup _ W) Ik) as Gk.
  rewrite forallb_forall in A. specialize (A _ Ik). simpl in A.
  pose proof (In_get _ _ _ (well_formed_NoDup _ (node_ok_ports sd _ A)) Ic) as Gc.
  unfold conns_at, node_at. now rewrite G, Gk, Gc.
Qed.

Lemma half_symmetric_at sd m md g k cls l c :
  get m g = Some md -> half_symmetric sd md = true ->
  conns_at sd m k cls g = Some l -> In c l ->
  exists t,
    c_node c = IdStr t
    /\ count_to t (c_port c) l = 1%nat
    /\ exists l', conns_at (other sd) m t (c_port c) g = Some l'
                  /\ count_to k cls l' = 1%nat.
Proof.
  intros G H L I.
  destruct (conns_at_In _ _ _ _ _ _ L) as (md' & n & p & _ & G' & Ik & _ & Ic & <-).
  assert (md' = md) by congruence. subst md'.
  unfold half_symmetric in H. rewrite forallb_forall in H.
  specialize (H _ Ik). rewrite forallb_forall in H.
  specialize (H _ Ic). rewrite forallb_forall in H.
  specialize (H _ I). simpl in H.
  destruct (c_node c) as [z|t]; [discriminate|].
  exists t. apply andb_prop in H as [H1 H2]. apply Nat.eqb_eq in H1.
  split; [reflexivity|]. split; [assumption|].
  unfold conns_at, node_at. rewrite G.
  destruct (get t (m_data md)) as [n'|]; [|discriminate].
  destruct (get (c_port c) (ports (other sd) n')) as [p'|]; [|discriminate].
  apply Nat.eqb_eq in H2. simpl. eauto.
Qed.

Lemma symmetric_symmetric_at g : symmetric g = true -> symmetric_at g.
Proof.
  intros S sd m k cls l c L I.
  destruct (conns_at_In _ _ _ _ _ _ L) as (md & _ & _ & Im & G & _).
  unfold symmetric in S. rewrite forallb_forall in S. specialize (S _ Im).
  simpl in S. apply andb_prop in S as [S1 S2].
  destruct sd; eapply half_symmetric_at; eauto.
Qed.

Lemma symmetric_at_symmetric g :
  graph_ok g = true -> symmetric_at g -> symmetric g = true.
Proof.
  intros OK S. unfold symmetric. apply forallb_forall. intros [m md] Im.
  assert (H : forall sd, half_symmetric sd md = true).
  { intro sd. unfold half_symmetric.
    apply forallb_forall. intros [k n] Ik.
    apply forallb_forall. intros [cls p] Ic.
    apply forallb_forall. intros c I. simpl.
    pose proof (In_conns_at sd _ _ _ _ _ _ _ OK Im Ik Ic) as L.
    destruct (S _ _ _ _ _ _ L I) as (t & -> & C1 & l' & L' & C2).
    rewrite C1. simpl.
    destruct (conns_at_In _ _ _ _ _ _ L') as (md' & n' & p' & _ & G' & _ & Gt & Ic' & E).
    pose proof (In_get _ _ _ (graph_ok_NoDup _ OK) Im) as G.
    assert (md' = md) by congruence. subst md'. rewrite Gt.
    destruct (conns_at_inv _ _ _ _ _ _ L') as (n2 & p2 & N2 & P2 & E2).
    unfold node_at in N2. rewrite G, Gt in N2. injection N2 as <-.
    rewrite P2, E2, C2. reflexivity. }
  simpl. now rewrite !H.
Qed.

Lemma ids_ok_ids_at g : ids_ok g = true -> ids_at g.
Proof.
  intros H m k n N. unfold node_at in N.
  destruct (get m g) as [md|] eqn:G; [|discriminate].
  unfold ids_ok in H. rewrite forallb_forall in H.
  specialize (H _ (get_In _ _ _ G)). rewrite forallb_forall in H.
  specialize (H _ (get_In _ _ _ N)). simpl in H.
  apply andb_prop in H as [H H3]. apply andb_prop in H as [H1 H2].
  apply option_string_eqb_eq in H2. auto.
Qed.

(** ** Canonical keys and loose equality *)

Lemma Z_to_string_inj x y : Z_to_string x = Z_to_string y -> x = y.
Proof.
  intro H. pose proof (ToNumber_Z_to_string x) as E.
  rewrite H, ToNumber_Z_to_string in E. congruence.
Qed.

Lemma loose_eq_canonical t id :
  canonical t = true -> loose_eq (IdStr t) id = String.eqb t (toString id).
Proof.
  unfold canonical. destruct id as [z|s]; simpl; [|reflexivity].
  destruct (ToNumber t) as [n|] eqn:E.
  - intro C. apply String.eqb_eq in C. subst t.
    destruct (Z.eqb_spec n z) as [->|N]; [now rewrite String.eqb_refl|].
    symmetry. apply String.eqb_neq. intro H. apply Z_to_string_inj in H. contradiction.
  - intros _. symmetry. apply String.eqb_neq. intros ->.
    rewrite ToNumber_Z_to_string in E. discriminate.
Qed.

Lemma module_of_ext id id' g :
  (forall m md k, In (m, md) g -> In k (keys (m_data md)) ->
                  loose_eq (IdStr k) id = loose_eq (IdStr k) id') ->
  module_of id g = module_of id' g.
Proof.
  unfold module_of. generalize (@None string) as acc.
  induction g as [|[m md] g IH]; intros acc H; cbn [fold_left fst snd];
    [reflexivity|].
  assert (E : forall ks acc0,
             (forall k, In k ks -> loose_eq (IdStr k) id = loose_eq (IdStr k) id') ->
             fold_left (fun nm nodeKey => if loose_eq (IdStr nodeKey) id then Some m else nm)
                       ks acc0
             = fold_left (fun nm nodeKey => if loose_eq (IdStr nodeKey) id' then Some m else nm)
                         ks acc0).
  { induction ks as [|k ks IHk]; intros acc0 Hk; cbn [fold_left]; [reflexivity|].
    rewrite (Hk k (or_introl eq_refl)). apply IHk. intros; apply Hk; now right. }
  rewrite E by (intros k Ik; apply (H m md k); [now left|assumption]).
  apply IH. intros m' md' k Im Ik. apply (H m' md' k); [now right|assumption].
Qed.

Lemma ids_ok_canonical g m md k :
  ids_ok g = true -> In (m, md) g -> In k (keys (m_data md)) -> canonical k = true.
Proof.
  intros H Im Ik. unfold ids_ok in H. rewrite forallb_forall in H.
  specialize (H _ Im). rewrite forallb_forall in H. simpl in H.
  unfold keys in Ik. apply in_map_iff in Ik as ([k' n] & <- & I).
  specialize (H _ I). simpl in H.
  apply andb_prop in H as [H _]. apply andb_prop in H as [H _]. exact H.
Qed.

(** An identifier resolves as its text does. *)
Lemma module_of_toString id g :
  ids_ok g = true -> module_of id g = module_of (IdStr (toString id)) g.
Proof.
  intro H. apply module_of_ext. intros m md k Im Ik.
  pose proof (ids_ok_canonical _ _ _ _ H Im Ik) as C.
  rewrite !loose_eq_canonical by assumption. reflexivity.
Qed.

Lemma module_of_node id g m n :
  ids_ok g = true -> node_at m (toString id) g = Some n -> module_of id g = Some m.
Proof.
  intros H N. rewrite (module_of_toString _ _ H).
  exact (proj1 (proj2 (ids_ok_ids_at _ H _ _ _ N))).
Qed.

(** ** Arrays: search and removal *)

Lemma find_index_Some {A} (P : A -> bool) l i :
  find_index P l = Some i ->
  exists pre x post,
    l = pre ++ x :: post /\ List.length pre = i /\ P x = true
    /\ forallb (fun a => negb (P a)) pre = true.
Proof.
  revert i. induction l as [|a l IH]; simpl; intros i H; [discriminate|].
  destruct (P a) eqn:Pa.
  - injection H as <-. exists [], a, l. auto.
  - destruct (find_index P l) as [j|]; [|discriminate]. injection H as <-.
    destruct (IH j eq_refl) as (pre & x & post & -> & L & Px & F).
    exists (a :: pre), x, post. simpl. rewrite Pa, L, F. auto.
Qed.

Lemma find_index_exists {A} (P : A -> bool) l :
  existsb P l = true -> exists i, find_index P l = Some i.
Proof.
  induction l as [|a l IH]; simpl; [discriminate|].
  destruct (P a); [eauto|]. simpl. intro H. destruct (IH H) as (i & ->). simpl. eauto.
Qed.

Lemma findIndex_found {A} (P : A -> bool) l i :
  find_index P l = Some i -> findIndex P l = Z.of_nat i /\ (-1 <? findIndex P l) = true.
Proof.
  intro H. unfold findIndex. rewrite H. split; [reflexivity|]. apply Z.ltb_lt. lia.
Qed.

Lemma remove_nth_app {A} (pre : list A) x post :
  remove_nth (List.length pre) (pre ++ x :: post) = pre ++ post.
Proof.
  unfold remove_nth. induction pre as [|a pre IH]; simpl; [reflexivity|].
  f_equal. exact IH.
Qed.

Lemma splice1_found {A} (P : A -> bool) l i :
  find_index P l = Some i -> splice1 (findIndex P l) l = remove_nth i l.
Proof.
  intro H. destruct (findIndex_found _ _ _ H) as [E _]. rewrite E.
  destruct (find_index_Some _ _ _ H) as (pre & x & post & -> & L & _).
  unfold splice1. rewrite length_app. simpl.
  destruct (Z.of_nat i <? 0) eqn:N; [apply Z.ltb_lt in N; lia|].
  f_equal. lia.
Qed.

Lemma filter_none {A} (P : A -> bool) l :
  forallb (fun a => negb (P a)) l = true -> filter P l = [].
Proof.
  induction l as [|a l IH]; simpl; [reflexivity|]. intro H.
  apply andb_prop in H as [H1 H2]. apply negb_true_iff in H1. rewrite H1. auto.
Qed.

Lemma filter_all {A} (P : A -> bool) l :
  forallb P l = true -> filter P l = l.
Proof.
  induction l as [|a l IH]; simpl; [reflexivity|]. intro H.
  apply andb_prop in H as [H1 H2]. rewrite H1. f_equal. auto.
Qed.

Lemma filter_length_zero {A} (P : A -> bool) l :
  List.length (filter P l) = O -> forallb (fun a => negb (P a)) l = true.
Proof.
  induction l as [|a l IH]; simpl; [reflexivity|].
  destruct (P a); simpl; [discriminate|auto].
Qed.

(** Removing the first match of a predicate that holds once removes
    every match. *)
Lemma remove_first_unique {A} (P : A -> bool) l i :
  find_index P l = Some i -> List.length (filter P l) = 1%nat ->
  remove_nth i l = filter (fun a => negb (P a)) l.
Proof.
  intros H U. destruct (find_index_Some _ _ _ H) as (pre & x & post & -> & <- & Px & F).
  rewrite remove_nth_app.
  rewrite filter_app in U. simpl in U. rewrite Px, (filter_none _ _ F) in U.
  simpl in U. injection U as U. apply filter_length_zero in U.
  rewrite filter_app. simpl. rewrite Px. simpl.
  now rewrite !filter_all by assumption.
Qed.

Lemma points_to_iff t q c :
  points_to t q c = true <-> c_node c = IdStr t /\ c_port c = q.
Proof.
  unfold points_to. rewrite andb_true_iff, String.eqb_eq.
  destruct (c_node c) as [z|s]; simpl.
  - split; [intros [H _]; discriminate|intros [H _]; discriminate].
  - rewrite String.eqb_eq. split; intros [H1 H2]; split; congruence.
Qed.

Lemma count_to_pos t q l :
  (0 < count_to t q l)%nat <-> exists c, In c l /\ c_node c = IdStr t /\ c_port c = q.
Proof.
  unfold count_to. split.
  - intro H. destruct (filter (points_to t q) l) as [|c r] eqn:E; [simpl in H; lia|].
    assert (I : In c (filter (points_to t q) l)) by (rewrite E; now left).
    apply filter_In in I as [I P]. apply points_to_iff in P. eauto.
  - intros (c & I & N & P).
    assert (I' : In c (filter (points_to t q) l)).
    { apply filter_In. split; [assumption|]. apply points_to_iff. auto. }
    destruct (filter (points_to t q) l); [contradiction|simpl; lia].
Qed.

Lemma count_to_filter_other t q a b l :
  (a, b) <> (t, q) ->
  count_to a b (filter (fun c => negb (points_to t q c)) l) = count_to a b l.
Proof.
  intro N. unfold count_to. induction l as [|c l IH]; simpl; [reflexivity|].
  destruct (points_to t q c) eqn:P; simpl.
  - destruct (points_to a b c) eqn:P'; [|assumption].
    apply points_to_iff in P as [P1 P2]. apply points_to_iff in P' as [P1' P2'].
    exfalso. apply N. congruence.
  - destruct (points_to a b c); simpl; now rewrite IH.
Qed.

Lemma count_to_filter_same t q l :
  count_to t q (filter (fun c => negb (points_to t q c)) l) = O.
Proof.
  unfold count_to. induction l as [|c l IH]; simpl; [reflexivity|].
  destruct (points_to t q c) eqn:P; simpl; [assumption|]. now rewrite P.
Qed.

Lemma find_index_points_to t q l :
  (0 < count_to t q l)%nat -> exists i, find_index (points_to t q) l = Some i.
Proof.
  intro H. apply find_index_exists. apply existsb_exists.
  apply count_to_pos in H as (c & I & N & P). exists c. split; [assumption|].
  apply points_to_iff. auto.
Qed.

Lemma find_index_ext {A} (P Q : A -> bool) l :
  (forall a, In a l -> P a = Q a) -> find_index P l = find_index Q l.
Proof.
  induction l as [|a l IH]; simpl; intro H; [reflexivity|].
  rewrite (H a (or_introl eq_refl)), IH by (intros; apply H; now right). reflexivity.
Qed.

Lemma findIndex_ext {A} (P Q : A -> bool) l :
  (forall a, In a l -> P a = Q a) -> findIndex P l = findIndex Q l.
Proof. intro H. unfold findIndex. now rewrite (find_index_ext P Q l H). Qed.

(** ** Class lists and the elements of the canvas *)

Lemma list_eqb_string_eq a b : list_eqb String.eqb a b = true <-> a = b.
Proof.
  revert b. induction a as [|x a IH]; intros [|y b]; simpl; try (split; congruence).
  rewrite andb_true_iff, String.eqb_eq, IH. split; [intros [-> ->]|intros [= -> ->]]; auto.
Qed.

Lemma class_list_eqb_eq a b : class_list_eqb a b = true <-> a = b.
Proof. apply list_eqb_string_eq. Qed.

Lemma class_list_eqb_refl a : class_list_eqb a a = true.
Proof. now apply class_list_eqb_eq. Qed.

Lemma list_eqb_nat_eq a b : list_eqb Nat.eqb a b = true <-> a = b.
Proof.
  revert b. induction a as [|x a IH]; intros [|y b]; simpl; try (split; congruence).
  rewrite andb_true_iff, Nat.eqb_eq, IH. split; [intros [-> ->]|intros [= -> ->]]; auto.
Qed.

Lemma has_class_In c cl : has_class c cl = true <-> In c cl.
Proof.
  unfold has_class. rewrite existsb_exists. split.
  - intros (x & I & E). apply String.eqb_eq in E. now subst.
  - intro I. exists c. split; [assumption|apply String.eqb_refl].
Qed.

Lemma matches_refl cl : matches cl cl = true.
Proof.
  unfold matches. apply forallb_forall. intros c I. now apply has_class_In.
Qed.

(** A connection element that carries the five classes of another one
    is that one. *)
Lemma matches_exact x cl :
  is_connection_element x = true -> is_connection_element cl = true ->
  matches x cl = true -> cl = x.
Proof.
  unfold is_connection_element. rewrite !list_eqb_nat_eq. intros Kx Kc Mx.
  destruct x as [|x1 [|x2 [|x3 [|x4 [|x5 [|]]]]]]; try discriminate.
  destruct cl as [|c1 [|c2 [|c3 [|c4 [|c5 [|]]]]]]; try discriminate.
  simpl in Kx, Kc. injection Kx as K1 K2 K3 K4 K5. injection Kc as J1 J2 J3 J4 J5.
  unfold matches in Mx. rewrite forallb_forall in Mx.
  assert (H : forall x, In x [x1; x2; x3; x4; x5] -> In x [c1; c2; c3; c4; c5]).
  { intros x I. apply has_class_In. now apply Mx. }
  assert (E : forall x k, In x [c1; c2; c3; c4; c5] -> class_kind x = k ->
                (k = 1%nat -> x = c1) /\ (k = 2%nat -> x = c2) /\ (k = 3%nat -> x = c3)
                /\ (k = 4%nat -> x = c4) /\ (k = 5%nat -> x = c5)).
  { intros x k I Kk. simpl in I.
    repeat destruct I as [I|I]; try contradiction; subst x;
      repeat split; intro; congruence. }
  assert (I1 : In x1 [c1; c2; c3; c4; c5]) by (apply H; simpl; auto 10).
  assert (I2 : In x2 [c1; c2; c3; c4; c5]) by (apply H; simpl; auto 10).
  assert (I3 : In x3 [c1; c2; c3; c4; c5]) by (apply H; simpl; auto 10).
  assert (I4 : In x4 [c1; c2; c3; c4; c5]) by (apply H; simpl; auto 10).
  assert (I5 : In x5 [c1; c2; c3; c4; c5]) by (apply H; simpl; auto 10).
  destruct (E x1 1%nat I1 K1) as (E1 & _).
  destruct (E x2 2%nat I2 K2) as (_ & E2 & _).
  destruct (E x3 3%nat I3 K3) as (_ & _ & E3 & _).
  destruct (E x4 4%nat I4 K4) as (_ & _ & _ & E4 & _).
  destruct (E x5 5%nat I5 K5) as (_ & _ & _ & _ & E5).
  now rewrite E1, E2, E3, E4, E5.
Qed.

Lemma count_el_pos x dom : (0 < count_el x dom)%nat <-> In x dom.
Proof.
  unfold count_el. split.
  - intro H. destruct (filter (class_list_eqb x) dom) as [|y r] eqn:E; [simpl in H; lia|].
    assert (I : In y (filter (class_list_eqb x) dom)) by (rewrite E; now left).
    apply filter_In in I as [I P]. apply class_list_eqb_eq in P. now subst.
  - intro I.
    assert (I' : In x (filter (class_list_eqb x) dom)).
    { apply filter_In. split; [assumption|apply class_list_eqb_refl]. }
    destruct (filter (class_list_eqb x) dom); [contradiction|simpl; lia].
Qed.

Lemma nth_error_split_at {A} (l : list A) i a :
  nth_error l i = Some a ->
  exists pre post, l = pre ++ a :: post /\ List.length pre = i.
Proof.
  intro H. destruct (nth_error_split _ _ H) as (pre & post & -> & L). eauto.
Qed.

Lemma count_el_app x l1 l2 :
  count_el x (l1 ++ l2) = (count_el x l1 + count_el x l2)%nat.
Proof. unfold count_el. now rewrite filter_app, length_app. Qed.

Lemma count_el_cons x y l :
  count_el x (y :: l) = ((if class_list_eqb x y then 1 else 0) + count_el x l)%nat.
Proof. unfold count_el. simpl. now destruct (class_list_eqb x y). Qed.

Lemma count_el_remove_nth x dom i y :
  nth_error dom i = Some y ->
  (count_el x (remove_nth i dom) + (if class_list_eqb x y then 1 else 0))%nat
  = count_el x dom.
Proof.
  intro H. destruct (nth_error_split_at _ _ _ H) as (pre & post & -> & <-).
  rewrite remove_nth_app, !count_el_app, count_el_cons. lia.
Qed.



Lemma forallb_remove_nth {A} (P : A -> bool) l i :
  forallb P l = true -> forallb P (remove_nth i l) = true.
Proof.
  unfold remove_nth. revert i. induction l as [|a l IH]; intros [|i]; simpl; auto.
  - intro H. apply andb_prop in H as [_ H]. exact H.
  - intro H. apply andb_prop in H as [H1 H2]. rewrite H1. simpl.
    apply (IH i H2).
Qed.


(** The first match of the classes of an element that is on the
    canvas is that element. *)
Lemma querySelector_exact x dom :
  is_connection_element x = true ->
  forallb is_connection_element dom = true ->
  In x dom ->
  exists j, querySelector x dom = Some j /\ nth_error dom j = Some x.
Proof.
  intros Kx A I. unfold querySelector.
  destruct (find_index_exists (matches x) dom) as (j & F).
  { apply existsb_exists. exists x. split; [assumption|apply matches_refl]. }
  exists j. split; [assumption|].
  destruct (find_index_Some _ _ _ F) as (pre & y & post & -> & <- & My & _).
  rewrite nth_error_app2, Nat.sub_diag by lia. simpl. f_equal.
  apply matches_exact; [assumption| |assumption].
  rewrite forallb_forall in A. apply A. apply in_or_app. right. now left.
Qed.

(** ** Port names *)

Lemma prefix_append p s : prefix p (p +++ s) = true.
Proof.
  induction p as [|c p IH]; simpl; [now destruct s|].
  destruct (ascii_dec c c); [exact IH|contradiction].
Qed.

Lemma prefix_mismatch c1 p1 c2 s2 :
  c1 <> c2 -> prefix (String c1 p1) (String c2 s2) = false.
Proof. intro N. simpl. destruct (ascii_dec c1 c2); [contradiction|reflexivity]. Qed.

Lemma prefix_same c p s : prefix (String c p) (String c s) = prefix p s.
Proof. simpl. destruct (ascii_dec c c); [reflexivity|contradiction]. Qed.

Lemma port_name_kind sd s : class_kind (prefix_of sd +++ s) = kind_of sd.
Proof.
  destruct sd; unfold class_kind, prefix_of, kind_of.
  - change (String.eqb ("input_" +++ s) "connection") with false. cbv iota.
    pose proof (prefix_append "input_" s) as P. cbn [append] in *.
    rewrite (prefix_mismatch "n" _ "i") by discriminate.
    rewrite (prefix_mismatch "n" _ "i") by discriminate.
    rewrite (prefix_mismatch "o" _ "i") by discriminate.
    now rewrite P.
  - change (String.eqb ("output_" +++ s) "connection") with false. cbv iota.
    pose proof (prefix_append "output_" s) as P. cbn [append] in *.
    rewrite (prefix_mismatch "n" _ "o") by discriminate.
    rewrite (prefix_mismatch "n" _ "o") by discriminate.
    now rewrite P.
Qed.



Lemma In_port_names sd n q :
  In q (port_names sd n) <->
  exists j, (1 <= j <= n)%nat /\ q = prefix_of sd +++ nat_to_string j.
Proof.
  unfold port_names. rewrite in_map_iff. split.
  - intros (i & <- & I). apply in_seq in I. exists (i + 1)%nat. split; [lia|reflexivity].
  - intros (j & J & ->). exists (j - 1)%nat. split.
    + f_equal. f_equal. lia.
    + apply in_seq. lia.
Qed.

Lemma names_ok_keys sd n :
  names_ok n = true -> keys (ports sd n) = port_names sd (List.length (ports sd n)).
Proof.
  unfold names_ok. intro H. apply andb_prop in H as [H _].
  apply andb_prop in H as [H1 H2].
  apply list_eqb_string_eq in H1, H2. now destruct sd.
Qed.

Lemma names_ok_port sd n cls p :
  names_ok n = true -> get cls (ports sd n) = Some p ->
  exists j, (1 <= j <= List.length (ports sd n))%nat
            /\ cls = prefix_of sd +++ nat_to_string j.
Proof.
  intros H G. apply In_port_names. rewrite <- names_ok_keys by assumption.
  eapply get_Some_keys; eauto.
Qed.

Lemma names_ok_no_points n cls p :
  names_ok n = true -> get cls (n_inputs n) = Some p ->
  no_points (connections p) = true.
Proof.
  unfold names_ok. intros H G. apply andb_prop in H as [_ H].
  rewrite forallb_forall in H. exact (H _ (get_In _ _ _ G)).
Qed.




Lemma element_of_pointer sd k cls c t :
  c_node c = IdStr t -> element_of sd k cls c = element_of sd k cls (pointer t (c_port c)).
Proof. intro E. unfold element_of, pointer. simpl. now rewrite E. Qed.

Lemma node_class_kinds s :
  class_kind ("node_in_node-" +++ s) = 2%nat
  /\ class_kind ("node_out_node-" +++ s) = 3%nat.
Proof.
  unfold class_kind. split.
  - change (String.eqb ("node_in_node-" +++ s) "connection") with false. cbv iota.
    now rewrite prefix_append.
  - change (String.eqb ("node_out_node-" +++ s) "connection") with false. cbv iota.
    assert (prefix "node_in_node-" ("node_out_node-" +++ s) = false) as ->.
    { cbn [append]. rewrite !prefix_same. apply prefix_mismatch. discriminate. }
    now rewrite prefix_append.
Qed.

Lemma element_of_is_connection sd k cls c :
  class_kind cls = kind_of sd -> class_kind (c_port c) = kind_of (other sd) ->
  is_connection_element (element_of sd k cls c) = true.
Proof.
  intros K1 K2. unfold is_connection_element. apply list_eqb_nat_eq.
  destruct sd; unfold element_of; cbn [map];
    rewrite K1, K2, (proj1 (node_class_kinds _)), (proj2 (node_class_kinds _));
    reflexivity.
Qed.

Lemma append_inj_l p a b : p +++ a = p +++ b -> a = b.
Proof. induction p as [|c p IH]; simpl; [auto|]. intros [= H]. auto. Qed.

Lemma element_of_pointer_inj sd k cls t q k' cls' t' q' :
  element_of sd k cls (pointer t q) = element_of sd k' cls' (pointer t' q') ->
  k = k' /\ cls = cls' /\ t = t' /\ q = q'.
Proof.
  destruct sd; simpl; intros [= H1 H2 H3 H4]; auto.
Qed.

(** ** Removal of one connection *)

Lemma same_path_refl sd m k cls : same_path sd m k cls sd m k cls = true.
Proof. unfold same_path. rewrite !String.eqb_refl. now destruct sd. Qed.

Lemma same_path_eq sd m k cls sd' m' k' cls' :
  same_path sd m k cls sd' m' k' cls' = true <->
  sd' = sd /\ m' = m /\ k' = k /\ cls' = cls.
Proof.
  unfold same_path. rewrite !andb_true_iff, !String.eqb_eq.
  split.
  - intros [[[S ->] ->] ->]. repeat split. destruct sd, sd'; simpl in S; congruence.
  - intros (-> & -> & -> & ->). repeat split. now destruct sd.
Qed.

Lemma same_path_other sd m k cls m' k' cls' :
  same_path sd m k cls (other sd) m' k' cls' = false.
Proof. unfold same_path. now destruct sd. Qed.

Lemma same_path_other2 sd m k cls m' k' cls' :
  same_path (other sd) m k cls sd m' k' cls' = false.
Proof. unfold same_path. now destruct sd. Qed.

Lemma conns_at_change sd m k cls f g g' sd' m' k' cls' :
  change_conns sd m k cls f g = Some g' ->
  conns_at sd' m' k' cls' g' =
  if same_path sd m k cls sd' m' k' cls' then option_map f (conns_at sd m k cls g)
  else conns_at sd' m' k' cls' g.
Proof. apply conns_at_change_conns. Qed.

Lemma element_of_mirror sd k cls t q :
  element_of sd k cls (pointer t q) = element_of (other sd) t q (pointer k cls).
Proof. now destruct sd. Qed.

Lemma filter_In_sub {A} (P : A -> bool) l a : In a (filter P l) -> In a l.
Proof. intro H. now apply filter_In in H. Qed.

Lemma count_to_not_to_other t q a b l :
  (a, b) <> (t, q) -> count_to a b (filter (not_to t q) l) = count_to a b l.
Proof. apply count_to_filter_other. Qed.

Lemma count_to_not_to_same t q l : count_to t q (filter (not_to t q) l) = O.
Proof. apply count_to_filter_same. Qed.

(** Unlinking two ports that hold one entry for each other keeps the
    store consistent. *)
Lemma symmetric_at_unlink g g' sd m K cls t q :
  symmetric_at g ->
  (forall sd' m' k' cls',
      conns_at sd' m' k' cls' g' =
      if same_path sd m K cls sd' m' k' cls'
      then option_map (filter (not_to t q)) (conns_at sd' m' k' cls' g)
      else if same_path (other sd) m t q sd' m' k' cls'
           then option_map (filter (not_to K cls)) (conns_at sd' m' k' cls' g)
           else conns_at sd' m' k' cls' g) ->
  symmetric_at g'.
Proof.
  intros S V sd' m' k' cls' l' c L' I'.
  (* the entry is an entry of g, and survives the filter of its list *)
  assert (Own : exists l,
             conns_at sd' m' k' cls' g = Some l /\ In c l
             /\ forall a b, (a, b) <> (t, q) \/ same_path sd m K cls sd' m' k' cls' = false ->
                            (a, b) <> (K, cls)
                            \/ same_path (other sd) m t q sd' m' k' cls' = false ->
                            points_to a b c = true ->
                            count_to a b l' = count_to a b l).
  { rewrite V in L'.
    destruct (same_path sd m K cls sd' m' k' cls') eqn:P1.
    - destruct (conns_at sd' m' k' cls' g) as [l|]; [|discriminate].
      injection L' as <-. exists l. split; [reflexivity|].
      split; [eapply filter_In_sub; eauto|].
      intros a b [N|N] _ _; [now apply count_to_not_to_other|discriminate].
    - destruct (same_path (other sd) m t q sd' m' k' cls') eqn:P2.
      + destruct (conns_at sd' m' k' cls' g) as [l|]; [|discriminate].
        injection L' as <-. exists l. split; [reflexivity|].
        split; [eapply filter_In_sub; eauto|].
        intros a b _ [N|N] _; [now apply count_to_not_to_other|discriminate].
      + exists l'. repeat split; auto. }
  destruct Own as (l & L & I & Cnt).
  destruct (S _ _ _ _ _ _ L I) as (t' & Nc & C1 & l2 & L2 & C2).
  exists t'. split; [assumption|].
  assert (Pc : points_to t' (c_port c) c = true) by (apply points_to_iff; auto).
  (* the entry does not point to the partner of its own list *)
  assert (Surv1 : same_path sd m K cls sd' m' k' cls' = true -> (t', c_port c) <> (t, q)).
  { intros P1 E. injection E as -> E2. rewrite V, P1, L in L'. injection L' as <-.
    apply filter_In in I' as [_ F]. unfold not_to in F. rewrite <- E2 in F.
    rewrite Pc in F. discriminate. }
  assert (Surv2 : same_path sd m K cls sd' m' k' cls' = false ->
                  same_path (other sd) m t q sd' m' k' cls' = true ->
                  (t', c_port c) <> (K, cls)).
  { intros P1 P2 E. injection E as -> E2. rewrite V, P1, P2, L in L'. injection L' as <-.
    apply filter_In in I' as [_ F]. unfold not_to in F. rewrite <- E2 in F.
    rewrite Pc in F. discriminate. }
  split.
  - rewrite Cnt; auto.
    + destruct (same_path sd m K cls sd' m' k' cls') eqn:P1; auto.
    + destruct (same_path sd m K cls sd' m' k' cls') eqn:P1.
      * right. apply same_path_eq in P1 as (-> & _). apply same_path_other2.
      * destruct (same_path (other sd) m t q sd' m' k' cls') eqn:P2; auto.
  - rewrite V, L2.
    destruct (same_path sd m K cls (other sd') m' t' (c_port c)) eqn:Q1.
    + (* the mirror list is the port itself: the entry lives in the remote port *)
      apply same_path_eq in Q1 as (Sd & -> & -> & Ec).
      eexists. split; [reflexivity|].
      rewrite count_to_not_to_other; [assumption|].
      intro E. injection E as -> ->.
      assert (P2 : same_path (other sd) m t q sd' m t q = true).
      { apply same_path_eq. repeat split. destruct sd, sd'; simpl in *; congruence. }
      assert (P1 : same_path sd m K cls sd' m t q = false).
      { destruct (same_path sd m K cls sd' m t q) eqn:P1; [|reflexivity].
        apply same_path_eq in P1 as (Sd' & _). destruct sd, sd'; discriminate. }
      apply (Surv2 P1 P2). now rewrite Ec.
    + destruct (same_path (other sd) m t q (other sd') m' t' (c_port c)) eqn:Q2.
      * apply same_path_eq in Q2 as (Sd & -> & -> & Ec).
        eexists. split; [reflexivity|].
        rewrite count_to_not_to_other; [assumption|].
        intro E. injection E as -> ->.
        assert (P1 : same_path sd m K cls sd' m K cls = true).
        { apply same_path_eq. repeat split. destruct sd, sd'; simpl in *; congruence. }
        apply (Surv1 P1). now rewrite Ec.
      * eauto.
Qed.

Lemma removeSingleConnection_spec e a b oc ic m lo li i j :
  module_of a (drawflow e) = Some m ->
  module_of b (drawflow e) = Some m ->
  conns_at Outputs m (toString a) oc (drawflow e) = Some lo ->
  find_index (fun item => loose_eq (c_node item) b && String.eqb (c_port item) ic) lo
    = Some i ->
  conns_at Inputs m (toString b) ic (drawflow e) = Some li ->
  (module e = m ->
   querySelector ["connection"; "node_in_node-" +++ toString b;
                  "node_out_node-" +++ toString a; oc; ic] (precanvas e) = Some j) ->
  exists g1 g2 e',
    change_conns Outputs m (toString a) oc
      (fun l => splice1 (findIndex (fun item => loose_eq (c_node item) b
                                               && String.eqb (c_port item) ic) l) l)
      (drawflow e) = Some g1
    /\ change_conns Inputs m (toString b) ic
         (fun l => splice1 (findIndex (fun item => loose_eq (c_node item) a
                                                  && String.eqb (c_port item) oc) l) l)
         g1 = Some g2
    /\ removeSingleConnection a b oc ic e = Ret true e'
    /\ drawflow e' = g2
    /\ module e' = module e
    /\ precanvas e' = (if String.eqb (module e) m
                       then remove_nth j (precanvas e) else precanvas e).
Proof.
  intros Ma Mb Lo F Li Q.
  destruct (change_conns_Some Outputs m (toString a) oc
              (fun l => splice1 (findIndex (fun item => loose_eq (c_node item) b
                                                       && String.eqb (c_port item) ic) l) l)
              _ _ Lo) as (g1 & G1).
  assert (Li1 : conns_at Inputs m (toString b) ic g1 = Some li).
  { rewrite (conns_at_change_conns_other_side _ _ _ _ _ _ _ _ _ _ _ G1); [assumption|].
    discriminate. }
  destruct (change_conns_Some Inputs m (toString b) ic
              (fun l => splice1 (findIndex (fun item => loose_eq (c_node item) a
                                                       && String.eqb (c_port item) oc) l) l)
              _ _ Li1) as (g2 & G2).
  exists g1, g2.
  destruct (findIndex_found _ _ _ F) as [_ Fd].
  unfold removeSingleConnection. munfold. rewrite Ma, Mb.
  cbn [option_string_eqb key_of]. rewrite String.eqb_refl, Lo, Fd.
  destruct (String.eqb_spec (module e) m) as [E|E].
  - unfold remove_element. munfold. rewrite (Q E). cbn [drawflow set_precanvas].
    rewrite G1. cbn [drawflow set_drawflow]. rewrite G2.
    eexists. split; [reflexivity|]. split; [reflexivity|].
    split; [reflexivity|]. repeat split.
  - rewrite G1. cbn [drawflow set_drawflow]. rewrite G2.
    eexists. split; [reflexivity|]. split; [reflexivity|].
    split; [reflexivity|]. repeat split.
Qed.

(** ** Counting through updates *)

Lemma node_connections_weight k n :
  node_connections k n
  = (list_sum (map (fun cp => weight Outputs k (connections (snd cp))) (n_outputs n))
     + list_sum (map (fun cp => weight Inputs k (connections (snd cp))) (n_inputs n)))%nat.
Proof. reflexivity. Qed.

Lemma list_sum_replace {V} (w : V -> nat) k v v' (o : obj V) :
  get k o = Some v ->
  (list_sum (map (fun kv => w (snd kv)) (replace k v' o)) + w v
   = list_sum (map (fun kv => w (snd kv)) o) + w v')%nat.
Proof.
  induction o as [|[k1 v1] o IH]; simpl; [discriminate|].
  destruct (String.eqb_spec k k1) as [->|N].
  - intros [= ->]. simpl. lia.
  - intro G. simpl. specialize (IH G). lia.
Qed.

Lemma node_connections_with_ports sd K n cls p l' :
  get cls (ports sd n) = Some p ->
  (node_connections K
     (with_ports sd (replace cls {| connections := l' |} (ports sd n)) n)
   + weight sd K (connections p)
   = node_connections K n + weight sd K l')%nat.
Proof.
  intro G. rewrite !node_connections_weight.
  pose proof (list_sum_replace (fun p => weight sd K (connections p)) cls p
                {| connections := l' |} (ports sd n) G) as H.
  destruct sd; simpl in *; lia.
Qed.

Lemma keys_with_ports_replace sd sd' n cls p :
  keys (ports sd' (with_ports sd (replace cls p (ports sd n)) n)) = keys (ports sd' n).
Proof.
  rewrite with_ports_ports. destruct (side_eqb sd' sd) eqn:E; [|reflexivity].
  rewrite keys_replace. destruct sd, sd'; simpl in E; try discriminate; reflexivity.
Qed.

Lemma names_ok_with_ports sd n cls l' :
  names_ok n = true ->
  (sd = Inputs -> no_points l' = true) ->
  names_ok (with_ports sd (replace cls {| connections := l' |} (ports sd n)) n) = true.
Proof.
  unfold names_ok. intros H F. apply andb_prop in H as [H Hp].
  apply andb_prop in H as [Hi Ho].
  assert (LR : forall (o : obj port) k v, List.length (replace k v o) = List.length o).
  { intros o k v. rewrite <- (length_map fst (replace k v o)).
    fold (keys (replace k v o)). rewrite keys_replace. apply length_map. }
  destruct sd; simpl.
  - rewrite keys_replace, LR, Hi, Ho. simpl.
    apply (forallb_replace (fun p => no_points (connections p))); auto.
  - rewrite keys_replace, LR, Hi, Ho. simpl. assumption.
Qed.

(** The effect of one update of a connection list on a given node. *)
Lemma node_at_change_conns sd m k cls f g g' l m0 k0 n0 :
  change_conns sd m k cls f g = Some g' ->
  conns_at sd m k cls g = Some l ->
  node_at m0 k0 g = Some n0 ->
  exists n',
    node_at m0 k0 g' = Some n'
    /\ (forall s, keys (ports s n') = keys (ports s n0))
    /\ (node_connections k0 n'
        + (if String.eqb m0 m && String.eqb k0 k then weight sd k0 l else 0)
        = node_connections k0 n0
          + (if String.eqb m0 m && String.eqb k0 k then weight sd k0 (f l) else 0))%nat
    /\ (names_ok n0 = true -> (sd = Inputs -> no_points (f l) = true) ->
        names_ok n' = true).
Proof.
  intros C L N0.
  destruct (conns_at_inv _ _ _ _ _ _ L) as (n & p & N & P & <-).
  unfold change_conns in C. rewrite N, P in C.
  rewrite (node_at_change_node _ _ _ _ _ m0 k0 C), N.
  destruct (String.eqb_spec m0 m) as [->|Nm]; simpl.
  - destruct (String.eqb_spec k0 k) as [->|Nk]; simpl.
    + assert (n0 = n) by congruence. subst n0.
      eexists. split; [reflexivity|]. split; [|split].
      * intro s. apply keys_with_ports_replace.
      * apply node_connections_with_ports. assumption.
      * intros. now apply names_ok_with_ports.
    + exists n0. repeat split; auto.
  - exists n0. repeat split; auto.
Qed.

Lemma no_points_filter P l : no_points l = true -> no_points (filter P l) = true.
Proof.
  unfold no_points. rewrite !forallb_forall. intros H c I.
  apply filter_In in I as [I _]. auto.
Qed.

Lemma node_at_change_conns_inv sd m k cls f g g' m0 k0 n' :
  change_conns sd m k cls f g = Some g' ->
  node_at m0 k0 g' = Some n' -> exists n0, node_at m0 k0 g = Some n0.
Proof.
  intros C N'. unfold change_conns in C.
  destruct (node_at m k g) as [n|] eqn:N; [|discriminate].
  destruct (get cls (ports sd n)); [|discriminate].
  rewrite (node_at_change_node _ _ _ _ _ m0 k0 C) in N'.
  destruct (String.eqb_spec m0 m) as [->|]; simpl in N'; [|eauto].
  destruct (String.eqb_spec k0 k) as [->|]; simpl in N'; eauto.
Qed.

(** An update of a connection list that keeps the entries of input
    ports free of points keeps the naming conditions. *)
Lemma ids_at_change_conns sd m k cls f g g' l :
  change_conns sd m k cls f g = Some g' ->
  conns_at sd m k cls g = Some l ->
  (sd = Inputs -> no_points l = true -> no_points (f l) = true) ->
  ids_at g -> ids_at g'.
Proof.
  intros C L F H m0 k0 n' N'.
  destruct (node_at_change_conns_inv _ _ _ _ _ _ _ _ _ _ C N') as (n0 & N0).
  destruct (node_at_change_conns _ _ _ _ _ _ _ _ _ _ _ C L N0) as (n1 & N1 & K1 & _ & I1).
  assert (n1 = n') by congruence. subst n1.
  destruct (H _ _ _ N0) as (Hc & Hm & Hn).
  split; [assumption|]. split.
  - rewrite <- Hm. apply module_of_skeleton. eapply change_conns_skeleton; eauto.
  - apply I1; [assumption|]. intro S. apply F; [assumption|]. subst sd.
    destruct (conns_at_inv _ _ _ _ _ _ L) as (n & p & N & P & <-).
    destruct (H _ _ _ N) as (_ & _ & Hn').
    eapply names_ok_no_points; eauto.
Qed.

Lemma ids_at_canonical g m md k :
  graph_ok g = true -> ids_at g -> In (m, md) g -> In k (keys (m_data md)) ->
  canonical k = true.
Proof.
  intros OK H Im Ik.
  pose proof (In_get _ _ _ (graph_ok_NoDup _ OK) Im) as G.
  destruct (get k (m_data md)) as [n|] eqn:N.
  - refine (proj1 (H m k n _)). unfold node_at. now rewrite G.
  - apply get_None_keys in N. contradiction.
Qed.

Lemma module_of_toString_at id g :
  graph_ok g = true -> ids_at g -> module_of id g = module_of (IdStr (toString id)) g.
Proof.
  intros OK H. apply module_of_ext. intros m md k Im Ik.
  pose proof (ids_at_canonical _ _ _ _ OK H Im Ik) as C.
  rewrite !loose_eq_canonical by assumption. reflexivity.
Qed.

Lemma module_of_node_at id g m n :
  graph_ok g = true -> ids_at g -> node_at m (toString id) g = Some n ->
  module_of id g = Some m.
Proof.
  intros OK H N. rewrite (module_of_toString_at _ _ OK H).
  exact (proj1 (proj2 (H _ _ _ N))).
Qed.

(** The entries of a symmetric store name existing nodes by their
    canonical keys. *)
Lemma entry_canonical g sd m k cls l c :
  ids_at g -> symmetric_at g -> conns_at sd m k cls g = Some l -> In c l ->
  exists t, c_node c = IdStr t /\ canonical t = true.
Proof.
  intros I S L Ic. destruct (S _ _ _ _ _ _ L Ic) as (t & E & _ & l' & L' & _).
  exists t. split; [assumption|].
  destruct (conns_at_inv _ _ _ _ _ _ L') as (n & _ & N & _).
  exact (proj1 (I _ _ _ N)).
Qed.

Lemma loose_points_to id p c t :
  c_node c = IdStr t -> canonical t = true ->
  loose_eq (c_node c) id && String.eqb (c_port c) p = points_to (toString id) p c.
Proof.
  intros E C. unfold points_to. rewrite E, loose_eq_canonical by assumption.
  reflexivity.
Qed.

(** ** Removing one linked connection *)

Lemma splice_unlink id p l :
  (forall c, In c l -> exists t, c_node c = IdStr t /\ canonical t = true) ->
  count_to (toString id) p l = 1%nat ->
  (exists i, find_index (fun item => loose_eq (c_node item) id
                                     && String.eqb (c_port item) p) l = Some i)
  /\ splice1 (findIndex (fun item => loose_eq (c_node item) id
                                     && String.eqb (c_port item) p) l) l
     = filter (not_to (toString id) p) l.
Proof.
  intros C U.
  assert (X : forall c, In c l ->
                loose_eq (c_node c) id && String.eqb (c_port c) p
                = points_to (toString id) p c).
  { intros c I. destruct (C c I) as (t & E & Ct). now apply loose_points_to with t. }
  destruct (find_index_points_to (toString id) p l) as (i & F); [lia|].
  rewrite (find_index_ext _ _ l X), (findIndex_ext _ _ l X).
  split; [eauto|].
  rewrite (splice1_found _ _ _ F). now apply remove_first_unique.
Qed.

Lemma filter_split_length {A} (P W : A -> bool) w l :
  (forall c, P c = true -> W c = w) ->
  (List.length (filter W (filter (fun c => negb (P c)) l))
   + (if w then List.length (filter P l) else 0)
   = List.length (filter W l))%nat.
Proof.
  intro H. induction l as [|c l IH]; simpl; [now destruct w|].
  destruct (P c) eqn:Pc; simpl.
  - rewrite (H c Pc). destruct w; simpl in *; lia.
  - destruct (W c); simpl; lia.
Qed.

Lemma weight_unlink sd K t q l :
  count_to t q l = 1%nat ->
  (weight sd K (filter (not_to t q) l)
   + (match sd with Outputs => 1 | Inputs => if String.eqb t K then 0 else 1 end)
   = weight sd K l)%nat.
Proof.
  intro U. unfold count_to in U. destruct sd; unfold weight.
  - assert (H := filter_split_length (points_to t q)
                  (fun c => negb (jsid_eqb (c_node c) (IdStr K)))
                  (negb (String.eqb t K)) l).
    rewrite U in H. unfold not_to.
    assert (X : forall c, points_to t q c = true ->
                  negb (jsid_eqb (c_node c) (IdStr K)) = negb (String.eqb t K)).
    { intros c Pc. apply points_to_iff in Pc as [-> _]. reflexivity. }
    specialize (H X). destruct (String.eqb t K); simpl in *; lia.
  - pose proof (filter_split_length (points_to t q) (fun _ => true) true l
                  (fun _ _ => eq_refl)) as H.
    rewrite U in H. unfold not_to.
    rewrite (filter_all (fun _ => true) l) in H by (apply forallb_forall; reflexivity).
    rewrite filter_all in H by (apply forallb_forall; reflexivity). exact H.
Qed.



Lemma count_to_filter_le t q P l : (count_to t q (filter P l) <= count_to t q l)%nat.
Proof.
  unfold count_to. induction l as [|c l IH]; simpl; [lia|].
  destruct (P c); simpl; destruct (points_to t q c); simpl; lia.
Qed.

Lemma port_kind sd n cls p :
  names_ok n = true -> get cls (ports sd n) = Some p -> class_kind cls = kind_of sd.
Proof.
  intros H G. destruct (names_ok_port _ _ _ _ H G) as (j & _ & ->).
  apply port_name_kind.
Qed.

(** [removeSingleConnection] on a connection that both ends record:
    both entries and the element are removed, and everything else is
    kept. *)
Lemma removeSingleConnection_linked sd0 e a b oc ic m lo li :
  stable sd0 m e ->
  conns_at Outputs m (toString a) oc (drawflow e) = Some lo ->
  conns_at Inputs m (toString b) ic (drawflow e) = Some li ->
  count_to (toString b) ic lo = 1%nat ->
  count_to (toString a) oc li = 1%nat ->
  exists e',
    removeSingleConnection a b oc ic e = Ret true e'
    /\ stable sd0 m e'
    /\ module e' = module e
    /\ skeleton (drawflow e') = skeleton (drawflow e)
    /\ (forall sd' m' k' cls',
          conns_at sd' m' k' cls' (drawflow e') =
          if same_path Outputs m (toString a) oc sd' m' k' cls'
          then option_map (filter (not_to (toString b) ic))
                          (conns_at sd' m' k' cls' (drawflow e))
          else if same_path Inputs m (toString b) ic sd' m' k' cls'
               then option_map (filter (not_to (toString a) oc))
                               (conns_at sd' m' k' cls' (drawflow e))
               else conns_at sd' m' k' cls' (drawflow e))
    /\ (forall K n, node_at m K (drawflow e) = Some n ->
          exists n', node_at m K (drawflow e') = Some n'
            /\ (forall s, keys (ports s n') = keys (ports s n))
            /\ (node_connections K n'
                + (if String.eqb K (toString a) || String.eqb K (toString b)
                   then 1 else 0)
                = node_connections K n)%nat)
    /\ frame m e e'.
Proof.
  intros (OK & IDS & SYM & SH) Lo Li Uo Ui.
  destruct (conns_at_inv _ _ _ _ _ _ Lo) as (na & pa & Na & Pa & Ea).
  destruct (conns_at_inv _ _ _ _ _ _ Li) as (nb & pb & Nb & Pb & Eb).
  pose proof (module_of_node_at _ _ _ _ OK IDS Na) as Ma.
  pose proof (module_of_node_at _ _ _ _ OK IDS Nb) as Mb.
  destruct (splice_unlink b ic lo) as ((i & F) & Eq1);
    [intros c I; exact (entry_canonical _ _ _ _ _ _ _ IDS SYM Lo I)|assumption|].
  destruct (splice_unlink a oc li) as (_ & Eq2);
    [intros c I; exact (entry_canonical _ _ _ _ _ _ _ IDS SYM Li I)|assumption|].
  set (X := element_of Outputs (toString a) oc (pointer (toString b) ic)).
  assert (CX : is_connection_element X = true).
  { apply element_of_is_connection.
    - exact (port_kind Outputs na oc pa (proj2 (proj2 (IDS _ _ _ Na))) Pa).
    - exact (port_kind Inputs nb ic pb (proj2 (proj2 (IDS _ _ _ Nb))) Pb). }
  assert (DOM : module e = m ->
                In X (precanvas e)
                /\ forallb is_connection_element (precanvas e) = true).
  { intro Hm. destruct (SH Hm) as (Hc & Hf). split; [|assumption].
    apply count_el_pos. destruct sd0.
    - specialize (Hc _ _ _ (toString a) oc Li).
      rewrite (element_of_mirror Inputs) in Hc. simpl other in Hc. fold X in Hc. lia.
    - specialize (Hc _ _ _ (toString b) ic Lo). fold X in Hc. lia. }
  assert (J : exists j, module e = m ->
                querySelector X (precanvas e) = Some j
                /\ nth_error (precanvas e) j = Some X).
  { destruct (String.eqb_spec (module e) m) as [Hm|Hm].
    - destruct (DOM Hm) as (I & Fa).
      destruct (querySelector_exact X _ CX Fa I) as (j & Q). exists j. auto.
    - exists O. intro. contradiction. }
  destruct J as (j & J).
  destruct (removeSingleConnection_spec e a b oc ic m lo li i j Ma Mb Lo F Li)
    as (g1 & g2 & e' & G1 & G2 & R & D & M & P).
  { intro Hm. exact (proj1 (J Hm)). }
  assert (Li1 : conns_at Inputs m (toString b) ic g1 = Some li).
  { rewrite (conns_at_change _ _ _ _ _ _ _ _ _ _ _ G1). simpl. assumption. }
  assert (V : forall sd' m' k' cls',
          conns_at sd' m' k' cls' (drawflow e') =
          if same_path Outputs m (toString a) oc sd' m' k' cls'
          then option_map (filter (not_to (toString b) ic))
                          (conns_at sd' m' k' cls' (drawflow e))
          else if same_path Inputs m (toString b) ic sd' m' k' cls'
               then option_map (filter (not_to (toString a) oc))
                               (conns_at sd' m' k' cls' (drawflow e))
               else conns_at sd' m' k' cls' (drawflow e)).
  { intros sd' m' k' cls'. rewrite D.
    rewrite (conns_at_change _ _ _ _ _ _ _ sd' m' k' cls' G2).
    rewrite (conns_at_change _ _ _ _ _ _ _ sd' m' k' cls' G1).
    destruct (same_path Outputs m (toString a) oc sd' m' k' cls') eqn:SO.
    - apply same_path_eq in SO as (-> & -> & -> & ->).
      change (same_path Inputs m (toString b) ic Outputs m (toString a) oc) with false.
      cbv iota. rewrite Lo. cbn [option_map]. cbv beta. now rewrite Eq1.
    - destruct (same_path Inputs m (toString b) ic sd' m' k' cls') eqn:SI;
        [|reflexivity].
      apply same_path_eq in SI as (-> & -> & -> & ->).
      rewrite Li1, Li. cbn [option_map]. cbv beta. now rewrite Eq2. }
  exists e'. split; [assumption|].
  split; [|split; [assumption|split; [|split; [|split]]]].
  - (* the invariant *)
    split; [|split; [|split]].
    + rewrite D. eapply graph_ok_change_conns; [exact G2|].
      eapply graph_ok_change_conns; [exact G1|assumption].
    + rewrite D. eapply ids_at_change_conns; [exact G2|exact Li1| |].
      * intros _ NP. cbv beta. rewrite Eq2. now apply no_points_filter.
      * eapply ids_at_change_conns; [exact G1|exact Lo| |assumption].
        intro. discriminate.
    + eapply (symmetric_at_unlink _ _ Outputs m (toString a) oc (toString b) ic);
        [exact SYM|exact V].
    + intro Hm'. assert (Hm : module e = m) by congruence.
      destruct (SH Hm) as (Hc & Hf). destruct (J Hm) as (_ & NJ).
      rewrite P, Hm, String.eqb_refl. split; [|now apply forallb_remove_nth].
      intros k cls l t q L'.
      pose proof (count_el_remove_nth
                    (element_of sd0 k cls (pointer t q)) _ _ _ NJ) as CE.
      rewrite V in L'.
      destruct (class_list_eqb (element_of sd0 k cls (pointer t q)) X) eqn:EX.
      * apply class_list_eqb_eq in EX. unfold X in EX.
        destruct sd0.
        -- change (element_of Outputs (toString a) oc (pointer (toString b) ic))
             with (element_of Inputs (toString b) ic (pointer (toString a) oc)) in EX.
           apply element_of_pointer_inj in EX as (-> & -> & -> & ->).
           change (same_path Outputs m (toString a) oc Inputs m (toString b) ic)
             with false in L'.
           cbv iota in L'. rewrite same_path_refl, Li in L'. simpl in L'.
           injection L' as <-. rewrite count_to_not_to_same. lia.
        -- apply element_of_pointer_inj in EX as (-> & -> & -> & ->).
           rewrite same_path_refl, Lo in L'. simpl in L'. injection L' as <-.
           rewrite count_to_not_to_same. lia.
      * assert (exists l0, conns_at sd0 m k cls (drawflow e) = Some l0
                           /\ (count_to t q l <= count_to t q l0)%nat)
          as (l0 & L0 & Le).
        { destruct (same_path Outputs m (toString a) oc sd0 m k cls).
          - destruct (conns_at sd0 m k cls (drawflow e)) as [l0|]; [|discriminate].
            injection L' as <-. exists l0. split; [reflexivity|].
            apply count_to_filter_le.
          - destruct (same_path Inputs m (toString b) ic sd0 m k cls).
            + destruct (conns_at sd0 m k cls (drawflow e)) as [l0|]; [|discriminate].
              injection L' as <-. exists l0. split; [reflexivity|].
              apply count_to_filter_le.
            + exists l. split; [assumption|lia]. }
        specialize (Hc _ _ _ t q L0). lia.
  - rewrite D. rewrite (change_conns_skeleton _ _ _ _ _ _ _ G2).
    exact (change_conns_skeleton _ _ _ _ _ _ _ G1).
  - exact V.
  - intros K n N.
    destruct (node_at_change_conns _ _ _ _ _ _ _ _ _ _ _ G1 Lo N)
      as (n1 & N1 & K1 & C1 & _).
    destruct (node_at_change_conns _ _ _ _ _ _ _ _ _ _ _ G2 Li1 N1)
      as (n2 & N2 & K2 & C2 & _).
    exists n2. split; [now rewrite D|]. split; [intro s; now rewrite K2|].
    rewrite String.eqb_refl in C1, C2. simpl in C1, C2.
    cbv beta in C1, C2. rewrite Eq1 in C1. rewrite Eq2 in C2.
    pose proof (weight_unlink Outputs K _ _ _ Uo) as W1.
    pose proof (weight_unlink Inputs K _ _ _ Ui) as W2.
    rewrite (String.eqb_sym (toString a) K) in W2.
    destruct (String.eqb K (toString a)), (String.eqb K (toString b));
      simpl in *; lia.
  - split; [assumption|]. split.
    + rewrite D. rewrite (change_conns_skeleton _ _ _ _ _ _ _ G2).
      exact (change_conns_skeleton _ _ _ _ _ _ _ G1).
    + split.
      * intro Hm. rewrite P. destruct (String.eqb_spec (module e) m); [contradiction|].
        reflexivity.
      * intros sd m' k c Nm. rewrite V.
        destruct (same_path Outputs m (toString a) oc sd m' k c) eqn:E1.
        { apply same_path_eq in E1 as (_ & E & _). congruence. }
        destruct (same_path Inputs m (toString b) ic sd m' k c) eqn:E2.
        { apply same_path_eq in E2 as (_ & E & _). congruence. }
        reflexivity.
Qed.

(** ** The first loop of a port removal *)




(** ** The ports of a side after the removal of one *)




















(** ** Renaming the references to the renumbered ports *)

Lemma other_other sd : other (other sd) = sd.
Proof. now destruct sd. Qed.




Section Renaming.

Variables (sd : side) (id : jsid) (m cls : string) (k0 : nat) (g : graph) (n : node).

Hypothesis OK : graph_ok g = true.
Hypothesis IDS : ids_at g.
Hypothesis SYM : symmetric_at g.
Hypothesis NK : node_at m (toString id) g = Some n.
Hypothesis Hcls : cls = prefix_of sd +++ nat_to_string k0.
Hypothesis EMPTY : conns_at sd m (toString id) cls g = Some [].






End Renaming.

(** ** The scan of a remote port *)


Lemma kind_other_neq sd : kind_of sd <> kind_of (other sd).
Proof. destruct sd; discriminate. Qed.
















(** ** The conditions on an editor, as booleans and port by port *)

Lemma ids_at_ids_ok g : graph_ok g = true -> ids_at g -> ids_ok g = true.
Proof.
  intros OK H. unfold ids_ok. apply forallb_forall. intros [m md] Im.
  apply forallb_forall. intros [k n] Ik. simpl.
  pose proof (In_get _ _ _ (graph_ok_NoDup _ OK) Im) as G.
  assert (W : well_formed (m_data md) = true).
  { unfold graph_ok in OK. apply andb_prop in OK as [_ A].
    rewrite forallb_forall in A. specialize (A _ Im). simpl in A.
    unfold module_ok in A. now apply andb_prop in A as [W _]. }
  pose proof (In_get _ _ _ (well_formed_NoDup _ W) Ik) as Gk.
  destruct (H m k n) as (H1 & H2 & H3).
  { unfold node_at. now rewrite G. }
  rewrite H1, H3, H2. simpl. now rewrite String.eqb_refl.
Qed.

Lemma canvas_shown e sd m :
  symmetric_at (drawflow e) -> canvas_ok e = true ->
  (exists md, get m (drawflow e) = Some md) ->
  shown sd m e.
Proof.
  intros SYM C (md & G) Hm. unfold canvas_ok in C. rewrite Hm, G in C.
  apply andb_prop in C as [C Fa]. apply andb_prop in C as [Co Ci].
  split; [|assumption]. intros k cls l t q L.
  assert (Cv : covers sd md (precanvas e) = true) by now destruct sd.
  destruct (Nat.eq_dec (count_to t q l) 0) as [->|NZ]; [lia|].
  assert (P : (0 < count_to t q l)%nat) by lia.
  apply count_to_pos in P as (c & Ic & En & Ep).
  destruct (SYM _ _ _ _ _ _ L Ic) as (t' & Et & U & _).
  assert (t' = t) by congruence. subst t'. rewrite Ep in U. rewrite U.
  assert ((0 < count_el (element_of sd k cls (pointer t q)) (precanvas e))%nat);
    [|lia].
  apply count_el_pos.
  destruct (conns_at_In _ _ _ _ _ _ L) as (md' & n & p & _ & G' & Ik & _ & Ip & <-).
  assert (md' = md) by congruence. subst md'.
  unfold covers in Cv. rewrite forallb_forall in Cv. specialize (Cv _ Ik).
  rewrite forallb_forall in Cv. specialize (Cv _ Ip).
  rewrite forallb_forall in Cv. specialize (Cv _ Ic). simpl in Cv.
  apply existsb_exists in Cv as (x & Ix & Ex). apply class_list_eqb_eq in Ex.
  rewrite (element_of_pointer sd k cls c t En), Ep in Ex. now subst x.
Qed.

Lemma shown_covers e sd md :
  graph_ok (drawflow e) = true -> symmetric_at (drawflow e) ->
  get (module e) (drawflow e) = Some md ->
  shown sd (module e) e -> covers sd md (precanvas e) = true.
Proof.
  intros OK SYM G SH. destruct (SH eq_refl) as (Hc & _).
  unfold covers. apply forallb_forall. intros [k n] Ik.
  apply forallb_forall. intros [cls p] Ip.
  apply forallb_forall. intros c Ic. simpl.
  pose proof (In_conns_at sd _ _ _ _ _ _ _ OK (get_In _ _ _ G) Ik Ip) as L.
  destruct (SYM _ _ _ _ _ _ L Ic) as (t & Et & U & _).
  specialize (Hc _ _ _ t (c_port c) L). rewrite U in Hc.
  assert (I : In (element_of sd k cls (pointer t (c_port c))) (precanvas e)).
  { apply count_el_pos. lia. }
  apply existsb_exists. exists (element_of sd k cls c). split.
  - now rewrite (element_of_pointer sd k cls c t Et).
  - apply class_list_eqb_refl.
Qed.

(** The boolean conditions give the conditions port by port, for the
    module of any stored node. *)
Lemma consistent_stable e sd m :
  consistent e = true -> (exists md, get m (drawflow e) = Some md) ->
  stable sd m e.
Proof.
  unfold consistent. intros C G.
  apply andb_prop in C as [C C4]. apply andb_prop in C as [C C3].
  apply andb_prop in C as [C1 C2].
  pose proof (symmetric_symmetric_at _ C3) as SYM.
  split; [assumption|]. split; [now apply ids_ok_ids_at|]. split; [assumption|].
  now apply canvas_shown.
Qed.

Lemma stable_consistent e :
  stable Outputs (module e) e -> stable Inputs (module e) e -> consistent e = true.
Proof.
  intros (OK & IDS & SYM & SHo) (_ & _ & _ & SHi). unfold consistent.
  rewrite OK, (ids_at_ids_ok _ OK IDS), (symmetric_at_symmetric _ OK SYM). simpl.
  unfold canvas_ok. destruct (get (module e) (drawflow e)) as [md|] eqn:G;
    [|reflexivity].
  rewrite (shown_covers e Outputs md OK SYM G SHo),
          (shown_covers e Inputs md OK SYM G SHi).
  simpl. exact (proj2 (SHo eq_refl)).
Qed.

Lemma node_at_module m k g n :
  node_at m k g = Some n -> exists md, get m g = Some md.
Proof. unfold node_at. destruct (get m g) as [md|]; [eauto|discriminate]. Qed.

(** ** Deleting a port and renumbering the others *)








Lemma node_ok_fields sd o n :
  node_ok n = true -> well_formed o = true -> node_ok (with_ports sd o n) = true.
Proof. intros H W. now apply node_ok_with_ports. Qed.




(** ** The remote ports that are scanned *)







Section Updates.

Variables (sd : side) (id : jsid) (m cls : string) (k0 : nat) (g : graph) (n : node).

Hypothesis OK : graph_ok g = true.
Hypothesis IDS : ids_at g.
Hypothesis SYM : symmetric_at g.
Hypothesis NK : node_at m (toString id) g = Some n.
Hypothesis Hcls : cls = prefix_of sd +++ nat_to_string k0.
Hypothesis EMPTY : conns_at sd m (toString id) cls g = Some [].








End Updates.

(** ** Assembling the removal of a port *)


(** The entries of side [sd] are shown when those of the other side
    are. *)
Lemma shown_mirror sd m e :
  symmetric_at (drawflow e) -> shown (other sd) m e -> shown sd m e.
Proof.
  intros SYM SH Hm. destruct (SH Hm) as (Hc & Hf). split; [|assumption].
  intros k cls l t q L.
  destruct (Nat.eq_dec (count_to t q l) 0) as [->|NZ]; [lia|].
  assert (P : (0 < count_to t q l)%nat) by lia.
  apply count_to_pos in P as (c & Ic & En & Ep).
  destruct (SYM _ _ _ _ _ _ L Ic) as (t' & Et & U & l' & L' & U').
  assert (t' = t) by congruence. subst t'. rewrite Ep in *.
  specialize (Hc _ _ _ k cls L').
  rewrite <- (element_of_mirror sd k cls t q) in Hc. lia.
Qed.

Lemma canvas_of_shown e :
  graph_ok (drawflow e) = true -> symmetric_at (drawflow e) ->
  shown Outputs (module e) e -> shown Inputs (module e) e ->
  (exists md, get (module e) (drawflow e) = Some md) ->
  canvas_ok e = true.
Proof.
  intros OK SYM SHo SHi (md & G). unfold canvas_ok. rewrite G.
  rewrite (shown_covers e Outputs md OK SYM G SHo),
          (shown_covers e Inputs md OK SYM G SHi).
  simpl. exact (proj2 (SHo eq_refl)).
Qed.

Lemma skeleton_get {V : Type} (g g' : graph) m :
  skeleton g' = skeleton g -> get m g = None -> get m g' = None.
Proof.
  intros S G. apply get_None_keys. apply get_None_keys in G.
  assert (E : keys g' = keys g).
  { unfold keys. unfold skeleton in S.
    apply (f_equal (map fst)) in S. rewrite !map_map in S. exact S. }
  now rewrite E.
Qed.

(** An operation on the nodes of another module than the active one
    keeps the canvas consistent. *)
Lemma frame_canvas m e e' :
  frame m e e' -> module e <> m ->
  graph_ok (drawflow e') = true -> symmetric_at (drawflow e') ->
  symmetric_at (drawflow e) -> canvas_ok e = true ->
  canvas_ok e' = true.
Proof.
  intros (M & S & P & V) Nm OK' SYM' SYM C.
  destruct (get (module e) (drawflow e)) as [md|] eqn:G.
  - destruct (get (module e') (drawflow e')) as [md'|] eqn:G';
      [|unfold canvas_ok; now rewrite G'].
    assert (SH : forall sd, shown sd (module e') e').
    { intro sd. pose proof (canvas_shown e sd (module e) SYM C (ex_intro _ md G)) as SH.
      destruct (SH eq_refl) as (Hc & Hf). intros _. rewrite (P Nm).
      split; [|assumption]. intros k cls l t q L.
      rewrite M, V in L by assumption. eauto. }
    apply canvas_of_shown; eauto.
  - unfold canvas_ok. rewrite M, (skeleton_get (V:=unit) _ _ _ S G). reflexivity.
Qed.




Lemma list_sum_values {V} (w : V -> nat) (o : obj V) :
  list_sum (map (fun kv => w (snd kv)) o) = list_sum (map w (map snd o)).
Proof. now rewrite map_map. Qed.


(** The count of a node depends on the lists of its ports only. *)
Lemma node_connections_values K n n' :
  map snd (n_outputs n') = map snd (n_outputs n) ->
  map snd (n_inputs n') = map snd (n_inputs n) ->
  node_connections K n' = node_connections K n.
Proof.
  intros Eo Ei. rewrite !node_connections_weight.
  rewrite !(list_sum_values (fun p => weight Outputs K (connections p))).
  rewrite !(list_sum_values (fun p => weight Inputs K (connections p))).
  now rewrite Eo, Ei.
Qed.





(** ** Consistency after an operation on the nodes of one module *)

Lemma consistent_parts e :
  consistent e = true ->
  graph_ok (drawflow e) = true /\ ids_at (drawflow e)
  /\ symmetric_at (drawflow e) /\ canvas_ok e = true.
Proof.
  unfold consistent. intro C.
  apply andb_prop in C as [C C4]. apply andb_prop in C as [C C3].
  apply andb_prop in C as [C1 C2].
  auto using ids_ok_ids_at, symmetric_symmetric_at.
Qed.

Lemma frame_consistent m e e' sd0 :
  consistent e = true -> frame m e e' ->
  graph_ok (drawflow e') = true -> ids_at (drawflow e') ->
  symmetric_at (drawflow e') -> shown sd0 m e' ->
  (exists md, get m (drawflow e') = Some md) ->
  consistent e' = true.
Proof.
  intros C FR OK' IDS' SYM' SH' G'.
  destruct (consistent_parts e C) as (OK & IDS & SYM & Cv).
  unfold consistent.
  rewrite OK', (ids_at_ids_ok _ OK' IDS'), (symmetric_at_symmetric _ OK' SYM').
  simpl.
  assert (ME : module e' = module e) by exact (proj1 FR).
  destruct (String.eqb_spec (module e) m) as [Hm|Hm].
  - assert (SHs : forall s, shown s (module e') e').
    { intro s. rewrite ME, Hm.
      assert (X : s = sd0 \/ s = other sd0) by (destruct s, sd0; auto).
      destruct X as [-> | ->]; [assumption|].
      apply shown_mirror; [assumption|]. now rewrite other_other. }
    apply canvas_of_shown; auto. now rewrite ME, Hm.
  - exact (frame_canvas m e e' FR Hm OK' SYM' SYM Cv).
Qed.

Lemma existsb_points_to t q l :
  existsb (points_to t q) l = true <-> (0 < count_to t q l)%nat.
Proof.
  rewrite count_to_pos, existsb_exists. split.
  - intros (c & I & P). apply points_to_iff in P. eauto.
  - intros (c & I & P). exists c. split; [assumption|]. now apply points_to_iff.
Qed.

(** ** Adding one connection *)






Lemma existsb_loose_points_to g sd m k cls l id p :
  ids_at g -> symmetric_at g -> conns_at sd m k cls g = Some l ->
  existsb (fun c => loose_eq (c_node c) id && String.eqb (c_port c) p) l
  = existsb (points_to (toString id) p) l.
Proof.
  intros IDS SYM L.
  assert (H : forall c, In c l -> exists t, c_node c = IdStr t /\ canonical t = true).
  { intros c I. exact (entry_canonical _ _ _ _ _ _ _ IDS SYM L I). }
  clear L. induction l as [|c l IH]; simpl; [reflexivity|].
  destruct (H c (or_introl eq_refl)) as (t & E & Ct).
  rewrite (loose_points_to id p c t E Ct), IH; [reflexivity|].
  intros; apply H; now right.
Qed.




(** ** The module of a node *)

Lemma inner_fold_holds (P : string -> bool) (m : string) ks acc :
  fold_left (fun nm k => if P k then Some m else nm) ks acc
  = if existsb P ks then Some m else acc.
Proof.
  revert acc. induction ks as [|k ks IH]; intro acc; simpl; [reflexivity|].
  rewrite IH. destruct (P k); simpl; [|reflexivity].
  now destruct (existsb P ks).
Qed.

Lemma module_of_fold id g :
  module_of id g
  = fold_left (fun (acc : option string) (mod_ : string * module_t) =>
                 if existsb (fun k => loose_eq (IdStr k) id) (keys (m_data (snd mod_)))
                 then Some (fst mod_) else acc)
              g None.
Proof.
  unfold module_of. generalize (@None string) as acc.
  induction g as [|[m md] g IH]; intro acc; simpl; [reflexivity|].
  rewrite IH. f_equal. apply inner_fold_holds.
Qed.

Lemma holders_fold_Some id g acc m :
  fold_left (fun (acc : option string) (mod_ : string * module_t) =>
               if existsb (fun k => loose_eq (IdStr k) id) (keys (m_data (snd mod_)))
               then Some (fst mod_) else acc)
            g acc = Some m ->
  acc = Some m
  \/ exists md, In (m, md) g
       /\ existsb (fun k => loose_eq (IdStr k) id) (keys (m_data md)) = true.
Proof.
  revert acc. induction g as [|[m1 md1] g IH]; intro acc; simpl; [auto|].
  intro H. destruct (IH _ H) as [E|(md & I & X)].
  - destruct (existsb _ (keys (m_data md1))) eqn:X; [|auto].
    injection E as ->. right. exists md1. auto.
  - right. exists md. auto.
Qed.

Lemma holders_fold_all id g m :
  (forall m' md', In (m', md') g ->
     existsb (fun k => loose_eq (IdStr k) id) (keys (m_data md')) = true -> m' = m) ->
  forall acc,
    (acc = Some m
     \/ exists md, In (m, md) g
          /\ existsb (fun k => loose_eq (IdStr k) id) (keys (m_data md)) = true) ->
    fold_left (fun (acc : option string) (mod_ : string * module_t) =>
                 if existsb (fun k => loose_eq (IdStr k) id) (keys (m_data (snd mod_)))
                 then Some (fst mod_) else acc)
              g acc = Some m.
Proof.
  induction g as [|[m1 md1] g IH]; intros U acc H; simpl.
  - destruct H as [H|(md & [] & _)]. exact H.
  - apply IH; [intros; eapply U; eauto; now right|].
    destruct (existsb _ (keys (m_data md1))) eqn:X.
    + left. f_equal. apply (U m1 md1); [now left|assumption].
    + destruct H as [H|(md & [E|I] & Y)]; [auto| |right; eauto].
      injection E as -> ->. simpl in *. congruence.
Qed.

(** The module that [getModuleFromNodeId] returns holds a key equal to
    the identifier. *)
Lemma module_of_Some id g m :
  module_of id g = Some m ->
  exists md k, In (m, md) g /\ In k (keys (m_data md))
               /\ loose_eq (IdStr k) id = true.
Proof.
  rewrite module_of_fold. intro H.
  destruct (holders_fold_Some _ _ _ _ H) as [E|(md & I & X)]; [discriminate|].
  apply existsb_exists in X as (k & Ik & Ek). eauto.
Qed.

(** [module_of], for a key that one module only holds. *)
Lemma module_of_unique id g m md k :
  In (m, md) g -> In k (keys (m_data md)) -> loose_eq (IdStr k) id = true ->
  (forall m' md' k', In (m', md') g -> In k' (keys (m_data md')) ->
                     loose_eq (IdStr k') id = true -> m' = m) ->
  module_of id g = Some m.
Proof.
  intros I Ik E U. rewrite module_of_fold. apply holders_fold_all.
  - intros m' md' I' X. apply existsb_exists in X as (k' & Ik' & Ek'). eauto.
  - right. exists md. split; [assumption|]. apply existsb_exists. eauto.
Qed.

Lemma In_keys_get {V} k (o : obj V) : In k (keys o) -> exists v, get k o = Some v.
Proof.
  intro I. destruct (get k o) as [v|] eqn:G; [eauto|].
  apply get_None_keys in G. contradiction.
Qed.

(** On a well-formed store with canonical keys, the module that
    [getModuleFromNodeId] returns is the one that has the node under
    the key [id.toString()]. *)
Lemma module_of_iff id g m :
  graph_ok g = true -> ids_at g ->
  (module_of id g = Some m <-> exists n, node_at m (toString id) g = Some n).
Proof.
  intros OK IDS. split.
  - intro H. destruct (module_of_Some _ _ _ H) as (md & k & I & Ik & E).
    pose proof (ids_at_canonical _ _ _ _ OK IDS I Ik) as Ck.
    rewrite (loose_eq_canonical _ _ Ck) in E. apply String.eqb_eq in E. subst k.
    destruct (In_keys_get _ _ Ik) as (n & G). exists n.
    unfold node_at. now rewrite (In_get _ _ _ (graph_ok_NoDup _ OK) I).
  - intros (n & N). exact (module_of_node_at _ _ _ _ OK IDS N).
Qed.

Lemma module_of_None id g :
  graph_ok g = true -> ids_at g ->
  (forall m, node_at m (toString id) g = None) -> module_of id g = None.
Proof.
  intros OK IDS H. destruct (module_of id g) as [m|] eqn:E; [|reflexivity].
  apply (module_of_iff id g m OK IDS) in E as (n & N). rewrite H in N. discriminate.
Qed.

(** ** Assignment to a property keeps an object well formed *)

Lemma In_insert_index {V} n k (v : V) o x :
  In x (insert_index n k v o) <-> x = (k, v) \/ In x o.
Proof.
  induction o as [|[k1 v1] o IH]; simpl.
  - intuition.
  - destruct (array_index k1) as [m|]; [destruct (m <? n)%nat|]; simpl;
      rewrite ?IH; intuition.
Qed.

Lemma In_replace {V} k (v : V) o x : In x (replace k v o) -> x = (k, v) \/ In x o.
Proof.
  induction o as [|[k1 v1] o IH]; simpl; [tauto|].
  destruct (String.eqb_spec k k1) as [->|N]; simpl; intuition.
Qed.

Lemma In_set {V} k (v : V) o x : In x (set k v o) -> x = (k, v) \/ In x o.
Proof.
  unfold set. destruct (has k o).
  - apply In_replace.
  - destruct (array_index k) as [n|].
    + apply In_insert_index.
    + intro I. apply in_app_or in I as [I|[<-|[]]]; auto.
Qed.

Lemma In_set_other {V} k (v : V) o x : In x o -> fst x <> k -> In x (set k v o).
Proof.
  intros I N. unfold set. destruct (has k o).
  - clear -I N. destruct x as [a b]. simpl in N.
    induction o as [|[k1 v1] o IH]; simpl in *; [tauto|].
    destruct I as [E|I].
    + injection E as -> ->.
      destruct (String.eqb_spec k a); [congruence|now left].
    + destruct (String.eqb_spec k k1); [right; assumption|right; auto].
  - destruct (array_index k) as [n|].
    + apply In_insert_index. now right.
    + apply in_or_app. now left.
Qed.


Lemma forallb_set {V} (P : V -> bool) k v (o : obj V) :
  P v = true -> forallb (fun kv => P (snd kv)) o = true ->
  forallb (fun kv => P (snd kv)) (set k v o) = true.
Proof.
  intros Pv H. apply forallb_forall. intros x I.
  apply In_set in I as [->|I]; [exact Pv|].
  rewrite forallb_forall in H. auto.
Qed.

Lemma ordered_from_snoc lo ni ks k :
  ordered_from lo ni ks = true -> array_index k = None ->
  ordered_from lo ni (ks ++ [k]) = true.
Proof.
  revert lo ni. induction ks as [|k1 ks IH]; intros lo ni H E; simpl in *.
  - now rewrite E.
  - destruct (array_index k1) as [m|].
    + apply andb_prop in H as [H1 H2]. rewrite H1. simpl. auto.
    + auto.
Qed.

Lemma ordered_from_true_any lo lo' ks :
  ordered_from lo true ks = ordered_from lo' true ks.
Proof.
  revert lo lo'. induction ks as [|k ks IH]; intros lo lo'; simpl; [reflexivity|].
  destruct (array_index k); [reflexivity|apply IH].
Qed.

Lemma array_index_inj k k' n :
  array_index k = Some n -> array_index k' = Some n -> k = k'.
Proof.
  unfold array_index. intros H H'.
  destruct (starts_with_digit k && all_digits k); [|discriminate].
  destruct (starts_with_digit k' && all_digits k'); [|discriminate].
  destruct (String.eqb_spec (nat_to_string (digits_prefix k 0)) k) as [E|];
    [|discriminate].
  destruct (String.eqb_spec (nat_to_string (digits_prefix k' 0)) k') as [E'|];
    [|discriminate].
  simpl in H, H'.
  destruct (Z.of_nat (digits_prefix k 0) <? 4294967295); [|discriminate].
  destruct (Z.of_nat (digits_prefix k' 0) <? 4294967295); [|discriminate].
  injection H as H. injection H' as H'. congruence.
Qed.

Lemma ordered_insert_index {V} n k (v : V) :
  array_index k = Some n ->
  forall o lo,
    ~ In k (keys o) ->
    match lo with Some m => (m < n)%nat | None => True end ->
    ordered_from lo false (keys o) = true ->
    ordered_from lo false (keys (insert_index n k v o)) = true.
Proof.
  intros E. induction o as [|[k1 v1] o IH]; intros lo NI L H; simpl in *.
  - rewrite E. simpl. destruct lo as [m|]; [|reflexivity].
    apply Nat.ltb_lt in L. now rewrite L.
  - assert (Lb : match lo with Some m => (m <? n)%nat | None => true end = true).
    { destruct lo as [m|]; [now apply Nat.ltb_lt|reflexivity]. }
    destruct (array_index k1) as [m|] eqn:E1.
    + apply andb_prop in H as [H1 H2]. simpl in H1.
      destruct (Nat.ltb_spec m n) as [Lt|Ge]; simpl.
      * rewrite E1, H1. simpl. apply IH; [tauto|assumption|assumption].
      * rewrite E, Lb, E1. simpl.
        assert (n <> m).
        { intros ->. apply NI. left. symmetry. eapply array_index_inj; eauto. }
        assert (Lt : (n <? m)%nat = true) by (apply Nat.ltb_lt; lia).
        now rewrite Lt.
    + simpl. rewrite E, Lb. simpl. rewrite E1.
      now rewrite (ordered_from_true_any (Some n) lo).
Qed.

Lemma NoDup_keys_insert_index {V} n k (v : V) o :
  ~ In k (keys o) -> NoDup (keys o) -> NoDup (keys (insert_index n k v o)).
Proof.
  induction o as [|[k1 v1] o IH]; simpl; intros NI ND.
  - constructor; [tauto|constructor].
  - inversion ND as [|? ? N1 ND']; subst.
    assert (X : NoDup (k :: k1 :: keys o)).
    { constructor; [simpl; tauto|assumption]. }
    destruct (array_index k1) as [m|]; [destruct (m <? n)%nat|]; simpl; try exact X.
    constructor; [|apply IH; tauto].
    intro I. unfold keys in I. apply in_map_iff in I as ([a b] & Ea & I).
    simpl in Ea. subst a. apply In_insert_index in I as [Eq|I].
    + injection Eq as -> _. apply NI. now left.
    + apply N1. unfold keys. apply in_map_iff. exists (k1, b). auto.
Qed.

Lemma well_formed_set {V} k (v : V) o :
  well_formed o = true -> well_formed (set k v o) = true.
Proof.
  intro W. unfold set. destruct (has k o) eqn:H.
  - now rewrite well_formed_replace.
  - apply has_false in H.
    pose proof (well_formed_NoDup _ W) as ND.
    unfold well_formed in W. apply andb_prop in W as [_ OR].
    destruct (array_index k) as [n|] eqn:E.
    + unfold well_formed.
      rewrite (NoDup_distinct _ (NoDup_keys_insert_index n k v o H ND)). simpl.
      now apply ordered_insert_index.
    + assert (K : keys (o ++ [(k, v)]) = keys o ++ [k]).
      { unfold keys. now rewrite map_app. }
      unfold well_formed. rewrite K.
      rewrite (ordered_from_snoc _ _ _ _ OR E), andb_true_r.
      apply NoDup_distinct. apply NoDup_app; [assumption|repeat constructor; tauto|].
      intros a Ia [<-|[]]. contradiction.
Qed.
(** ** Standard keys *)




Lemma decimal_key_text k :
  decimal_key k = true ->
  exists n, k = nat_to_string n /\ Z.of_nat n <= max_safe.
Proof.
  unfold decimal_key. intro H.
  apply andb_prop in H as [H B]. apply andb_prop in H as [_ E].
  apply String.eqb_eq in E. apply Z.leb_le in B.
  exists (digits_prefix k 0). split; [now symmetry|assumption].
Qed.









Lemma standard_keys_skeleton g g' :
  skeleton g' = skeleton g -> standard_keys g = true -> standard_keys g' = true.
Proof. unfold standard_keys. now intros ->. Qed.

(** ** Adding a node *)
























Lemma In_node_at m md k g :
  graph_ok g = true -> In (m, md) g -> In k (keys (m_data md)) ->
  exists n, node_at m k g = Some n.
Proof.
  intros OK I Ik. unfold node_at.
  rewrite (In_get _ _ _ (graph_ok_NoDup _ OK) I). now apply In_keys_get.
Qed.

Lemma node_at_In m k g n :
  node_at m k g = Some n ->
  exists md, In (m, md) g /\ In k (keys (m_data md)).
Proof.
  unfold node_at. destruct (get m g) as [md|] eqn:G; [|discriminate]. intro N.
  exists md. split; [now apply get_In|]. eapply get_Some_keys; eauto.
Qed.




(** A store that receives a node under a key that no module has. *)
Section FreshNode.

Variables (m key : string) (n : node) (g g' : graph).
Hypothesis OK : graph_ok g = true.
Hypothesis OK' : graph_ok g' = true.
Hypothesis IDS : ids_at g.
Hypothesis FRESH : forall m', node_at m' key g = None.
Hypothesis NA : forall m' k', node_at m' k' g'
  = if String.eqb m' m && String.eqb k' key then Some n else node_at m' k' g.





Hypothesis EMPTY : forall sd cls p, get cls (ports sd n) = Some p -> connections p = [].



End FreshNode.







Lemma renders_data cls data html tn : renders cls data html tn = true -> data <> JNull.
Proof.
  unfold renders, binds. intros H ->. rewrite andb_false_r in H. discriminate.
Qed.


(** ** Adding a port *)




(** ** Keys as names *)

Lemma standard_keys_frame m e e' :
  frame m e e' -> standard_keys (drawflow e) = true -> standard_keys (drawflow e') = true.
Proof. intros (_ & SK & _). now apply standard_keys_skeleton. Qed.

Lemma plain_name_digits u :
  forallb name_char (list_ascii_of_string (NilEmpty.string_of_uint u)) = true.
Proof.
  induction u as [|u IH|u IH|u IH|u IH|u IH|u IH|u IH|u IH|u IH|u IH];
    try reflexivity; simpl; exact IH.
Qed.

Lemma plain_name_nat n : plain_name (nat_to_string n) = true.
Proof.
  unfold plain_name, nat_to_string, NilZero.string_of_uint.
  destruct (Nat.to_uint n); try reflexivity; apply plain_name_digits.
Qed.

Lemma plain_name_Z z : plain_name (Z_to_string z) = true.
Proof.
  unfold Z_to_string. destruct (z <? 0); [|apply plain_name_nat].
  unfold plain_name. simpl. apply plain_name_nat.
Qed.

(** ** Loading a module onto the canvas *)







Lemma drawable_node m k n g :
  drawable g = true -> node_at m k g = Some n ->
  toString (n_id n) = k
  /\ renders (n_class n) (n_data n) (n_html n) (n_typenode n) = true.
Proof.
  unfold drawable, node_at. intros D N.
  destruct (get m g) as [md|] eqn:G; [|discriminate].
  rewrite forallb_forall in D. specialize (D _ (get_In _ _ _ G)). simpl in D.
  rewrite forallb_forall in D. specialize (D _ (get_In _ _ _ N)). simpl in D.
  apply andb_prop in D as [D1 D2]. apply String.eqb_eq in D1. auto.
Qed.








(** ** Stores that lose the nodes of one module *)

Section Emptied.

Variables (name : string) (g g' : graph).
Hypothesis OK' : graph_ok g' = true.
Hypothesis IDS : ids_at g.
Hypothesis SYM : symmetric_at g.
Hypothesis NA : forall m k,
  node_at m k g' = if String.eqb m name then None else node_at m k g.

Lemma emptied_node m k n :
  node_at m k g' = Some n -> m <> name /\ node_at m k g = Some n.
Proof.
  rewrite NA. destruct (String.eqb_spec m name); [discriminate|auto].
Qed.

Lemma emptied_conns sd m k cls :
  conns_at sd m k cls g' = if String.eqb m name then None else conns_at sd m k cls g.
Proof.
  unfold conns_at. rewrite NA. now destruct (String.eqb m name).
Qed.

Lemma emptied_ids : ids_at g'.
Proof.
  intros m k n N'. destruct (emptied_node _ _ _ N') as (Nm & N).
  destruct (IDS _ _ _ N) as (C & M & NO). split; [assumption|].
  split; [|assumption].
  destruct (node_at_In _ _ _ _ N') as (md' & I' & Ik').
  apply (module_of_unique (IdStr k) g' m md' k I' Ik'); [apply String.eqb_refl|].
  intros m2 md2 k2 I2 Ik2 E. simpl in E. apply String.eqb_eq in E. subst k2.
  destruct (In_node_at _ _ _ _ OK' I2 Ik2) as (n2 & N2).
  destruct (emptied_node _ _ _ N2) as (_ & N2o).
  destruct (IDS _ _ _ N2o) as (_ & M2 & _). congruence.
Qed.

Lemma emptied_symmetric : symmetric_at g'.
Proof.
  intros sd m k cls l c L I. rewrite emptied_conns in L.
  destruct (String.eqb_spec m name) as [|Nm]; [discriminate|].
  destruct (SYM _ _ _ _ _ _ L I) as (t & Et & U & l' & L' & U').
  exists t. split; [assumption|]. split; [assumption|].
  exists l'. split; [|assumption]. rewrite emptied_conns.
  destruct (String.eqb_spec m name); [contradiction|assumption].
Qed.

End Emptied.

Lemma module_ok_empty : module_ok {| m_data := [] |} = true.
Proof. reflexivity. Qed.

(** The store after [g[name] = {data: {}}]. *)
Lemma set_empty_module name g :
  graph_ok g = true -> ids_at g -> symmetric_at g ->
  graph_ok (set name {| m_data := [] |} g) = true
  /\ ids_at (set name {| m_data := [] |} g)
  /\ symmetric_at (set name {| m_data := [] |} g)
  /\ (forall m k, node_at m k (set name {| m_data := [] |} g)
        = if String.eqb m name then None else node_at m k g).
Proof.
  intros OK IDS SYM.
  assert (NA : forall m k, node_at m k (set name {| m_data := [] |} g)
                 = if String.eqb m name then None else node_at m k g).
  { intros m k. unfold node_at. rewrite get_set.
    now destruct (String.eqb m name). }
  assert (OK' : graph_ok (set name {| m_data := [] |} g) = true).
  { unfold graph_ok in *. apply andb_prop in OK as [W A].
    rewrite (well_formed_set _ _ _ W). simpl.
    now apply (forallb_set module_ok). }
  split; [assumption|]. split; [|split; [|assumption]].
  - now apply (emptied_ids name g).
  - now apply (emptied_symmetric name g).
Qed.


(** ** The shape of the identifiers of the uuid policy *)

Lemma concat_singletons (f : nat -> string) (ch : nat -> ascii) l :
  (forall i, In i l -> f i = String (ch i) "") ->
  String.concat "" (map f l) = string_of_list_ascii (map ch l).
Proof.
  induction l as [|a l IH]; intro H; [reflexivity|].
  cbn [map string_of_list_ascii]. rewrite <- IH by (intros; apply H; now right).
  rewrite (H a (or_introl eq_refl)).
  destruct l as [|b l]; reflexivity.
Qed.

Lemma get_string_of_list l i :
  String.get i (string_of_list_ascii l) = nth_error l i.
Proof.
  revert i. induction l as [|c l IH]; intros [|i]; simpl; auto.
Qed.

Lemma length_string_of_list l :
  String.length (string_of_list_ascii l) = List.length l.
Proof. induction l; simpl; congruence. Qed.

Lemma hex_digit_char d :
  (d < 16)%nat -> exists c, hex_digit d = String c "" /\ is_hex c = true.
Proof.
  intro H. do 16 (destruct d as [|d]; [eexists; split; reflexivity|]). lia.
Qed.

Lemma variant_digit_char d :
  (d < 16)%nat ->
  exists c,
    hex_digit (Nat.lor (Nat.land (if (d <? 10)%nat then d else O) 3) 8) = String c ""
    /\ (Ascii.eqb c "8" || Ascii.eqb c "9" || Ascii.eqb c "a" || Ascii.eqb c "b")
       = true.
Proof.
  intro H. do 16 (destruct d as [|d]; [eexists; split; reflexivity|]). lia.
Qed.

Lemma uuid_shape_chars (f : nat -> string) :
  (forall i, (i < 36)%nat -> exists c, f i = String c "" /\ uuid_char_ok i c = true) ->
  uuid_shape (String.concat "" (map f (seq 0 36))) = true.
Proof.
  intro H.
  set (ch := fun i => match f i with String c _ => c | EmptyString => "0"%char end).
  assert (E : forall i, In i (seq 0 36) -> f i = String (ch i) "").
  { intros i I. apply in_seq in I. destruct (H i) as (c & F & _); [lia|].
    unfold ch. now rewrite F. }
  rewrite (concat_singletons f ch _ E). unfold uuid_shape.
  rewrite length_string_of_list, length_map, length_seq. simpl Nat.eqb. cbv iota.
  cbn [andb]. apply forallb_forall. intros i I. apply in_seq in I.
  rewrite get_string_of_list, nth_error_map, nth_error_seq.
  destruct (Nat.ltb_spec i 36) as [L|L]; [|lia]. simpl.
  destruct (H i L) as (c & F & K). unfold ch. now rewrite F.
Qed.

Lemma getUuid_shape e :
  exists u,
    getUuid e = Ret u (set_random_calls (random_calls e + 36) e)
    /\ uuid_shape u = true.
Proof.
  eexists. split; [reflexivity|]. apply uuid_shape_chars. intros i Hi.
  assert (D : forall n, (n mod 16 < 16)%nat) by (intro; apply Nat.mod_upper_bound; lia).
  destruct ((i =? 8) || (i =? 13) || (i =? 18) || (i =? 23))%nat eqn:S.
  - exists "-"%char. unfold uuid_char_ok. rewrite S. split; reflexivity.
  - destruct (i =? 14)%nat eqn:V.
    + exists "4"%char. unfold uuid_char_ok. rewrite S, V. split; reflexivity.
    + destruct (i =? 19)%nat eqn:W.
      * destruct (variant_digit_char _ (D (random e (random_calls e + 19)%nat)))
          as (c & F & K).
        exists c. unfold uuid_char_ok. rewrite S, V, W. split; assumption.
      * destruct (hex_digit_char _ (D (random e (random_calls e + i)%nat)))
          as (c & F & K).
        exists c. unfold uuid_char_ok. rewrite S, V, W. split; assumption.
Qed.

Lemma is_hex_name_char c : is_hex c = true -> name_char c = true.
Proof.
  unfold is_hex, name_char. intro H.
  apply orb_prop in H as [H|H]; apply andb_prop in H as [H1 H2].
  - now rewrite H1, H2.
  - rewrite H1. apply Nat.leb_le in H2.
    assert (X : (nat_of_ascii c <=? 122)%nat = true) by (apply Nat.leb_le; lia).
    rewrite X. simpl. now rewrite !orb_true_r.
Qed.

Lemma uuid_char_name i c : uuid_char_ok i c = true -> name_char c = true.
Proof.
  unfold uuid_char_ok.
  destruct ((i =? 8) || (i =? 13) || (i =? 18) || (i =? 23))%nat.
  - intro H. apply Ascii.eqb_eq in H. now subst.
  - destruct (i =? 14)%nat.
    + intro H. apply Ascii.eqb_eq in H. now subst.
    + destruct (i =? 19)%nat; [|apply is_hex_name_char].
      intro H. repeat (apply orb_prop in H as [H|H]);
        apply Ascii.eqb_eq in H; now subst.
Qed.

Lemma In_get_string u : forall c,
  In c (list_ascii_of_string u) ->
  exists i, (i < String.length u)%nat /\ String.get i u = Some c.
Proof.
  induction u as [|a u IH]; intros c I; simpl in *; [contradiction|].
  destruct I as [->|I].
  - exists O. split; [lia|reflexivity].
  - destruct (IH c I) as (i & L & G). exists (S i). split; [lia|exact G].
Qed.

(** An identifier of the uuid shape is a plain name. *)
Lemma uuid_shape_plain u : uuid_shape u = true -> plain_name u = true.
Proof.
  unfold uuid_shape, plain_name. intro H. apply andb_prop in H as [L F].
  apply Nat.eqb_eq in L. rewrite forallb_forall in F.
  apply forallb_forall. intros c I.
  apply In_get_string in I as (i & Li & G). rewrite L in Li.
  specialize (F i). rewrite G in F. apply (uuid_char_name i).
  apply F. apply in_seq. lia.
Qed.

(** ** The data of a node *)



(** ** Nodes by name *)

Lemma getNodesFromName_fold name (g : graph) : forall acc,
  fold_left (fun nodes md =>
     fold_left (fun nodes kn =>
                  if String.eqb (n_name (snd kn)) name
                  then nodes ++ [n_id (snd kn)] else nodes)
               (m_data (snd md)) nodes)
     g acc
  = acc ++ flat_map (fun md : string * module_t =>
             map (fun kn => n_id (snd kn))
                 (filter (fun kn : string * node => String.eqb (n_name (snd kn)) name)
                         (m_data (snd md)))) g.
Proof.
  assert (Inner : forall (o : obj node) acc,
            fold_left (fun nodes kn =>
                         if String.eqb (n_name (snd kn)) name
                         then nodes ++ [n_id (snd kn)] else nodes) o acc
            = acc ++ map (fun kn => n_id (snd kn))
                         (filter (fun kn : string * node =>
                                    String.eqb (n_name (snd kn)) name) o)).
  { induction o as [|kn o IH]; intro acc; simpl; [now rewrite app_nil_r|].
    rewrite IH. destruct (String.eqb (n_name (snd kn)) name); simpl;
      [now rewrite <- app_assoc|reflexivity]. }
  induction g as [|md g IH]; intro acc; simpl; [now rewrite app_nil_r|].
  rewrite Inner, IH. now rewrite app_assoc.
Qed.

Lemma filter_keys_incl {V} (P : string * V -> bool) (o : obj V) k :
  In k (map fst (filter P o)) -> In k (keys o).
Proof.
  intro I. apply in_map_iff in I as (x & <- & I). apply filter_In in I as [I _].
  unfold keys. now apply in_map.
Qed.

Lemma NoDup_filter_keys {V} (P : string * V -> bool) (o : obj V) :
  NoDup (keys o) -> NoDup (map fst (filter P o)).
Proof.
  induction o as [|[k v] o IH]; simpl; intro ND; [constructor|].
  inversion ND as [|? ? NI ND']; subst.
  destruct (P (k, v)); simpl; [|auto].
  constructor; [|auto]. intro I. apply NI. eapply filter_keys_incl; eauto.
Qed.

(** No key is a node key of two modules. *)
Lemma NoDup_filtered_keys (P : string * node -> bool) (l : graph) :
  NoDup (keys l) ->
  (forall m md, In (m, md) l -> NoDup (keys (m_data md))) ->
  (forall m1 md1 m2 md2 k, In (m1, md1) l -> In (m2, md2) l ->
     In k (keys (m_data md1)) -> In k (keys (m_data md2)) -> m1 = m2) ->
  NoDup (flat_map (fun md : string * module_t =>
                     map fst (filter P (m_data (snd md)))) l).
Proof.
  induction l as [|[m md] l IH]; intros ND Hk Hu; simpl; [constructor|].
  inversion ND as [|? ? NI ND']; subst.
  apply NoDup_app.
  - apply NoDup_filter_keys. apply (Hk m). now left.
  - apply IH; [assumption| |].
    + intros; eapply Hk; right; eauto.
    + intros m1 md1 m2 md2 k I1 I2. apply Hu; now right.
  - intros k I1 I2. apply in_flat_map in I2 as ([m2 md2] & I2 & Ik2). simpl in Ik2.
    apply filter_keys_incl in I1, Ik2.
    assert (m = m2).
    { apply (Hu m md m2 md2 k); auto; [now left|now right]. }
    subst m2. apply NI. unfold keys. now apply (in_map fst) in I2.
Qed.

(** ** Standard keys and drawable nodes, node by node *)




(** Standard keys are plain names, of which selectors and class names
    can be built. *)
Lemma standard_key_plain k : standard_key k = true -> plain_name k = true.
Proof.
  unfold standard_key. destruct (uuid_shape k) eqn:U; intro H.
  - now apply uuid_shape_plain.
  - apply decimal_key_text in H as (n & -> & _). apply plain_name_nat.
Qed.
(** ** What every method keeps *)















(** *** The module "Home" *)





(** ** The round trip of export and import *)


(** ** [addConnection]: modules, repetition, and what is stored *)

(** C4 (as amended). In a store with standard node keys, when the two
    identifiers resolve to different modules, [addConnection] reports
    nothing to the caller: it returns normally and the editor is
    unchanged (no entry on either node, no element, no event). *)
Theorem addConnection_cross_module e a b oc ic :
  standard_keys (drawflow e) = true ->
  module_of a (drawflow e) <> module_of b (drawflow e) ->
  addConnection a b oc ic e = Ret tt e.
Proof. intros _. apply addConnection_other_module. Qed.

Lemma addConnection_cross_module_witness :
  standard_keys (drawflow two_modules) = true
  /\ module_of (IdNum 1) (drawflow two_modules) <> module_of (IdNum 2) (drawflow two_modules)
  /\ addConnection (IdNum 1) (IdNum 2) "output_1" "input_1" two_modules
     = Ret tt two_modules.
Proof.
  split; [vm_compute; reflexivity|]. split; [vm_compute; discriminate|].
  apply addConnection_cross_module; [vm_compute; reflexivity|vm_compute; discriminate].
Defined.

(** C4 as stated fails: node 1 is in "Home", node 2 in "Other", and
    the call does not end in an error. *)
Lemma addConnection_cross_module_no_error :
  module_of (IdNum 1) (drawflow two_modules) = Some "Home"
  /\ module_of (IdNum 2) (drawflow two_modules) = Some "Other"
  /\ ~ (exists x e', addConnection (IdNum 1) (IdNum 2) "output_1" "input_1" two_modules
                     = Throw x e').
Proof.
  split; [reflexivity|]. split; [reflexivity|].
  intros (x & e' & H). vm_compute in H. discriminate.
Qed.







(** ** [addNode]: port counts and the counter *)







(** ** The module "Home" *)





















(** ** Removal of a port *)




(** ** Removal of a port: the two methods *)





(** ** Removal of one connection *)

(** X3. On a consistent editor with standard node keys and drawable
    nodes, [removeSingleConnection] on a recorded connection returns
    [true]: the entry is removed from the output port and its
    counterpart from the input port, each list loses one entry, the
    lists of all other ports are unchanged, and the editor is
    consistent again, with standard keys. *)
Theorem removeSingleConnection_unlinks id_output id_input output_class input_class
    e m lo :
  consistent e = true ->
  standard_keys (drawflow e) = true ->
  drawable (drawflow e) = true ->
  conns_at Outputs m (toString id_output) output_class (drawflow e) = Some lo ->
  existsb (points_to (toString id_input) input_class) lo = true ->
  exists e' li,
    removeSingleConnection id_output id_input output_class input_class e = Ret true e'
    /\ conns_at Inputs m (toString id_input) input_class (drawflow e) = Some li
    /\ conns_at Outputs m (toString id_output) output_class (drawflow e')
       = Some (filter (not_to (toString id_input) input_class) lo)
    /\ conns_at Inputs m (toString id_input) input_class (drawflow e')
       = Some (filter (not_to (toString id_output) output_class) li)
    /\ (List.length (filter (not_to (toString id_input) input_class) lo) + 1
        = List.length lo)%nat
    /\ (List.length (filter (not_to (toString id_output) output_class) li) + 1
        = List.length li)%nat
    /\ (forall sd m' k c,
          same_path Outputs m (toString id_output) output_class sd m' k c = false ->
          same_path Inputs m (toString id_input) input_class sd m' k c = false ->
          conns_at sd m' k c (drawflow e') = conns_at sd m' k c (drawflow e))
    /\ consistent e' = true
    /\ standard_keys (drawflow e') = true.
Proof.
  intros C PK _ Lo Ex.
  pose proof (consistent_stable e Outputs m C) as ST.
  destruct (conns_at_inv _ _ _ _ _ _ Lo) as (na & pa & Na & Pa & Ea).
  specialize (ST (node_at_module _ _ _ _ Na)).
  pose proof ST as (OK & IDS & SYM & SH).
  apply existsb_points_to in Ex. apply count_to_pos in Ex as (c & Ic & En & Ep).
  destruct (SYM _ _ _ _ _ _ Lo Ic) as (t & Et & Uo & li & Li & Ui).
  assert (t = toString id_input) by congruence. subst t.
  rewrite Ep in *. simpl other in Li.
  destruct (removeSingleConnection_linked Outputs e id_output id_input
              output_class input_class m lo li ST Lo Li Uo Ui)
    as (e' & R & (OK' & IDS' & SYM' & SH') & M & SK & V & NE & FR).
  exists e', li. split; [assumption|]. split; [assumption|].
  split; [|split; [|split; [|split; [|split; [|split]]]]].
  - rewrite V, same_path_refl, Lo. reflexivity.
  - rewrite V.
    change (same_path Outputs m (toString id_output) output_class
                      Inputs m (toString id_input) input_class) with false.
    cbv iota. rewrite same_path_refl, Li. reflexivity.
  - pose proof (weight_unlink Outputs "" _ _ _ Uo) as W. simpl in W. exact W.
  - pose proof (weight_unlink Outputs "" _ _ _ Ui) as W. simpl in W. exact W.
  - intros sd m' k c' E1 E2. rewrite V, E1, E2. reflexivity.
  - apply (frame_consistent m e e' Outputs C FR OK' IDS' SYM' SH').
    destruct (NE _ _ Na) as (n' & N' & _). exact (node_at_module _ _ _ _ N').
  - exact (standard_keys_frame m e e' FR PK).
Qed.

Lemma removeSingleConnection_unlinks_witness :
  consistent wired = true
  /\ standard_keys (drawflow wired) = true
  /\ drawable (drawflow wired) = true
  /\ conns_at Outputs "Home" (toString (IdNum 1)) "output_2" (drawflow wired)
     = Some [{| c_node := IdStr "2"; c_port := "input_2"; c_points := None |};
             {| c_node := IdStr "2"; c_port := "input_3"; c_points := None |}]
  /\ exists e' li,
       removeSingleConnection (IdNum 1) (IdNum 2) "output_2" "input_3" wired
       = Ret true e'
       /\ conns_at Inputs "Home" "2" "input_3" (drawflow wired) = Some li
       /\ conns_at Outputs "Home" "1" "output_2" (drawflow e')
          = Some [{| c_node := IdStr "2"; c_port := "input_2"; c_points := None |}]
       /\ consistent e' = true.
Proof.
  split; [vm_compute; reflexivity|]. split; [vm_compute; reflexivity|].
  split; [vm_compute; reflexivity|]. split; [vm_compute; reflexivity|].
  destruct (removeSingleConnection_unlinks (IdNum 1) (IdNum 2) "output_2" "input_3"
              wired "Home"
              [{| c_node := IdStr "2"; c_port := "input_2"; c_points := None |};
               {| c_node := IdStr "2"; c_port := "input_3"; c_points := None |}])
    as (e' & li & R & Li & Lo' & _ & _ & _ & _ & C' & _);
    [vm_compute; reflexivity|vm_compute; reflexivity|vm_compute; reflexivity
    |vm_compute; reflexivity|vm_compute; reflexivity|].
  exists e', li. repeat split; assumption.
Defined.

(** X4. On a consistent editor with standard node keys,
    [removeSingleConnection] on two identifiers that resolve to one
    module, for an existing output port of the first that has no entry
    for [(id_input, input_class)], returns [false] and changes
    nothing: the canvas is not touched and no event is dispatched. *)
Theorem removeSingleConnection_absent id_output id_input output_class input_class
    e m lo :
  consistent e = true ->
  standard_keys (drawflow e) = true ->
  module_of id_output (drawflow e) = Some m ->
  module_of id_input (drawflow e) = Some m ->
  conns_at Outputs m (toString id_output) output_class (drawflow e) = Some lo ->
  existsb (fun item => loose_eq (c_node item) id_input
                       && String.eqb (c_port item) input_class) lo = false ->
  removeSingleConnection id_output id_input output_class input_class e = Ret false e.
Proof.
  intros _ _ Ma Mb Lo Ex. unfold removeSingleConnection. munfold.
  rewrite Ma, Mb. simpl. rewrite String.eqb_refl, Lo.
  assert (F : find_index (fun item => loose_eq (c_node item) id_input
                                      && String.eqb (c_port item) input_class) lo
              = None).
  { clear Lo. induction lo as [|x lo IH]; simpl in *; [reflexivity|].
    apply orb_false_iff in Ex as [E1 E2]. rewrite E1, (IH E2). reflexivity. }
  unfold findIndex. rewrite F. reflexivity.
Qed.

Lemma removeSingleConnection_absent_witness :
  consistent wired = true
  /\ standard_keys (drawflow wired) = true
  /\ removeSingleConnection (IdNum 1) (IdNum 2) "output_1" "input_2" wired
     = Ret false wired.
Proof.
  split; [vm_compute; reflexivity|]. split; [vm_compute; reflexivity|].
  apply (removeSingleConnection_absent (IdNum 1) (IdNum 2) "output_1" "input_2"
           wired "Home"
           [{| c_node := IdStr "2"; c_port := "input_1"; c_points := None |}]);
    vm_compute; reflexivity.
Defined.

(** X5. On a store with standard node keys and without a module
    named [undefined], [removeSingleConnection] on two identifiers
    that no module holds throws a TypeError (both module names are
    [undefined], which compare equal, and the store is then read at
    [undefined]); the editor is unchanged. *)
Theorem removeSingleConnection_unknown_ids id_output id_input output_class
    input_class e :
  standard_keys (drawflow e) = true ->
  module_of id_output (drawflow e) = None ->
  module_of id_input (drawflow e) = None ->
  get "undefined" (drawflow e) = None ->
  removeSingleConnection id_output id_input output_class input_class e
  = Throw TypeError e.
Proof.
  intros _ Ma Mb U. unfold removeSingleConnection. munfold.
  rewrite Ma, Mb. simpl. unfold conns_at, node_at. rewrite U. reflexivity.
Qed.

Lemma removeSingleConnection_unknown_ids_witness :
  standard_keys (drawflow wired) = true
  /\ removeSingleConnection (IdNum 7) (IdNum 8) "output_1" "input_1" wired
     = Throw TypeError wired.
Proof.
  split; [vm_compute; reflexivity|].
  apply removeSingleConnection_unknown_ids; vm_compute; reflexivity.
Defined.

(** ** Adding a connection: the invariant and a failure *)



(** X7. On a consistent editor with standard node keys,
    [addConnection] from an existing output port, for a connection
    that is not recorded yet, to an input port that does not exist on
    a node of the same module throws a TypeError after the entry of
    the output port has been pushed: the store keeps an output entry
    without counterpart, so it is no longer symmetric; nothing is
    drawn and no event is dispatched. *)
Theorem addConnection_missing_input_port id_output id_input output_class input_class
    e m lo :
  consistent e = true ->
  standard_keys (drawflow e) = true ->
  module_of id_input (drawflow e) = Some m ->
  conns_at Outputs m (toString id_output) output_class (drawflow e) = Some lo ->
  existsb (points_to (toString id_input) input_class) lo = false ->
  conns_at Inputs m (toString id_input) input_class (drawflow e) = None ->
  exists e',
    addConnection id_output id_input output_class input_class e = Throw TypeError e'
    /\ conns_at Outputs m (toString id_output) output_class (drawflow e')
       = Some (lo ++ [pointer (toString id_input) input_class])
    /\ symmetric (drawflow e') = false
    /\ precanvas e' = precanvas e
    /\ dispatched e' = dispatched e.
Proof.
  intros C _ Mb Lo Ex Li.
  destruct (consistent_parts e C) as (OK & IDS & SYM & _).
  destruct (conns_at_inv _ _ _ _ _ _ Lo) as (n & p & N & P & <-).
  pose proof (module_of_node_at _ _ _ _ OK IDS N) as Ma.
  rewrite <- (existsb_loose_points_to _ _ _ _ _ _ id_input input_class IDS SYM Lo)
    in Ex.
  destruct (change_conns_Some Outputs m (toString id_output) output_class
              (fun l => l ++ [pointer (toString id_input) input_class]) _ _ Lo)
    as (g1 & G1).
  assert (Lo1 : conns_at Outputs m (toString id_output) output_class g1
                = Some (connections p ++ [pointer (toString id_input) input_class])).
  { rewrite (conns_at_change _ _ _ _ _ _ _ _ _ _ _ G1), same_path_refl, Lo.
    reflexivity. }
  assert (Li1 : conns_at Inputs m (toString id_input) input_class g1 = None).
  { rewrite (conns_at_change _ _ _ _ _ _ _ _ _ _ _ G1). simpl. assumption. }
  assert (G2 : change_conns Inputs m (toString id_input) input_class
                 (fun l => l ++ [pointer (toString id_output) output_class]) g1
               = None).
  { unfold change_conns. unfold conns_at in Li1.
    destruct (node_at m (toString id_input) g1) as [nb|]; [|reflexivity].
    destruct (get input_class (ports Inputs nb)); [discriminate|reflexivity]. }
  exists (set_drawflow g1 e). split; [|split; [exact Lo1|split; [|split; reflexivity]]].
  - unfold addConnection.
    unfold bind at 1. unfold getModuleFromNodeId at 1, gets at 1. rewrite Ma.
    unfold bind at 1. unfold getModuleFromNodeId at 1, gets at 1. rewrite Mb.
    cbn [option_string_eqb key_of]. rewrite String.eqb_refl.
    unfold bind at 1. rewrite (getNodeFromId_spec id_output e n OK)
      by (now rewrite Ma).
    unfold bind at 1. simpl in P. rewrite P. unfold deref, ret at 1.
    rewrite Ex. cbn [negb].
    unfold bind at 1. rewrite (update_store_Some _ _ g1) by exact G1.
    unfold bind at 1.
    match goal with
    | |- context [update_store ?f ?s] => rewrite (update_store_None f s G2)
    end.
    reflexivity.
  - cbn [drawflow set_drawflow].
    destruct (symmetric g1) eqn:S1; [exfalso|reflexivity].
    pose proof (symmetric_symmetric_at _ S1) as SYM1.
    assert (Inew : In (pointer (toString id_input) input_class)
                      (connections p ++ [pointer (toString id_input) input_class])).
    { apply in_or_app. right. now left. }
    destruct (SYM1 _ _ _ _ _ _ Lo1 Inew) as (t & Et & _ & l' & L' & _).
    injection Et as <-. simpl in L'. congruence.
Qed.

Lemma addConnection_missing_input_port_witness :
  exists e',
    addConnection (IdNum 1) (IdNum 2) "output_1" "input_9" wired = Throw TypeError e'
    /\ conns_at Outputs "Home" "1" "output_1" (drawflow e')
       = Some [pointer "2" "input_1"; pointer "2" "input_9"]
    /\ symmetric (drawflow e') = false
    /\ precanvas e' = precanvas wired
    /\ dispatched e' = dispatched wired.
Proof.
  apply (addConnection_missing_input_port (IdNum 1) (IdNum 2) "output_1" "input_9"
           wired "Home" [pointer "2" "input_1"]);
    vm_compute; reflexivity.
Defined.

(** ** Looking a node up *)

(** X8. On a consistent editor with standard node keys,
    [getModuleFromNodeId(id)] returns the name of the module that has
    a node under the key [id.toString()], whether [id] is a number or
    a string, and [undefined] when no module has one; it changes
    nothing. *)
Theorem getModuleFromNodeId_finds id e :
  consistent e = true ->
  standard_keys (drawflow e) = true ->
  exists r,
    getModuleFromNodeId id e = Ret r e
    /\ (forall m, r = Some m <-> exists n, node_at m (toString id) (drawflow e) = Some n).
Proof.
  intros C _. destruct (consistent_parts e C) as (OK & IDS & _).
  exists (module_of id (drawflow e)). split; [reflexivity|].
  intro m. now apply module_of_iff.
Qed.

Lemma getModuleFromNodeId_finds_witness :
  consistent connected_elsewhere = true
  /\ exists r,
       getModuleFromNodeId (IdNum 2) connected_elsewhere = Ret r connected_elsewhere
       /\ (forall m, r = Some m <->
                     exists n, node_at m "2" (drawflow connected_elsewhere) = Some n).
Proof.
  split; [vm_compute; reflexivity|].
  apply (getModuleFromNodeId_finds (IdNum 2) connected_elsewhere);
    vm_compute; reflexivity.
Defined.

(** X9. On a consistent editor with standard node keys,
    [getNodeFromId(id)] returns the record stored under the key
    [id.toString()] of whichever module holds it (the deep copy is
    equal to the record), whether [id] is a number or a string, and
    changes nothing. *)
Theorem getNodeFromId_stored id e m :
  consistent e = true ->
  standard_keys (drawflow e) = true ->
  has_node m (toString id) (drawflow e) = true ->
  exists n,
    node_at m (toString id) (drawflow e) = Some n
    /\ getNodeFromId id e = Ret n e.
Proof.
  intros C _ H. destruct (consistent_parts e C) as (OK & IDS & _).
  unfold has_node in H.
  destruct (node_at m (toString id) (drawflow e)) as [n|] eqn:N; [|discriminate].
  exists n. split; [reflexivity|].
  apply getNodeFromId_spec; [assumption|].
  now rewrite (module_of_node_at _ _ _ _ OK IDS N).
Qed.

Lemma getNodeFromId_stored_witness :
  consistent connected_elsewhere = true
  /\ has_node "Other" (toString (IdNum 1)) (drawflow connected_elsewhere) = true
  /\ exists n,
       node_at "Other" (toString (IdNum 1)) (drawflow connected_elsewhere) = Some n
       /\ getNodeFromId (IdNum 1) connected_elsewhere = Ret n connected_elsewhere.
Proof.
  split; [vm_compute; reflexivity|]. split; [vm_compute; reflexivity|].
  apply (getNodeFromId_stored (IdNum 1) connected_elsewhere "Other");
    vm_compute; reflexivity.
Defined.

(** X10. On a consistent editor with standard node keys and without a
    module named ["undefined"], [getNodeFromId(id)] for an identifier
    that no module holds throws a TypeError (the store is read at the
    module name [undefined]) and changes nothing. *)
Theorem getNodeFromId_unknown id e :
  consistent e = true ->
  standard_keys (drawflow e) = true ->
  forallb (fun md => negb (has (toString id) (m_data (snd md)))) (drawflow e) = true ->
  get "undefined" (drawflow e) = None ->
  getNodeFromId id e = Throw TypeError e.
Proof.
  intros C _ F U. destruct (consistent_parts e C) as (OK & IDS & _).
  assert (M : module_of id (drawflow e) = None).
  { apply module_of_None; [assumption|assumption|]. intro m.
    unfold node_at. destruct (get m (drawflow e)) as [md|] eqn:G; [|reflexivity].
    rewrite forallb_forall in F. specialize (F _ (get_In _ _ _ G)). simpl in F.
    apply negb_true_iff in F. unfold has in F.
    now destruct (get (toString id) (m_data md)). }
  unfold getNodeFromId. munfold. rewrite M. simpl. now rewrite U.
Qed.

Lemma getNodeFromId_unknown_witness :
  getNodeFromId (IdNum 7) wired = Throw TypeError wired.
Proof.
  apply getNodeFromId_unknown; vm_compute; reflexivity.
Defined.

(** ** Adding a node *)





(** ** Adding a port *)





(** ** Modules *)



(** X16. [changeModule(name)] to a name that is not a module (and not
    a property that every object inherits) throws a TypeError after the
    switch: the store is unchanged, but [name] is now the active
    module and the canvas is empty, and a following [addNode] throws a
    TypeError as well. *)
Theorem changeModule_unknown name e n_name num_in num_out x y cls data html tn :
  graph_ok (drawflow e) = true ->
  has name (drawflow e) = false ->
  inherited name = false ->
  useuuid e = false ->
  renders cls data html tn = true ->
  exists e',
    changeModule name e = Throw TypeError e'
    /\ drawflow e' = drawflow e
    /\ module e' = name
    /\ precanvas e' = []
    /\ nodeId e' = nodeId e
    /\ addNode n_name num_in num_out x y cls data html tn e' = Throw TypeError e'.
Proof.
  intros OK H _ U R. unfold has in H.
  destruct (get name (drawflow e)) as [md|] eqn:G; [discriminate|].
  set (e1 := set_precanvas [] (set_module name
               (final (dispatch "moduleChanged" (DStr name) e)))).
  exists (set_drawflow (clone_graph (drawflow e))
            (set_drawflow [("Home", {| m_data := [] |})] (set_precanvas [] e1))).
  split; [|split; [|split; [|split; [|split]]]]; try reflexivity.
  - change (changeModule name e) with (import (drawflow e1) false e1).
    change (import (drawflow e1) false e1)
      with ((load ;; ret tt)
              (set_drawflow (clone_graph (drawflow e))
                 (set_drawflow [("Home", {| m_data := [] |})] (set_precanvas [] e1)))).
    unfold bind at 1. rewrite load_missing; [reflexivity|].
    simpl. now rewrite clone_graph_id.
  - simpl. now apply clone_graph_id.
  - subst e1. destruct e as [g m nid uu pc dp rnd rc]. simpl in *. subst uu.
    rewrite (clone_graph_id _ OK).
    unfold set_drawflow, set_precanvas, set_module. simpl.
    unfold addNode. munfold. cbn [useuuid module nodeId drawflow]. cbv beta iota.
    rewrite (object_entries_spec data _ (renders_data _ _ _ _ R)). cbv beta iota.
    cbn [drawflow module]. unfold set_node. now rewrite G.
Qed.

Lemma changeModule_unknown_witness :
  exists e',
    changeModule "Elsewhere" wired = Throw TypeError e'
    /\ drawflow e' = drawflow wired
    /\ module e' = "Elsewhere"
    /\ precanvas e' = []
    /\ nodeId e' = nodeId wired
    /\ addNode "c" 1 1 0 0 "" (JObject []) "" (JBool false) e' = Throw TypeError e'.
Proof.
  apply (changeModule_unknown "Elsewhere" wired "c" 1 1 0 0 "" (JObject []) ""
           (JBool false)); vm_compute; reflexivity.
Defined.



(** X18. On a consistent editor, [clearModuleSelected()] replaces the
    active module by an empty one and empties the canvas: the nodes of
    the active module are gone, the nodes of the other modules, the
    counter and the active module are as before, and the editor is
    consistent. *)
Theorem clearModuleSelected_empties e :
  consistent e = true ->
  inherited (module e) = false ->
  exists e',
    clearModuleSelected e = Ret tt e'
    /\ has (module e) (drawflow e') = true
    /\ (forall m k, node_at m k (drawflow e')
          = if String.eqb m (module e) then None else node_at m k (drawflow e))
    /\ precanvas e' = []
    /\ module e' = module e
    /\ nodeId e' = nodeId e
    /\ dispatched e' = dispatched e
    /\ consistent e' = true.
Proof.
  intros C _. destruct (consistent_parts e C) as (OK & IDS & SYM & _).
  destruct (set_empty_module (module e) (drawflow e) OK IDS SYM)
    as (OK' & IDS' & SYM' & NA).
  eexists. split; [reflexivity|].
  destruct e as [g m nid uu pc dp rnd rc]. unfold set_drawflow, set_precanvas.
  simpl in *.
  split; [unfold has; now rewrite get_set, String.eqb_refl|].
  split; [exact NA|]. split; [reflexivity|]. split; [reflexivity|].
  split; [reflexivity|]. split; [reflexivity|].
  unfold consistent. simpl.
  rewrite OK', (ids_at_ids_ok _ OK' IDS'), (symmetric_at_symmetric _ OK' SYM').
  unfold canvas_ok. simpl. rewrite get_set, String.eqb_refl. reflexivity.
Qed.

Lemma clearModuleSelected_empties_witness :
  consistent two_modules = true
  /\ exists e',
       clearModuleSelected two_modules = Ret tt e'
       /\ node_at "Other" "2" (drawflow e') = None
       /\ node_at "Home" "1" (drawflow e') = node_at "Home" "1" (drawflow two_modules)
       /\ consistent e' = true.
Proof.
  split; [vm_compute; reflexivity|].
  destruct (clearModuleSelected_empties two_modules)
    as (e' & R & _ & NA & _ & _ & _ & _ & C');
    [vm_compute; reflexivity|vm_compute; reflexivity|].
  exists e'. split; [exact R|]. split; [|split; [|exact C']].
  - rewrite NA. reflexivity.
  - rewrite NA. reflexivity.
Defined.

(** X19. On a consistent editor with an existing active module,
    [addModule(name)] adds an empty module [name] and dispatches
    [moduleCreated]; when [name] already is a module, the module is
    replaced by an empty one and its nodes are gone.  The nodes of the
    other modules and the canvas are as before, and the editor is
    consistent. *)
Theorem addModule_resets name e :
  consistent e = true ->
  has (module e) (drawflow e) = true ->
  inherited name = false ->
  exists e',
    addModule name e = Ret tt e'
    /\ has name (drawflow e') = true
    /\ (forall m k, node_at m k (drawflow e')
          = if String.eqb m name then None else node_at m k (drawflow e))
    /\ precanvas e' = precanvas e
    /\ module e' = module e
    /\ nodeId e' = nodeId e
    /\ dispatched e'
       = dispatched e ++ [{| ev_name := "moduleCreated"; ev_detail := DStr name |}]
    /\ consistent e' = true.
Proof.
  intros C H _. destruct (consistent_parts e C) as (OK & IDS & SYM & Cv).
  destruct (set_empty_module name (drawflow e) OK IDS SYM)
    as (OK' & IDS' & SYM' & NA).
  eexists. split; [reflexivity|].
  destruct e as [g m nid uu pc dp rnd rc]. unfold set_drawflow. simpl in *.
  split; [unfold has; now rewrite get_set, String.eqb_refl|].
  split; [exact NA|]. split; [reflexivity|]. split; [reflexivity|].
  split; [reflexivity|]. split; [reflexivity|].
  unfold consistent. simpl.
  rewrite OK', (ids_at_ids_ok _ OK' IDS'), (symmetric_at_symmetric _ OK' SYM').
  unfold canvas_ok in *. simpl in *. rewrite get_set. unfold has in H.
  destruct (get m g) as [md|] eqn:G; [|discriminate].
  apply andb_prop in Cv as [_ F].
  destruct (String.eqb m name); [exact F|].
  unfold consistent in C. simpl in C. unfold canvas_ok in C. simpl in C.
  rewrite G in C. now apply andb_prop in C as [_ C].
Qed.

Lemma addModule_resets_witness :
  consistent connected_elsewhere = true
  /\ has_node "Other" "1" (drawflow connected_elsewhere) = true
  /\ exists e',
       addModule "Other" connected_elsewhere = Ret tt e'
       /\ has "Other" (drawflow e') = true
       /\ node_at "Other" "1" (drawflow e') = None
       /\ consistent e' = true.
Proof.
  split; [vm_compute; reflexivity|]. split; [vm_compute; reflexivity|].
  destruct (addModule_resets "Other" connected_elsewhere)
    as (e' & R & H & NA & _ & _ & _ & _ & C');
    [vm_compute; reflexivity|vm_compute; reflexivity|vm_compute; reflexivity|].
  exists e'. split; [exact R|]. split; [exact H|]. split; [|exact C'].
  rewrite NA. reflexivity.
Defined.

(** ** Identifiers of the uuid policy *)

(** X20. [getUuid()] always returns a string of the shape
    [xxxxxxxx-xxxx-4xxx-yxxx-xxxxxxxxxxxx]: 36 characters, hyphens at
    positions 8, 13, 18 and 23, the digit 4 at position 14, one of 8,
    9, a, b at position 19 and lower-case hexadecimal digits elsewhere,
    whatever the random source draws; it draws 36 times and changes
    nothing else.  Such a string is a plain name. *)
Theorem getUuid_format e :
  exists u,
    getUuid e = Ret u (set_random_calls (random_calls e + 36) e)
    /\ uuid_shape u = true
    /\ plain_name u = true.
Proof.
  destruct (getUuid_shape e) as (u & R & S).
  exists u. split; [exact R|]. split; [exact S|]. now apply uuid_shape_plain.
Qed.



(** ** The data and the names of the nodes *)



(** X23. On a consistent editor whose nodes carry their keys as ids,
    [getNodesFromName(name)] returns the [id] of exactly the nodes, of
    any module, whose [name] is [name], each of them once, and changes
    nothing. *)
Theorem getNodesFromName_lists name e :
  consistent e = true ->
  drawable (drawflow e) = true ->
  exists r,
    getNodesFromName name e = Ret r e
    /\ NoDup (map toString r)
    /\ (forall id, In id r <->
          exists m k n, node_at m k (drawflow e) = Some n
                        /\ n_name n = name /\ n_id n = id).
Proof.
  intros C D. destruct (consistent_parts e C) as (OK & IDS & _).
  set (P := fun kn : string * node => String.eqb (n_name (snd kn)) name).
  exists (flat_map (fun md : string * module_t =>
                      map (fun kn => n_id (snd kn)) (filter P (m_data (snd md))))
                   (drawflow e)).
  assert (W : forall m md, In (m, md) (drawflow e) -> well_formed (m_data md) = true).
  { intros m md I. unfold graph_ok in OK. apply andb_prop in OK as [_ A].
    rewrite forallb_forall in A. specialize (A _ I). simpl in A.
    unfold module_ok in A. now apply andb_prop in A as [W _]. }
  assert (NAT : forall m md k n, In (m, md) (drawflow e) -> In (k, n) (m_data md) ->
                  node_at m k (drawflow e) = Some n).
  { intros m md k n I Ik. unfold node_at.
    rewrite (In_get _ _ _ (graph_ok_NoDup _ OK) I).
    apply In_get; [|assumption]. apply well_formed_NoDup. eauto. }
  split; [|split].
  - unfold getNodesFromName. munfold. now rewrite getNodesFromName_fold.
  - assert (E : map toString
                  (flat_map (fun md : string * module_t =>
                               map (fun kn => n_id (snd kn)) (filter P (m_data (snd md))))
                            (drawflow e))
                = flat_map (fun md : string * module_t =>
                              map fst (filter P (m_data (snd md)))) (drawflow e)).
    { assert (X : forall l : graph, (forall x, In x l -> In x (drawflow e)) ->
                map toString
                  (flat_map (fun md : string * module_t =>
                               map (fun kn => n_id (snd kn)) (filter P (m_data (snd md))))
                            l)
                = flat_map (fun md : string * module_t =>
                              map fst (filter P (m_data (snd md)))) l).
      { induction l as [|[m md] l IH]; intro Sub; simpl; [reflexivity|].
        rewrite map_app, IH by (intros; apply Sub; now right). f_equal.
        rewrite map_map. apply map_ext_in. intros [k n] I.
        apply filter_In in I as [I _]. simpl.
        exact (proj1 (drawable_node _ _ _ _ D
                        (NAT m md k n (Sub _ (or_introl eq_refl)) I))). }
      apply X. auto. }
    rewrite E. apply NoDup_filtered_keys.
    + now apply graph_ok_NoDup.
    + intros m md I. apply well_formed_NoDup. eauto.
    + intros m1 md1 m2 md2 k I1 I2 K1 K2.
      destruct (In_node_at _ _ _ _ OK I1 K1) as (n1 & N1).
      destruct (In_node_at _ _ _ _ OK I2 K2) as (n2 & N2).
      destruct (IDS _ _ _ N1) as (_ & M1 & _).
      destruct (IDS _ _ _ N2) as (_ & M2 & _). congruence.
  - intro id. rewrite in_flat_map. split.
    + intros ([m md] & I & Ii). simpl in Ii.
      apply in_map_iff in Ii as ([k n] & <- & Ik). apply filter_In in Ik as [Ik Pn].
      unfold P in Pn. simpl in Pn. apply String.eqb_eq in Pn.
      exists m, k, n. split; [now apply (NAT m md)|]. auto.
    + intros (m & k & n & N & En & Ei).
      unfold node_at in N. destruct (get m (drawflow e)) as [md|] eqn:G; [|discriminate].
      exists (m, md). split; [now apply get_In|]. simpl.
      apply in_map_iff. exists (k, n). split; [exact Ei|].
      apply filter_In. split; [now apply get_In|].
      unfold P. simpl. now apply String.eqb_eq.
Qed.

Lemma getNodesFromName_lists_witness :
  consistent two_modules = true
  /\ getNodesFromName "b" two_modules = Ret [IdNum 2] two_modules
  /\ exists r,
       getNodesFromName "b" two_modules = Ret r two_modules
       /\ NoDup (map toString r)
       /\ (forall id, In id r <->
             exists m k n, node_at m k (drawflow two_modules) = Some n
                           /\ n_name n = "b" /\ n_id n = id).
Proof.
  split; [vm_compute; reflexivity|]. split; [vm_compute; reflexivity|].
  apply (getNodesFromName_lists "b" two_modules); vm_compute; reflexivity.
Defined.

(** ** Import *)


